(** * netradarshak: trigger dispatch and degradation pipeline

    A shallow embedding of the Python scripts of the repository:

    - [server.py]: the Flask gateway with its lazily initialised backends
      (BLIP captioning, traffic BLIP, EasyOCR, googletrans), the three
      endpoints and the temporary-file handling;
    - [client_RPI_serial.py]: the keyboard driven single-threaded client;
    - [client.py]: the desktop client with the one-key override;
    - [client_RPI.py]: the GPIO client whose captures run on threads and
      share one camera behind [capture_lock].

    Python code that mutates module globals, the file system or the
    process is written in a small state-and-exception monad.  External
    collaborators (model loaders, the OCR reader, the translator, the
    camera, the HTTP upload) are parameters of the model: a [world]
    record on the server, explicit per-cycle inputs on the clients. *)

From Stdlib Require Import Ascii QArith.
From stdpp Require Import base option list strings gmap.

Open Scope Z_scope.
Open Scope stdpp_scope.

(** ** Python values *)

(** Every exception raised by a collaborator is an instance of
    [Exception]; [msg] is what [str(e)] prints. *)
Inductive exn : Type := Exception (msg : string).

Definition str_exn (e : exn) : string := match e with Exception msg => msg end.

Inductive res (A : Type) : Type :=
| Ok (a : A)
| Raise (e : exn).
Arguments Ok {A} a.
Arguments Raise {A} e.

Definition bytes : Type := list Byte.byte.

(** JSON documents as built by [jsonify] and read by [resp.json()]. *)
#[warnings="-register-all"]
Inductive json : Type :=
| JNull
| JStr (s : string)
| JFloat (q : Q)
| JObj (fields : list (string * json)).

(** [d.get(k)] on a dict: first matching key, [None] when absent. *)
Fixpoint dict_get (k : string) (d : list (string * json)) : option json :=
  match d with
  | [] => None
  | (k', v) :: d' => if decide (k' = k) then Some v else dict_get k d'
  end.

(** [d.get(k)]: JSON [null] and a missing key both read as [None]. *)
Definition py_get (k : string) (d : list (string * json)) : json :=
  default JNull (dict_get k d).

(** Python truthiness of a JSON value. *)
Definition truthy (v : json) : bool :=
  match v with
  | JNull => false
  | JStr s => negb (bool_decide (s = EmptyString))
  | JFloat q => negb (Qeq_bool q 0)
  | JObj d => negb (bool_decide (length d = 0%nat))
  end.

(** [a or b] *)
Definition py_or (a b : json) : json := if truthy a then a else b.

(** What [requests.post] hands back when the exchange completes. *)
Record http_response : Type := {
  status_code : Z;
  json_body : res json;   (* [resp.json()] raises on a non-JSON body *)
}.

(** [resp.raise_for_status()]: HTTPError on 4xx and 5xx. *)
Definition raise_for_status (r : http_response) : res unit :=
  if bool_decide (400 <= status_code r < 600)
  then Raise (Exception "HTTPError")
  else Ok tt.

(** The exception an upload fails with, if it fails: [requests.post]
    raised (connection error, timeout), or the status is one on which
    [raise_for_status] raises. *)
Definition upload_error (r : res http_response) : option exn :=
  match r with
  | Raise e => Some e
  | Ok resp =>
      match raise_for_status resp with
      | Raise e => Some e
      | Ok _ => None
      end
  end.

(** ** Strings: [str.lower] and [str.strip] on ASCII text *)

(** The strings of the model are byte strings read as ASCII text:
    [lower] maps [A]-[Z] to [a]-[z] and leaves every other byte. *)
Definition lower_ascii (c : ascii) : ascii :=
  let n := N_of_ascii c in
  if ((65 <=? n) && (n <=? 90))%N then ascii_of_N (n + 32) else c.

Fixpoint lower (s : string) : string :=
  match s with
  | EmptyString => EmptyString
  | String c s' => String (lower_ascii c) (lower s')
  end.

(** The ASCII characters for which [str.isspace] holds: tab to
    carriage return, the four separators 28 to 31, and the space. *)
Definition is_py_space (c : ascii) : bool :=
  let n := N_of_ascii c in
  ((9 <=? n) && (n <=? 13) || (28 <=? n) && (n <=? 32))%N.

Fixpoint lstrip (s : string) : string :=
  match s with
  | EmptyString => EmptyString
  | String c s' => if is_py_space c then lstrip s' else s
  end.

Definition strip (s : string) : string :=
  String.rev (lstrip (String.rev (lstrip s))).

(** [sep.join(l)] *)
Fixpoint join (sep : string) (l : list string) : string :=
  match l with
  | [] => EmptyString
  | [x] => x
  | x :: l' => x +:+ sep +:+ join sep l'
  end.

(** The prefix of [s] before the first [c]; [None] when [c] is absent. *)
Fixpoint take_until (c : ascii) (s : string) : option string :=
  match s with
  | EmptyString => None
  | String a s' =>
      if decide (a = c) then Some EmptyString
      else String a <$> take_until c s'
  end.

Fixpoint drop_dots (s : string) : string :=
  match s with
  | String "."%char s' => drop_dots s'
  | _ => s
  end.

(** [os.path.splitext(p)[1]] with [/] as separator: the extension of
    the last path component, whose leading dots do not count. *)
Definition splitext_ext (p : string) : string :=
  let base := match take_until "/"%char (String.rev p) with
              | Some r => String.rev r
              | None => p
              end in
  match take_until "."%char (String.rev (drop_dots base)) with
  | Some r => String "."%char (String.rev r)
  | None => EmptyString
  end.


(** ** A state-and-exception monad for the Python code *)

Section Monad.
Context {S : Type}.

Definition M (A : Type) : Type := S -> res A * S.

Definition ret {A} (a : A) : M A := fun s => (Ok a, s).

Definition bind {A B} (m : M A) (k : A -> M B) : M B :=
  fun s =>
    match m s with
    | (Ok a, s') => k a s'
    | (Raise e, s') => (Raise e, s')
    end.

Definition raise {A} (e : exn) : M A := fun s => (Raise e, s).

Definition lift {A} (r : res A) : M A := fun s => (r, s).

Definition gets {A} (f : S -> A) : M A := fun s => (Ok (f s), s).

Definition modify (f : S -> S) : M unit := fun s => (Ok tt, f s).

(** [try: m  except Exception as e: h e] *)
Definition try_except {A} (m : M A) (h : exn -> M A) : M A :=
  fun s =>
    match m s with
    | (Ok a, s') => (Ok a, s')
    | (Raise e, s') => h e s'
    end.

(** [try: m  finally: f].  The finaliser runs on both exits; when it
    raises, its exception replaces the outcome of [m]. *)
Definition try_finally {A} (m : M A) (f : M unit) : M A :=
  fun s =>
    match m s with
    | (r, s') =>
        match f s' with
        | (Ok _, s'') => (r, s'')
        | (Raise e, s'') => (Raise e, s'')
        end
    end.
End Monad.
Arguments M : clear implicits.

Declare Scope py_scope.
Delimit Scope py_scope with py.
Notation "x <- m ;; k" := (bind m (fun x => k))
  (at level 100, m at next level, right associativity) : py_scope.
Notation "m ;;; k" := (bind m (fun _ => k))
  (at level 100, right associativity) : py_scope.

(** * The server: [server.py] *)

Module Server.
Local Open Scope py_scope.

(** ** Backend capabilities

    The models are opaque; the code only calls a few of their methods,
    each of which may raise. *)

Definition image : Type := list Z.
Definition tensor : Type := list Z.

(** [processor(images=image, return_tensors="pt")] and
    [processor.decode(ids, skip_special_tokens=True)]. *)
Record Processor : Type := {
  processor_call : image -> res tensor;
  decode : tensor -> res string;
}.

(** [model.eval()] and [model.generate( **inputs )]; the latter returns a
    batch, of which the code takes element [0]. *)
Record Model : Type := {
  eval : res unit;
  generate : tensor -> res (list tensor);
}.

(** One [(bbox, text, confidence)] tuple of [reader.readtext]. *)
Record detection : Type := {
  bbox : list (Z * Z);
  det_text : string;
  det_conf : Q;
}.

Record Reader : Type := {
  readtext : bytes -> res (list detection);
}.

(** [translator.translate(text, dest=lang).text] *)
Record Translator : Type := {
  translate : string -> string -> res string;
}.

(** The process-wide dict [_models]; [None] is both "not initialised
    yet" and "initialisation failed". *)
Record models : Type := {
  blip_processor : option Processor;
  blip_model : option Model;
  traffic_blip_processor : option Processor;
  traffic_blip_model : option Model;
  ocr_reader : option Reader;
  translator : option Translator;
}.

(** Calls into the heavy collaborators, recorded in order. *)
Inductive backend : Type :=
| BlipProcessorB | BlipModelB
| TrafficProcessorB | TrafficModelB
| OcrReaderB | TranslatorB.

Inductive event : Type :=
| Load (b : backend)     (* a constructor / [from_pretrained] call *)
| Invoke (b : backend).  (* a method call on a loaded capability *)

Global Instance backend_eq_dec : EqDecision backend.
Proof. solve_decision. Defined.
Global Instance event_eq_dec : EqDecision event.
Proof. solve_decision. Defined.

(** Everything outside the process.  A loader is indexed by the number
    of earlier calls to it, so that a download may fail once and work
    later. *)
Record world : Type := {
  torch_blip_imported : bool;   (* the [try: import torch ...] block *)
  easyocr_imported : bool;
  googletrans_imported : bool;
  BlipProcessor_from_pretrained : nat -> res Processor;
  BlipForConditionalGeneration_from_pretrained : nat -> res Model;
  AutoProcessor_from_pretrained : nat -> res Processor;
  AutoModelForVision2Seq_from_pretrained : nat -> res Model;
  easyocr_Reader : nat -> res Reader;
  Translator_new : nat -> res Translator;
  PIL_Image_open : option (bytes -> res image);
  NamedTemporaryFile_name : gmap string bytes -> string -> string;
}.

Record state : Type := mkState {
  _models : models;
  fs : gmap string bytes;
  trace : list event;
}.

Definition set_models (f : models -> models) (s : state) : state :=
  {| _models := f (_models s); fs := fs s; trace := trace s |}.

Definition set_fs (f : gmap string bytes -> gmap string bytes) (s : state) : state :=
  {| _models := _models s; fs := f (fs s); trace := trace s |}.

Definition log (e : event) (s : state) : state :=
  {| _models := _models s; fs := fs s; trace := trace s ++ [e] |}.

Definition loads (b : backend) (t : list event) : nat :=
  length (filter (fun e => e = Load b) t).

(** A loader call: the outcome of the [n]-th attempt, logged. *)
Definition load {A} (b : backend) (f : nat -> res A) : M state A :=
  fun s => (f (loads b (trace s)), log (Load b) s).

(** A method call on a capability, logged. *)
Definition invoke {A} (b : backend) (r : res A) : M state A :=
  fun s => (r, log (Invoke b) s).

Definition set_blip_processor v (m : models) : models :=
  {| blip_processor := v; blip_model := blip_model m;
     traffic_blip_processor := traffic_blip_processor m;
     traffic_blip_model := traffic_blip_model m;
     ocr_reader := ocr_reader m; translator := translator m |}.
Definition set_blip_model v (m : models) : models :=
  {| blip_processor := blip_processor m; blip_model := v;
     traffic_blip_processor := traffic_blip_processor m;
     traffic_blip_model := traffic_blip_model m;
     ocr_reader := ocr_reader m; translator := translator m |}.
Definition set_traffic_blip_processor v (m : models) : models :=
  {| blip_processor := blip_processor m; blip_model := blip_model m;
     traffic_blip_processor := v;
     traffic_blip_model := traffic_blip_model m;
     ocr_reader := ocr_reader m; translator := translator m |}.
Definition set_traffic_blip_model v (m : models) : models :=
  {| blip_processor := blip_processor m; blip_model := blip_model m;
     traffic_blip_processor := traffic_blip_processor m;
     traffic_blip_model := v;
     ocr_reader := ocr_reader m; translator := translator m |}.
Definition set_ocr_reader v (m : models) : models :=
  {| blip_processor := blip_processor m; blip_model := blip_model m;
     traffic_blip_processor := traffic_blip_processor m;
     traffic_blip_model := traffic_blip_model m;
     ocr_reader := v; translator := translator m |}.
Definition set_translator v (m : models) : models :=
  {| blip_processor := blip_processor m; blip_model := blip_model m;
     traffic_blip_processor := traffic_blip_processor m;
     traffic_blip_model := traffic_blip_model m;
     ocr_reader := ocr_reader m; translator := v |}.

(** ** Utilities *)

Definition LANGUAGE_ALIASES : gmap string string :=
  list_to_map
    [("en", "en"); ("english", "en");
     ("hi", "hi"); ("hindi", "hi");
     ("te", "te"); ("telugu", "te")].

Definition normalize_language (lang : string) : string :=
  if decide (lang = EmptyString) then "en"
  else let l := lower lang in default l (LANGUAGE_ALIASES !! l).


(** ** Requests and responses *)

Inductive method : Type := GET | POST.

(** A Werkzeug [FileStorage]. *)
Record FileStorage : Type := {
  filename : string;
  content : bytes;
}.

(** [request.files] is a multi-dict: fields in order of arrival, and
    [files[k]] is the first one named [k]. *)
Record request : Type := {
  req_method : method;
  files : list (string * FileStorage);
}.

Fixpoint files_get (k : string) (l : list (string * FileStorage)) : option FileStorage :=
  match l with
  | [] => None
  | (k', v) :: l' => if decide (k' = k) then Some v else files_get k l'
  end.

Record response : Type := {
  status : nat;
  body : json;
}.

Definition jsonify (d : list (string * json)) : response :=
  {| status := 200%nat; body := JObj d |}.

Definition dq : string := String (ascii_of_nat 34) EmptyString.

Definition no_image_error : response :=
  {| status := 400%nat;
     body := JObj [("error", JStr "No image provided. Use multipart form 'image' or 'file'.")] |}.

Definition SAMPLE_CAPTION : string := "A sample caption describing the scene.".
Definition SAMPLE_OCR : string :=
  "Sample OCR: The quick brown fox jumps over the lazy dog.".

(** [os.path.splitext(upload.filename)[1] if upload and upload.filename
    else ""]; a [FileStorage] is falsy exactly when its filename is. *)
Definition upload_suffix (upload : FileStorage) : string :=
  if decide (filename upload = EmptyString) then EmptyString
  else splitext_ext (filename upload).

Section WithWorld.
Variable W : world.

(** ** Temporary files *)

(** [upload.save(tmp.name)] inside [NamedTemporaryFile(delete=False)]:
    the file is created empty under a name chosen by the system, then
    overwritten with the upload.  The [subprocess.run] that follows
    does not touch the state of the model. *)
Definition save_upload_to_temp (upload : FileStorage) : M state string :=
  let suffix := upload_suffix upload in
  name <- gets (fun s => NamedTemporaryFile_name W (fs s) suffix);;
  modify (set_fs (insert name []));;;
  modify (set_fs (insert name (content upload)));;;
  ret name.

(** [os.remove(path)] *)
Definition os_remove (path : string) : M state unit :=
  fun s =>
    match fs s !! path with
    | Some _ => (Ok tt, set_fs (delete path) s)
    | None => (Raise (Exception "FileNotFoundError"), s)
    end.

(** ** Model initialization *)

Definition init_translator : M state (option Translator) :=
  cur <- gets (fun s => translator (_models s));;
  match cur with
  | None =>
      if negb (googletrans_imported W) then
        modify (set_models (set_translator None))
      else
        try_except
          (t <- load TranslatorB (Translator_new W);;
           modify (set_models (set_translator (Some t))))
          (fun _ => modify (set_models (set_translator None)))
  | Some _ => ret tt
  end;;;
  gets (fun s => translator (_models s)).

Definition init_blip : M state (option Processor * option Model) :=
  ms <- gets _models;;
  match blip_model ms, blip_processor ms with
  | Some _, Some _ => gets (fun s => (blip_processor (_models s), blip_model (_models s)))
  | _, _ =>
      if negb (torch_blip_imported W) || negb (torch_blip_imported W)
         || negb (torch_blip_imported W) then
        modify (set_models (set_blip_processor None));;;
        modify (set_models (set_blip_model None));;;
        ret (None, None)
      else
        try_except
          (p <- load BlipProcessorB (BlipProcessor_from_pretrained W);;
           modify (set_models (set_blip_processor (Some p)));;;
           m <- load BlipModelB (BlipForConditionalGeneration_from_pretrained W);;
           modify (set_models (set_blip_model (Some m)));;;
           lift (eval m))
          (fun _ =>
             modify (set_models (set_blip_processor None));;;
             modify (set_models (set_blip_model None)));;;
        gets (fun s => (blip_processor (_models s), blip_model (_models s)))
  end.

Definition init_traffic_blip : M state (option Processor * option Model) :=
  ms <- gets _models;;
  match traffic_blip_model ms, traffic_blip_processor ms with
  | Some _, Some _ =>
      gets (fun s => (traffic_blip_processor (_models s), traffic_blip_model (_models s)))
  | _, _ =>
      if negb (torch_blip_imported W) || negb (torch_blip_imported W)
         || negb (torch_blip_imported W) then
        modify (set_models (set_traffic_blip_processor None));;;
        modify (set_models (set_traffic_blip_model None));;;
        ret (None, None)
      else
        try_except
          (p <- load TrafficProcessorB (AutoProcessor_from_pretrained W);;
           modify (set_models (set_traffic_blip_processor (Some p)));;;
           m <- load TrafficModelB (AutoModelForVision2Seq_from_pretrained W);;
           modify (set_models (set_traffic_blip_model (Some m)));;;
           lift (eval m))
          (fun _ =>
             modify (set_models (set_traffic_blip_processor None));;;
             modify (set_models (set_traffic_blip_model None)));;;
        gets (fun s => (traffic_blip_processor (_models s), traffic_blip_model (_models s)))
  end.

Definition init_ocr : M state (option Reader) :=
  cur <- gets (fun s => ocr_reader (_models s));;
  match cur with
  | None =>
      if negb (easyocr_imported W) then
        modify (set_models (set_ocr_reader None));;;
        ret None
      else
        try_except
          (r <- load OcrReaderB (easyocr_Reader W);;
           modify (set_models (set_ocr_reader (Some r))))
          (fun _ => modify (set_models (set_ocr_reader None)));;;
        gets (fun s => ocr_reader (_models s))
  | Some _ => gets (fun s => ocr_reader (_models s))
  end.

(** ** Core processing functions *)

(** [from PIL import Image; Image.open(image_path).convert('RGB')] *)
Definition Image_open_convert (image_path : string) : M state image :=
  match PIL_Image_open W with
  | None => raise (Exception "No module named 'PIL'")
  | Some open =>
      f <- gets (fun s => fs s !! image_path);;
      match f with
      | None => raise (Exception "FileNotFoundError")
      | Some b => lift (open b)
      end
  end.

(** [with torch.no_grad():] needs the module. *)
Definition torch_no_grad : M state unit :=
  if torch_blip_imported W then ret tt
  else raise (Exception "'NoneType' object has no attribute 'no_grad'").

(** [output[0]] *)
Definition index0 (output : list tensor) : M state tensor :=
  match output with
  | [] => raise (Exception "index 0 is out of bounds")
  | t :: _ => ret t
  end.

(** The body of the [try] shared by both captioning functions. *)
Definition blip_infer (pb mb : backend) (processor : Processor) (model : Model)
    (image_path : string) : M state (string * Q) :=
  image <- Image_open_convert image_path;;
  inputs <- invoke pb (processor_call processor image);;
  torch_no_grad;;;
  output <- invoke mb (generate model inputs);;
  ids <- index0 output;;
  caption <- invoke pb (decode processor ids);;
  ret (caption, 0.85%Q).

Definition generate_caption_from_image_path (image_path : string)
    : M state (string * Q) :=
  pm <- init_blip;;
  match pm with
  | (Some processor, Some model) =>
      try_except
        (blip_infer BlipProcessorB BlipModelB processor model image_path)
        (fun _ => ret (SAMPLE_CAPTION, 0.5%Q))
  | _ => ret (SAMPLE_CAPTION, 0.5%Q)
  end.

Definition generate_traffic_caption_from_image_path (image_path : string)
    : M state (string * Q) :=
  pm <- init_traffic_blip;;
  match pm with
  | (Some processor, Some model) =>
      try_except
        (blip_infer TrafficProcessorB TrafficModelB processor model image_path)
        (fun _ => ret (SAMPLE_CAPTION, 0.5%Q))
  | _ => ret (SAMPLE_CAPTION, 0.5%Q)
  end.

(** [reader.readtext(image_path)]: the reader opens the file itself. *)
Definition reader_readtext (reader : Reader) (image_path : string)
    : M state (list detection) :=
  fun s =>
    (match fs s !! image_path with
     | None => Raise (Exception "FileNotFoundError")
     | Some b => readtext reader b
     end, log (Invoke OcrReaderB) s).

Definition ocr_from_image_path (image_path : string) : M state (string * Q) :=
  reader <- init_ocr;;
  match reader with
  | None => ret (SAMPLE_OCR, 0.8%Q)
  | Some reader =>
      try_except
        (result <- reader_readtext reader image_path;;
         let text := join " " (map det_text result) in
         ret (if decide (text = EmptyString) then EmptyString else text, 0.9%Q))
        (fun _ => ret (EmptyString, 0.0%Q))
  end.

Definition translate_text (text target_lang : string) : M state string :=
  translator <- init_translator;;
  match translator with
  | None => ret text
  | Some translator =>
      try_except
        (invoke TranslatorB (translate translator text target_lang))
        (fun _ => ret text)
  end.

(** ** Flask endpoints *)

(** The upload picked by the [if 'image' in request.files ... elif
    'file' in request.files ... else] chain. *)
Definition pick_upload (req : request) : option FileStorage :=
  match files_get "image" (files req) with
  | Some u => Some u
  | None => files_get "file" (files req)
  end.

(** [try: os.remove(tmp)  except Exception: pass] *)
Definition remove_quietly (tmp : string) : M state unit :=
  try_except (os_remove tmp) (fun _ => ret tt).

Definition caption_help : response :=
  jsonify
    [("help", JStr "POST an image as multipart form-data ('image' or 'file') to receive a caption.");
     ("example", JObj [("curl", JStr ("curl -X POST -F " +:+ dq +:+ "image=@/path/photo.jpg"
                                       +:+ dq +:+ " http://localhost:5000/caption/en"))])].

Definition traffic_help : response :=
  jsonify
    [("help", JStr "POST an image as multipart form-data ('image' or 'file') to receive traffic-related information.");
     ("example", JObj [("curl", JStr ("curl -X POST -F " +:+ dq +:+ "image=@/path/photo.jpg"
                                       +:+ dq +:+ " http://localhost:5000/traffic"))])].

Definition ocr_help : response :=
  jsonify
    [("help", JStr "POST an image as multipart form-data ('image' or 'file') to receive OCR text.");
     ("example", JObj [("curl", JStr ("curl -X POST -F " +:+ dq +:+ "image=@/path/photo.jpg"
                                       +:+ dq +:+ " http://localhost:5000/ocr/en"))])].

Definition caption_endpoint (lang : string) (req : request) : M state response :=
  let target_lang := normalize_language lang in
  match req_method req with
  | GET => ret caption_help
  | POST =>
      match pick_upload req with
      | None => ret no_image_error
      | Some upload =>
          tmp <- save_upload_to_temp upload;;
          try_finally
            (cc <- generate_caption_from_image_path tmp;;
             translated <- translate_text (fst cc) target_lang;;
             ret (jsonify [("caption", JStr translated);
                           ("caption_en", JStr (fst cc));
                           ("confidence", JFloat (snd cc));
                           ("language", JStr target_lang)]))
            (remove_quietly tmp)
      end
  end.

Definition traffic_endpoint (req : request) : M state response :=
  match req_method req with
  | GET => ret traffic_help
  | POST =>
      match pick_upload req with
      | None => ret no_image_error
      | Some upload =>
          tmp <- save_upload_to_temp upload;;
          try_finally
            (cc <- generate_traffic_caption_from_image_path tmp;;
             ret (jsonify [("caption", JStr (fst cc));
                           ("caption_en", JStr (fst cc));
                           ("confidence", JFloat (snd cc));
                           ("language", JStr "en")]))
            (remove_quietly tmp)
      end
  end.

Definition ocr_endpoint (lang : string) (req : request) : M state response :=
  let target_lang := normalize_language lang in
  match req_method req with
  | GET => ret ocr_help
  | POST =>
      match pick_upload req with
      | None => ret no_image_error
      | Some upload =>
          tmp <- save_upload_to_temp upload;;
          try_finally
            (tc <- ocr_from_image_path tmp;;
             translated <- translate_text (fst tc) target_lang;;
             ret (jsonify [("text", JStr translated);
                           ("text_en", JStr (fst tc));
                           ("confidence", JFloat (snd tc));
                           ("language", JStr target_lang)]))
            (remove_quietly tmp)
      end
  end.

End WithWorld.

(** ** Concrete worlds and states *)

Definition no_models : models :=
  {| blip_processor := None; blip_model := None;
     traffic_blip_processor := None; traffic_blip_model := None;
     ocr_reader := None; translator := None |}.

(** A fresh process: nothing loaded, no files, nothing called. *)
Definition fresh_state : state :=
  {| _models := no_models; fs := ∅; trace := [] |}.

(** A machine with none of the optional libraries installed. *)
Definition bare_world : world :=
  {| torch_blip_imported := false;
     easyocr_imported := false;
     googletrans_imported := false;
     BlipProcessor_from_pretrained := fun _ => Raise (Exception "unreachable");
     BlipForConditionalGeneration_from_pretrained := fun _ => Raise (Exception "unreachable");
     AutoProcessor_from_pretrained := fun _ => Raise (Exception "unreachable");
     AutoModelForVision2Seq_from_pretrained := fun _ => Raise (Exception "unreachable");
     easyocr_Reader := fun _ => Raise (Exception "unreachable");
     Translator_new := fun _ => Raise (Exception "unreachable");
     PIL_Image_open := None;
     NamedTemporaryFile_name := fun _ suffix => "/tmp/tmpa1b2c3" +:+ suffix |}.

(** A reader that finds no text. *)
Definition blank_reader : Reader := {| readtext := fun _ => Ok [] |}.

(** EasyOCR is installed, but building the reader (which downloads its
    weights) fails the first time and works from then on. *)
Definition flaky_world : world :=
  {| torch_blip_imported := false;
     easyocr_imported := true;
     googletrans_imported := false;
     BlipProcessor_from_pretrained := fun _ => Raise (Exception "unreachable");
     BlipForConditionalGeneration_from_pretrained := fun _ => Raise (Exception "unreachable");
     AutoProcessor_from_pretrained := fun _ => Raise (Exception "unreachable");
     AutoModelForVision2Seq_from_pretrained := fun _ => Raise (Exception "unreachable");
     easyocr_Reader := fun n => match n with
                                | O => Raise (Exception "download failed")
                                | S _ => Ok blank_reader
                                end;
     Translator_new := fun _ => Raise (Exception "unreachable");
     PIL_Image_open := None;
     NamedTemporaryFile_name := fun _ suffix => "/tmp/tmpa1b2c3" +:+ suffix |}.

(** A translator that answers with the text tagged by the language
    it was asked for. *)
Definition tagging_translator : Translator :=
  {| translate := fun text dest => Ok ("[" +:+ dest +:+ "] " +:+ text) |}.

(** Only googletrans is installed. *)
Definition tagging_world : world :=
  {| torch_blip_imported := false;
     easyocr_imported := false;
     googletrans_imported := true;
     BlipProcessor_from_pretrained := fun _ => Raise (Exception "unreachable");
     BlipForConditionalGeneration_from_pretrained := fun _ => Raise (Exception "unreachable");
     AutoProcessor_from_pretrained := fun _ => Raise (Exception "unreachable");
     AutoModelForVision2Seq_from_pretrained := fun _ => Raise (Exception "unreachable");
     easyocr_Reader := fun _ => Raise (Exception "unreachable");
     Translator_new := fun _ => Ok tagging_translator;
     PIL_Image_open := None;
     NamedTemporaryFile_name := fun _ suffix => "/tmp/tmpa1b2c3" +:+ suffix |}.

(** A reader that was built but fails on every image. *)
Definition broken_reader : Reader :=
  {| readtext := fun _ => Raise (Exception "out of memory") |}.

(** A process that has [broken_reader] cached and one image on disk. *)
Definition broken_ocr_state : state :=
  {| _models := set_ocr_reader (Some broken_reader) no_models;
     fs := {[ "/tmp/frame.jpg" := [Byte.x01; Byte.x02] ]};
     trace := [Load OcrReaderB] |}.

(** A processor and a model that always answer. *)
Definition toy_processor : Processor :=
  {| processor_call := fun img => Ok img;
     decode := fun _ => Ok "a dog running" |}.

Definition toy_model : Model :=
  {| eval := Ok tt; generate := fun t => Ok [t] |}.

(** torch and transformers are installed and the weights load, but
    Pillow is missing, so every inference raises inside the [try]. *)
Definition no_pillow_world : world :=
  {| torch_blip_imported := true;
     easyocr_imported := false;
     googletrans_imported := false;
     BlipProcessor_from_pretrained := fun _ => Ok toy_processor;
     BlipForConditionalGeneration_from_pretrained := fun _ => Ok toy_model;
     AutoProcessor_from_pretrained := fun _ => Ok toy_processor;
     AutoModelForVision2Seq_from_pretrained := fun _ => Ok toy_model;
     easyocr_Reader := fun _ => Raise (Exception "unreachable");
     Translator_new := fun _ => Raise (Exception "unreachable");
     PIL_Image_open := None;
     NamedTemporaryFile_name := fun _ suffix => "/tmp/tmpa1b2c3" +:+ suffix |}.

(** A process in which both BLIP pairs are loaded. *)
Definition blip_ready_state : state :=
  {| _models :=
       {| blip_processor := Some toy_processor; blip_model := Some toy_model;
          traffic_blip_processor := Some toy_processor;
          traffic_blip_model := Some toy_model;
          ocr_reader := None; translator := None |};
     fs := {[ "/tmp/frame.jpg" := [Byte.x01; Byte.x02] ]};
     trace := [Load BlipProcessorB; Load BlipModelB;
               Load TrafficProcessorB; Load TrafficModelB] |}.

(** A form whose only part is named neither [image] nor [file]. *)
Definition post_photo_field : request :=
  {| req_method := POST;
     files := [("photo", {| filename := "photo.jpg"; content := [Byte.x01] |})] |}.

Definition post_image (name : string) : request :=
  {| req_method := POST;
     files := [("image", {| filename := name; content := [Byte.x01; Byte.x02] |})] |}.

End Server.

(** * The keyboard client: [client_RPI_serial.py] *)

Module SerialClient.
Local Open Scope py_scope.

(** What the script prints, one constructor per [print] statement that
    formats a value. *)
Inductive line : Type :=
| Line (s : string)
| ResponseFrom (endpoint : string) (text : json)
| UploadError (e : exn).

Record state : Type := mkState {
  server_base : string;
  current_endpoint : string;
  _stop : bool;
  released : bool;             (* [capture.release()] has run *)
  stdout : list line;
  posts : list string;         (* URL of every upload attempted *)
  spoken : list json;
  exit_code : option Z;        (* set by [os._exit] *)
}.

Definition print (l : line) : M state unit :=
  modify (fun s =>
    {| server_base := server_base s; current_endpoint := current_endpoint s;
       _stop := _stop s; released := released s;
       stdout := stdout s ++ [l]; posts := posts s; spoken := spoken s;
       exit_code := exit_code s |}).

Definition set_current_endpoint (e : string) : M state unit :=
  modify (fun s =>
    {| server_base := server_base s; current_endpoint := e;
       _stop := _stop s; released := released s;
       stdout := stdout s; posts := posts s; spoken := spoken s;
       exit_code := exit_code s |}).

Definition set_stop (b : bool) : M state unit :=
  modify (fun s =>
    {| server_base := server_base s; current_endpoint := current_endpoint s;
       _stop := b; released := released s;
       stdout := stdout s; posts := posts s; spoken := spoken s;
       exit_code := exit_code s |}).

(** [self.close()]: [capture.release()] with its exceptions swallowed. *)
Definition close : M state unit :=
  modify (fun s =>
    {| server_base := server_base s; current_endpoint := current_endpoint s;
       _stop := _stop s; released := true;
       stdout := stdout s; posts := posts s; spoken := spoken s;
       exit_code := exit_code s |}).

(** [os._exit(code)]: the process is gone; nothing of it runs after. *)
Definition os__exit (code : Z) : M state unit :=
  modify (fun s =>
    {| server_base := server_base s; current_endpoint := current_endpoint s;
       _stop := _stop s; released := released s;
       stdout := stdout s; posts := posts s; spoken := spoken s;
       exit_code := Some code |}).

(** [requests.post(url, files=..., timeout=30)] with its outcome [r]. *)
Definition requests_post (url : string) (r : res http_response) : M state http_response :=
  fun s =>
    (r, {| server_base := server_base s; current_endpoint := current_endpoint s;
           _stop := _stop s; released := released s;
           stdout := stdout s; posts := posts s ++ [url]; spoken := spoken s;
           exit_code := exit_code s |}).

(** [speak(str(text))]: every strategy is wrapped, nothing escapes. *)
Definition speak (text : json) : M state unit :=
  modify (fun s =>
    {| server_base := server_base s; current_endpoint := current_endpoint s;
       _stop := _stop s; released := released s;
       stdout := stdout s; posts := posts s; spoken := spoken s ++ [text];
       exit_code := exit_code s |}).

(** [data.get(...)] needs a dict. *)
Definition as_dict (data : json) : M state (list (string * json)) :=
  match data with
  | JObj d => ret d
  | _ => raise (Exception "object has no attribute 'get'")
  end.

(** One turn of the outer loop as seen from outside: what the camera
    returned, how the upload went, and the characters read during the
    wait that follows. *)
Record cycle : Type := {
  cam : option bytes;            (* [capture.read()]: a frame, or failure *)
  http : res http_response;      (* [Raise]: connection error or timeout *)
  keys : list string;
}.

(** [take_photo]: [False] when the read fails, else the frame is
    written to [photo_path]. *)
Definition take_photo (c : option bytes) : M state bool :=
  match c with
  | None => ret false
  | Some _ => ret true
  end.

Definition upload_and_speak (c : cycle) : M state unit :=
  url <- gets (fun s => server_base s +:+ current_endpoint s);;
  ok <- take_photo (cam c);;
  if negb ok then print (Line "Failed to capture")
  else
    try_except
      (resp <- requests_post url (http c);;
       lift (raise_for_status resp);;;
       data <- lift (json_body resp);;
       d <- as_dict data;;
       let text := py_or (py_or (py_or (py_get "caption" d) (py_get "text" d))
                                (py_get "result" d)) (py_get "message" d) in
       ep <- gets current_endpoint;;
       print (ResponseFrom ep text);;;
       if truthy text then speak text else ret tt)
      (fun e =>
         print (UploadError e);;;
         close;;;
         os__exit 1).

Definition _handle_key (ch : string) : M state unit :=
  if decide (ch = EmptyString) then ret tt
  else
    let ch := lower (strip ch) in
    if decide (ch = "q") then
      print (Line "Quitting...");;; set_stop true
    else if decide (ch = "1") then
      set_current_endpoint "/ocr/en";;; print (Line "Next upload -> /ocr/en")
    else if decide (ch = "2") then
      set_current_endpoint "/traffic";;; print (Line "Next upload -> /traffic")
    else if decide (ch = "3") then
      set_current_endpoint "/search";;; print (Line "Next upload -> /search")
    else print (Line "Unknown key").

(** The inner loop: keys are handled as they arrive until the interval
    ends or [_stop] is set. *)
Fixpoint wait_for_keys (ks : list string) : M state unit :=
  match ks with
  | [] => ret tt
  | ch :: ks' =>
      stop <- gets _stop;;
      if stop then ret tt
      else _handle_key ch;;; wait_for_keys ks'
  end.

(** [run_loop] over the cycles that happen; a process that has called
    [os._exit] takes no further step. *)
Fixpoint run_loop (cs : list cycle) : M state unit :=
  match cs with
  | [] => ret tt
  | c :: cs' =>
      stop <- gets _stop;;
      if stop then ret tt
      else
        upload_and_speak c;;;
        dead <- gets exit_code;;
        match dead with
        | Some _ => ret tt
        | None => wait_for_keys (keys c);;; run_loop cs'
        end
  end.

(** The [try ... finally] of [main], on the client that
    [SerialClient(server_base)] returned: the [finally] closes the
    camera unless the process has already exited.  The constructor call
    that [main] makes before its [try] is [SerialMore.__init__], and
    [SerialMore.main_entry] is [main] from its first line. *)
Definition main (cs : list cycle) : M state unit :=
  run_loop cs;;;
  dead <- gets exit_code;;
  match dead with
  | Some _ => ret tt
  | None => close
  end.

(** The client right after [SerialClient(server_base)]. *)
Definition init : state :=
  {| server_base := "http://specsserver.local";
     current_endpoint := "/caption/en";
     _stop := false; released := false;
     stdout := []; posts := []; spoken := [];
     exit_code := None |}.

End SerialClient.

(** * The desktop client: [client.py] *)

Module Client.
Local Open Scope py_scope.

Inductive line : Type :=
| Line (s : string)
| PressedD                                        (* the ['d' pressed ...] notice *)
| Uploading (url : string)
| ResponseFrom (endpoint : string) (caption : json)
| Error (e : exn).

Record state : Type := mkState {
  released : bool;             (* [capture.release()] has run *)
  stdout : list line;
  posts : list string;
  spoken : list json;
}.

Definition print (l : line) : M state unit :=
  modify (fun s =>
    {| released := released s; stdout := stdout s ++ [l];
       posts := posts s; spoken := spoken s |}).

Definition capture_release : M state unit :=
  modify (fun s =>
    {| released := true; stdout := stdout s;
       posts := posts s; spoken := spoken s |}).

(** One turn of [while True]: the key waiting in the console, if any
    ([Raise] when its bytes do not decode), the camera read, the
    outcome of the POST and whether [espeak] is installed.  Ctrl-C
    arrives either before the turn does anything ([CtrlC]) or during
    the pause that ends it ([TurnThenCtrlC]): [time.sleep(1)] after an
    answer and [time.sleep(0.5)] after a failed read are inside the
    [try]; [time.sleep(2)] after a failed upload is inside the
    [except Exception] handler. *)
Inductive turn : Type :=
| Turn (key : option (res string)) (cam : option bytes)
       (http : res http_response) (espeak : bool)
| CtrlC
| TurnThenCtrlC (key : option (res string)) (cam : option bytes)
       (http : res http_response) (espeak : bool).

Definition take_photo (c : option bytes) : M state bool :=
  match c with
  | None => ret false
  | Some _ => ret true
  end.

Definition upload_photo (server_url : string) (r : res http_response) : M state json :=
  print (Uploading server_url);;;
  response <- (fun s =>
    (r, {| released := released s; stdout := stdout s;
           posts := posts s ++ [server_url]; spoken := spoken s |}));;
  lift (raise_for_status response);;;
  lift (json_body response).

Definition speak_caption (caption : json) (espeak : bool) : M state unit :=
  print (Line "Speaking caption...");;;
  if espeak then
    modify (fun s =>
      {| released := released s; stdout := stdout s;
         posts := posts s; spoken := spoken s ++ [caption] |})
  else
    print (Line "espeak not found. Please install espeak or modify the speak_caption function to use another TTS engine.").

Definition user_pressed_d (msvcrt : bool) (key : option (res string)) : bool :=
  if negb msvcrt then false
  else match key with
       | Some (Ok k) => bool_decide (lower k = "d")
       | Some (Raise _) => false
       | None => false
       end.

Definition as_dict (data : json) : M state (list (string * json)) :=
  match data with
  | JObj d => ret d
  | _ => raise (Exception "object has no attribute 'get'")
  end.

Definition server_base : string := "http://specsserver.local".
Definition caption_endpoint : string := "/caption/en".
Definition ocr_endpoint : string := "/traffic".

(** The body of the inner [try] for one turn. *)
Definition turn_body (msvcrt : bool) (key : option (res string)) (cam : option bytes)
    (http : res http_response) (espeak : bool) : M state unit :=
  let endpoint := caption_endpoint in
  endpoint <- (if user_pressed_d msvcrt key
               then print PressedD;;; ret ocr_endpoint
               else ret endpoint);;
  ok <- take_photo cam;;
  if negb ok then print (Line "Warning: failed to capture frame")
  else
    let url := server_base +:+ endpoint in
    response <- upload_photo url http;;
    d <- as_dict response;;
    let caption := py_or (py_or (py_get "caption" d) (py_get "text" d))
                         (py_get "message" d) in
    print (ResponseFrom endpoint caption);;;
    if truthy caption then speak_caption caption espeak else ret tt.

(** A [KeyboardInterrupt] raised inside the [try] is caught by
    [except KeyboardInterrupt], which prints and leaves the loop; raised
    inside the [except Exception] handler it is caught by nothing in
    the loop and leaves it. *)
Fixpoint loop (msvcrt : bool) (ts : list turn) : M state unit :=
  match ts with
  | [] => ret tt
  | CtrlC :: _ => print (Line "Exiting client.")
  | Turn key cam http espeak :: ts' =>
      try_except (turn_body msvcrt key cam http espeak)
                 (fun e => print (Error e));;;
      loop msvcrt ts'
  | TurnThenCtrlC key cam http espeak :: _ =>
      in_try <- try_except (turn_body msvcrt key cam http espeak;;; ret true)
                           (fun e => print (Error e);;; ret false);;
      if in_try : bool then print (Line "Exiting client.")
      else raise (Exception "KeyboardInterrupt")
  end.

Definition main (msvcrt opened : bool) (ts : list turn) : M state unit :=
  print (Line "Client started. Press 'd' to send the next photo to /ocr/en. Press Ctrl-C to quit.");;;
  if negb opened then print (Line "Error: could not open camera (index 0)")
  else try_finally (loop msvcrt ts) (try_except capture_release (fun _ => ret tt)).

Definition init : state :=
  {| released := false; stdout := []; posts := []; spoken := [] |}.

End Client.

(** * The GPIO client: [client_RPI.py]

    Every call of a button's callback starts a thread running
    [capture_and_send]; the
    threads share the camera and [capture_lock].  A thread is a program
    counter over the statements of [capture_and_send], and a run is a
    schedule: which thread moves next, and what the outside answers. *)

Module RPIClient.

Inductive pc : Type :=
| Waiting                 (* before [with self.capture_lock:] *)
| Locked                  (* lock acquired, [take_photo] not yet entered *)
| Reading                 (* inside [take_photo]: read and imwrite *)
| ReadDone (ok : bool)    (* [take_photo] returned, still inside [with] *)
| Unlocked (ok : bool)    (* left the [with] block *)
| Uploading               (* inside [upload_photo] *)
| Speaking (text : json)  (* inside [speak] *)
| Done.

Record thread : Type := {
  endpoint : string;
  at_pc : pc;
}.

Inductive line : Type :=
| Line (s : string)
| ButtonPressed (channel : Z) (endpoint : string)
| Uploading_to (url : string)
| ResponseFrom (endpoint : string) (text : json)
| ErrorSending (url : string) (e : exn).

(** Entry and exit of the device access in [take_photo], by thread. *)
Inductive dev_event : Type :=
| ReadBegin (t : nat)
| ReadEnd (t : nat).

Record sys : Type := mkSys {
  threads : list thread;
  capture_lock : option nat;       (* the thread holding the lock *)
  device_log : list dev_event;
  stdout : list line;
  posts : list string;
  spoken : list json;
}.

Definition server_base : string := "http://specsserver.local".

(** The GPIO pin table of [setup_gpio]. *)
Definition mapping : list (Z * string) :=
  [(5, "/ocr/en"); (6, "/traffic"); (13, "/search")].

Fixpoint mapping_get (pin : Z) (m : list (Z * string)) : option string :=
  match m with
  | [] => None
  | (p, e) :: m' => if decide (p = pin) then Some e else mapping_get pin m'
  end.

(** [Press pin]: GPIO reports a falling edge on [pin] and calls the
    callback registered for it, if any.  Edges that GPIO drops (within
    the 300 ms of [bouncetime], or on a pin whose [add_event_detect]
    failed) call nothing and are not actions. *)
Inductive action : Type :=
| Press (pin : Z)
| Run (t : nat) (cam : option bytes) (http : res http_response).

Definition set_pc (t : nat) (p : pc) (σ : sys) : list thread :=
  match threads σ !! t with
  | Some th => <[t := {| endpoint := endpoint th; at_pc := p |}]> (threads σ)
  | None => threads σ
  end.

Definition text_of (d : list (string * json)) : json :=
  py_or (py_or (py_or (py_get "caption" d) (py_get "text" d))
               (py_get "result" d)) (py_get "message" d).

(** The outcome of [upload_photo] followed by the [.get] chain: the text
    to print, or the exception caught by [except Exception]. *)
Definition upload_outcome (r : res http_response) : res json :=
  match r with
  | Raise e => Raise e
  | Ok resp =>
      match raise_for_status resp with
      | Raise e => Raise e
      | Ok _ =>
          match json_body resp with
          | Raise e => Raise e
          | Ok (JObj d) => Ok (text_of d)
          | Ok _ => Raise (Exception "object has no attribute 'get'")
          end
      end
  end.

(** One statement of one thread.  A thread that waits for a held lock
    does not move. *)
Definition step (a : action) (σ : sys) : sys :=
  match a with
  | Press pin =>
      match mapping_get pin mapping with
      | None => σ
      | Some e =>
          {| threads := threads σ ++ [{| endpoint := e; at_pc := Waiting |}];
             capture_lock := capture_lock σ; device_log := device_log σ;
             stdout := stdout σ ++ [ButtonPressed pin e];
             posts := posts σ; spoken := spoken σ |}
      end
  | Run t cam http =>
      match threads σ !! t with
      | None => σ
      | Some th =>
          let url := server_base +:+ endpoint th in
          match at_pc th with
          | Waiting =>
              match capture_lock σ with
              | Some _ => σ
              | None =>
                  {| threads := set_pc t Locked σ; capture_lock := Some t;
                     device_log := device_log σ; stdout := stdout σ;
                     posts := posts σ; spoken := spoken σ |}
              end
          | Locked =>
              {| threads := set_pc t Reading σ; capture_lock := capture_lock σ;
                 device_log := device_log σ ++ [ReadBegin t]; stdout := stdout σ;
                 posts := posts σ; spoken := spoken σ |}
          | Reading =>
              {| threads := set_pc t (ReadDone (bool_decide (is_Some cam))) σ;
                 capture_lock := capture_lock σ;
                 device_log := device_log σ ++ [ReadEnd t]; stdout := stdout σ;
                 posts := posts σ; spoken := spoken σ |}
          | ReadDone ok =>
              {| threads := set_pc t (Unlocked ok) σ; capture_lock := None;
                 device_log := device_log σ; stdout := stdout σ;
                 posts := posts σ; spoken := spoken σ |}
          | Unlocked false =>
              {| threads := set_pc t Done σ; capture_lock := capture_lock σ;
                 device_log := device_log σ;
                 stdout := stdout σ ++ [Line "Failed to capture photo"];
                 posts := posts σ; spoken := spoken σ |}
          | Unlocked true =>
              {| threads := set_pc t Uploading σ; capture_lock := capture_lock σ;
                 device_log := device_log σ;
                 stdout := stdout σ ++ [Uploading_to url];
                 posts := posts σ ++ [url]; spoken := spoken σ |}
          | Uploading =>
              match upload_outcome http with
              | Ok text =>
                  {| threads := set_pc t (if truthy text then Speaking text else Done) σ;
                     capture_lock := capture_lock σ; device_log := device_log σ;
                     stdout := stdout σ ++ [ResponseFrom (endpoint th) text];
                     posts := posts σ; spoken := spoken σ |}
              | Raise e =>
                  {| threads := set_pc t Done σ;
                     capture_lock := capture_lock σ; device_log := device_log σ;
                     stdout := stdout σ ++ [ErrorSending url e];
                     posts := posts σ; spoken := spoken σ |}
              end
          | Speaking text =>
              {| threads := set_pc t Done σ; capture_lock := capture_lock σ;
                 device_log := device_log σ; stdout := stdout σ;
                 posts := posts σ; spoken := spoken σ ++ [text] |}
          | Done => σ
          end
      end
  end.

(** A run under a schedule, first action first. *)
Definition run (schedule : list action) (σ : sys) : sys :=
  foldl (fun σ a => step a σ) σ schedule.

(** After [RPICaptureClient(...)] and [setup_gpio]: no thread yet. *)
Definition init : sys :=
  {| threads := []; capture_lock := None; device_log := [];
     stdout := []; posts := []; spoken := [] |}.

(** Whether the statement at [p] is inside the [with] block. *)
Definition in_with (p : pc) : bool :=
  match p with
  | Locked | Reading | ReadDone _ => true
  | _ => false
  end.

(** A device log is serial when every [ReadBegin t] is directly followed
    by the [ReadEnd t] of the same thread (or is the last entry): the
    result is the thread inside [take_photo] at the end, if any. *)
Fixpoint scan (cur : option nat) (l : list dev_event) : option (option nat) :=
  match l with
  | [] => Some cur
  | ReadBegin t :: l' =>
      match cur with
      | None => scan (Some t) l'
      | Some _ => None
      end
  | ReadEnd t :: l' =>
      match cur with
      | Some t' => if decide (t' = t) then scan None l' else None
      | None => None
      end
  end.

Definition serial (l : list dev_event) : bool :=
  bool_decide (is_Some (scan None l)).

End RPIClient.

(** * The initialisers under threads

    [app.run] serves every request in a thread of its own, and the
    initialisers of [server.py] take no lock: two requests may be inside
    [init_ocr] at the same time.  A thread inside [init_ocr] is at one
    of its statements, and a run is a schedule of thread numbers, each
    letting that thread execute the statement it is at. *)

Module ServerThreads.
Import Server.

Inductive pc : Type :=
| AtTest                       (* [if _models["ocr_reader"] is None:] *)
| AtLoad                       (* [easyocr.Reader(["en"], gpu=False)] is about to be called *)
| AtStore (v : option Reader)  (* the call is over; the assignment of the [try], or
                                  of the [except] branch, comes next *)
| AtReturn                     (* [return _models["ocr_reader"]] *)
| Returned (v : option Reader).

Definition step (W : world) (t : nat) (σ : list pc * state) : list pc * state :=
  match σ.1 !! t with
  | None => σ
  | Some AtTest =>
      match ocr_reader (_models σ.2) with
      | Some _ => (<[t := AtReturn]> σ.1, σ.2)
      | None =>
          if negb (easyocr_imported W)
          then (<[t := Returned None]> σ.1, set_models (set_ocr_reader None) σ.2)
          else (<[t := AtLoad]> σ.1, σ.2)
      end
  | Some AtLoad =>
      match load OcrReaderB (easyocr_Reader W) σ.2 with
      | (Ok r, s) => (<[t := AtStore (Some r)]> σ.1, s)
      | (Raise _, s) => (<[t := AtStore None]> σ.1, s)
      end
  | Some (AtStore v) => (<[t := AtReturn]> σ.1, set_models (set_ocr_reader v) σ.2)
  | Some AtReturn => (<[t := Returned (ocr_reader (_models σ.2))]> σ.1, σ.2)
  | Some (Returned _) => σ
  end.

Definition run (W : world) (schedule : list nat) (σ : list pc * state)
    : list pc * state :=
  foldl (fun σ t => step W t σ) σ schedule.

(** Two calls that overlap: thread 0 tests the slot, then thread 1 runs
    its whole call, then thread 0 goes on. *)
Definition overlapped : list nat := [0; 1; 1; 1; 1; 0; 0; 0]%nat.

(** EasyOCR is installed; building the reader works the first time
    and fails from then on. *)
Definition late_failure_world : world :=
  {| torch_blip_imported := false;
     easyocr_imported := true;
     googletrans_imported := false;
     BlipProcessor_from_pretrained := fun _ => Raise (Exception "unreachable");
     BlipForConditionalGeneration_from_pretrained := fun _ => Raise (Exception "unreachable");
     AutoProcessor_from_pretrained := fun _ => Raise (Exception "unreachable");
     AutoModelForVision2Seq_from_pretrained := fun _ => Raise (Exception "unreachable");
     easyocr_Reader := fun n => match n with
                                | O => Ok blank_reader
                                | S _ => Raise (Exception "out of memory")
                                end;
     Translator_new := fun _ => Raise (Exception "unreachable");
     PIL_Image_open := None;
     NamedTemporaryFile_name := fun _ suffix => "/tmp/tmpa1b2c3" +:+ suffix |}.

End ServerThreads.

(** * Properties of the server *)

Module ServerFacts.
Import Server.
Local Open Scope py_scope.

Example splitext_jpg : splitext_ext "/a.b/photo.tar.jpg" = ".jpg".
Proof. reflexivity. Qed.

Example splitext_hidden : splitext_ext "dir/.bashrc" = EmptyString.
Proof. reflexivity. Qed.

Example normalize_english : normalize_language "English" = "en".
Proof. vm_compute. reflexivity. Qed.

Example normalize_unknown : normalize_language "FR" = "fr".
Proof. vm_compute. reflexivity. Qed.

Example ocr_bare :
  ocr_endpoint bare_world "en" (post_image "photo.jpg") fresh_state
  = (Ok (jsonify [("text", JStr SAMPLE_OCR); ("text_en", JStr SAMPLE_OCR);
                  ("confidence", JFloat 0.8%Q); ("language", JStr "en")]),
     fresh_state).
Proof. vm_compute. reflexivity. Qed.

(** ** What each initialiser computes *)

Section Init.
Variable W : world.

Lemma init_ocr_eq s :
  init_ocr W s =
  match ocr_reader (_models s) with
  | Some r => (Ok (Some r), s)
  | None =>
      if easyocr_imported W then
        match easyocr_Reader W (loads OcrReaderB (trace s)) with
        | Ok r => (Ok (Some r),
                   set_models (set_ocr_reader (Some r)) (log (Load OcrReaderB) s))
        | Raise _ => (Ok None,
                      set_models (set_ocr_reader None) (log (Load OcrReaderB) s))
        end
      else (Ok None, set_models (set_ocr_reader None) s)
  end.
Proof.
  unfold init_ocr, bind, gets, try_except, load, modify, ret.
  destruct s as [ms f t]; simpl.
  destruct (ocr_reader ms) eqn:E; simpl.
  - rewrite E. reflexivity.
  - destruct (easyocr_imported W); simpl; [|reflexivity].
    destruct (easyocr_Reader W (loads OcrReaderB t)); reflexivity.
Qed.

Lemma init_translator_eq s :
  init_translator W s =
  match translator (_models s) with
  | Some t => (Ok (Some t), s)
  | None =>
      if googletrans_imported W then
        match Translator_new W (loads TranslatorB (trace s)) with
        | Ok t => (Ok (Some t),
                   set_models (set_translator (Some t)) (log (Load TranslatorB) s))
        | Raise _ => (Ok None,
                      set_models (set_translator None) (log (Load TranslatorB) s))
        end
      else (Ok None, set_models (set_translator None) s)
  end.
Proof.
  unfold init_translator, bind, gets, try_except, load, modify, ret.
  destruct s as [ms f t]; simpl.
  destruct (translator ms) eqn:E; simpl.
  - rewrite E. reflexivity.
  - destruct (googletrans_imported W); simpl; [|reflexivity].
    destruct (Translator_new W (loads TranslatorB t)); reflexivity.
Qed.

(** The state in which a failed or skipped BLIP initialisation leaves
    the two slots. *)
Definition clear_blip (s : state) : state :=
  set_models (set_blip_model None) (set_models (set_blip_processor None) s).

Definition clear_traffic_blip (s : state) : state :=
  set_models (set_traffic_blip_model None)
    (set_models (set_traffic_blip_processor None) s).

(** The [try] block of [init_blip] as a function of the attempt. *)
Definition blip_attempt (s : state) : res (Processor * Model) * state :=
  let s1 := log (Load BlipProcessorB) s in
  match BlipProcessor_from_pretrained W (loads BlipProcessorB (trace s)) with
  | Raise e => (Raise e, s1)
  | Ok p =>
      let s2 := log (Load BlipModelB) (set_models (set_blip_processor (Some p)) s1) in
      match BlipForConditionalGeneration_from_pretrained W
              (loads BlipModelB (trace s1)) with
      | Raise e => (Raise e, s2)
      | Ok m =>
          let s3 := set_models (set_blip_model (Some m)) s2 in
          match eval m with
          | Raise e => (Raise e, s3)
          | Ok _ => (Ok (p, m), s3)
          end
      end
  end.

Lemma init_blip_eq s :
  init_blip W s =
  match blip_model (_models s), blip_processor (_models s) with
  | Some m, Some p => (Ok (Some p, Some m), s)
  | _, _ =>
      if torch_blip_imported W then
        match blip_attempt s with
        | (Ok (p, m), s') => (Ok (Some p, Some m), s')
        | (Raise _, s') => (Ok (None, None), clear_blip s')
        end
      else (Ok (None, None), clear_blip s)
  end.
Proof.
  unfold init_blip, blip_attempt, clear_blip, bind, gets, try_except, load,
    modify, ret, lift.
  destruct s as [ms f t]; simpl.
  destruct (blip_model ms) eqn:Em, (blip_processor ms) eqn:Ep; simpl;
    try (rewrite Em, Ep; reflexivity);
    (destruct (torch_blip_imported W); simpl; [|reflexivity]);
    (destruct (BlipProcessor_from_pretrained W _); simpl; [|reflexivity]);
    (destruct (BlipForConditionalGeneration_from_pretrained W _) as [m'|];
       simpl; [|reflexivity]);
    destruct (eval m') as [[]|]; reflexivity.
Qed.

Definition traffic_blip_attempt (s : state) : res (Processor * Model) * state :=
  let s1 := log (Load TrafficProcessorB) s in
  match AutoProcessor_from_pretrained W (loads TrafficProcessorB (trace s)) with
  | Raise e => (Raise e, s1)
  | Ok p =>
      let s2 := log (Load TrafficModelB)
                  (set_models (set_traffic_blip_processor (Some p)) s1) in
      match AutoModelForVision2Seq_from_pretrained W
              (loads TrafficModelB (trace s1)) with
      | Raise e => (Raise e, s2)
      | Ok m =>
          let s3 := set_models (set_traffic_blip_model (Some m)) s2 in
          match eval m with
          | Raise e => (Raise e, s3)
          | Ok _ => (Ok (p, m), s3)
          end
      end
  end.

Lemma init_traffic_blip_eq s :
  init_traffic_blip W s =
  match traffic_blip_model (_models s), traffic_blip_processor (_models s) with
  | Some m, Some p => (Ok (Some p, Some m), s)
  | _, _ =>
      if torch_blip_imported W then
        match traffic_blip_attempt s with
        | (Ok (p, m), s') => (Ok (Some p, Some m), s')
        | (Raise _, s') => (Ok (None, None), clear_traffic_blip s')
        end
      else (Ok (None, None), clear_traffic_blip s)
  end.
Proof.
  unfold init_traffic_blip, traffic_blip_attempt, clear_traffic_blip, bind, gets,
    try_except, load, modify, ret, lift.
  destruct s as [ms f t]; simpl.
  destruct (traffic_blip_model ms) eqn:Em, (traffic_blip_processor ms) eqn:Ep; simpl;
    try (rewrite Em, Ep; reflexivity);
    (destruct (torch_blip_imported W); simpl; [|reflexivity]);
    (destruct (AutoProcessor_from_pretrained W _); simpl; [|reflexivity]);
    (destruct (AutoModelForVision2Seq_from_pretrained W _) as [m'|];
       simpl; [|reflexivity]);
    destruct (eval m') as [[]|]; reflexivity.
Qed.

End Init.

(** ** Initialisation and the cache (C1) *)

(** The no-retry policy as the specification words it, for the OCR
    backend: once a first call has completed, a second call returns the
    same result and leaves the state, hence the trace, as it was. *)
Definition ocr_initialised_at_most_once (W : world) (s : state) : Prop :=
  init_ocr W (snd (init_ocr W s)) = (fst (init_ocr W s), snd (init_ocr W s)).

(** C1, counterexample: a reader whose construction fails once is built
    again by the next call, which then returns a reader instead of the
    earlier [None]. *)
Lemma init_ocr_retries_after_failure :
  ~ ocr_initialised_at_most_once flaky_world fresh_state.
Proof. unfold ocr_initialised_at_most_once. vm_compute. discriminate. Qed.

Example init_ocr_flaky_twice :
  fst (init_ocr flaky_world fresh_state) = Ok None /\
  fst (init_ocr flaky_world (snd (init_ocr flaky_world fresh_state)))
    = Ok (Some blank_reader) /\
  trace (snd (init_ocr flaky_world (snd (init_ocr flaky_world fresh_state))))
    = [Load OcrReaderB; Load OcrReaderB].
Proof. vm_compute. auto. Qed.

Section Cache.
Variable W : world.

Lemma init_ocr_cache s :
  match init_ocr W s with
  | (Ok (Some r), s1) => init_ocr W s1 = (Ok (Some r), s1)
  | (Ok None, s1) =>
      ocr_reader (_models s1) = None /\
      trace (snd (init_ocr W s1))
        = trace s1 ++ (if easyocr_imported W then [Load OcrReaderB] else [])
  | (Raise _, _) => False
  end.
Proof.
  rewrite init_ocr_eq.
  destruct (ocr_reader (_models s)) eqn:E.
  - rewrite init_ocr_eq, E. reflexivity.
  - destruct (easyocr_imported W) eqn:Ei.
    + destruct (easyocr_Reader W _).
      * rewrite init_ocr_eq. reflexivity.
      * split; [reflexivity|]. rewrite init_ocr_eq; simpl. rewrite Ei.
        destruct (easyocr_Reader W _); reflexivity.
    + split; [reflexivity|]. rewrite init_ocr_eq; simpl. rewrite Ei; simpl.
      symmetry; apply app_nil_r.
Qed.

Lemma init_translator_cache s :
  match init_translator W s with
  | (Ok (Some t), s1) => init_translator W s1 = (Ok (Some t), s1)
  | (Ok None, s1) =>
      translator (_models s1) = None /\
      trace (snd (init_translator W s1))
        = trace s1 ++ (if googletrans_imported W then [Load TranslatorB] else [])
  | (Raise _, _) => False
  end.
Proof.
  rewrite init_translator_eq.
  destruct (translator (_models s)) eqn:E.
  - rewrite init_translator_eq, E. reflexivity.
  - destruct (googletrans_imported W) eqn:Ei.
    + destruct (Translator_new W _).
      * rewrite init_translator_eq. reflexivity.
      * split; [reflexivity|]. rewrite init_translator_eq; simpl. rewrite Ei.
        destruct (Translator_new W _); reflexivity.
    + split; [reflexivity|]. rewrite init_translator_eq; simpl. rewrite Ei; simpl.
      symmetry; apply app_nil_r.
Qed.

Lemma blip_attempt_trace s :
  exists t, trace (snd (blip_attempt W s)) = trace s ++ Load BlipProcessorB :: t.
Proof.
  unfold blip_attempt.
  destruct (BlipProcessor_from_pretrained W _); [|by exists []].
  destruct (BlipForConditionalGeneration_from_pretrained W _) as [m|]; simpl.
  - exists [Load BlipModelB].
    destruct (eval m); simpl; by rewrite <- app_assoc.
  - exists [Load BlipModelB]. by rewrite <- app_assoc.
Qed.

Lemma blip_attempt_ok s p m s1 :
  blip_attempt W s = (Ok (p, m), s1) ->
  blip_processor (_models s1) = Some p /\ blip_model (_models s1) = Some m.
Proof.
  unfold blip_attempt.
  destruct (BlipProcessor_from_pretrained W _); [|discriminate].
  destruct (BlipForConditionalGeneration_from_pretrained W _) as [m'|]; [|discriminate].
  destruct (eval m'); [|discriminate].
  intros [= <- <- <-]. split; reflexivity.
Qed.

Lemma init_blip_cleared s :
  blip_processor (_models s) = None -> blip_model (_models s) = None ->
  if torch_blip_imported W
  then exists t, trace (snd (init_blip W s)) = trace s ++ Load BlipProcessorB :: t
  else trace (snd (init_blip W s)) = trace s.
Proof.
  intros Hp Hm. rewrite init_blip_eq, Hp, Hm.
  destruct (torch_blip_imported W); [|reflexivity].
  destruct (blip_attempt_trace s) as [t Ht].
  exists t. destruct (blip_attempt W s) as [[[p m]|e] s']; exact Ht.
Qed.

Lemma init_blip_cache s :
  match init_blip W s with
  | (Ok (Some p, Some m), s1) => init_blip W s1 = (Ok (Some p, Some m), s1)
  | (Ok _, s1) =>
      blip_processor (_models s1) = None /\ blip_model (_models s1) = None /\
      if torch_blip_imported W
      then exists t, trace (snd (init_blip W s1)) = trace s1 ++ Load BlipProcessorB :: t
      else trace (snd (init_blip W s1)) = trace s1
  | (Raise _, _) => False
  end.
Proof.
  revert s.
  assert (Hclr : forall s0 : state,
    blip_processor (_models (clear_blip s0)) = None /\
    blip_model (_models (clear_blip s0)) = None /\
    if torch_blip_imported W
    then exists t, trace (snd (init_blip W (clear_blip s0)))
                   = trace (clear_blip s0) ++ Load BlipProcessorB :: t
    else trace (snd (init_blip W (clear_blip s0))) = trace (clear_blip s0)).
  { intros s0. split; [reflexivity|]. split; [reflexivity|].
    apply init_blip_cleared; reflexivity. }
  intros s. rewrite init_blip_eq.
  destruct (blip_model (_models s)) as [m|] eqn:Em;
    destruct (blip_processor (_models s)) as [p|] eqn:Ep;
    try (rewrite init_blip_eq, Em, Ep; reflexivity);
    (destruct (torch_blip_imported W) eqn:Ei; [|exact (Hclr s)]);
    (destruct (blip_attempt W s) as [[[p' m']|e] s'] eqn:Ea; [|exact (Hclr s')]);
    apply blip_attempt_ok in Ea as [Hp' Hm'];
    rewrite init_blip_eq, Hp', Hm'; reflexivity.
Qed.

Lemma traffic_blip_attempt_trace s :
  exists t, trace (snd (traffic_blip_attempt W s)) = trace s ++ Load TrafficProcessorB :: t.
Proof.
  unfold traffic_blip_attempt.
  destruct (AutoProcessor_from_pretrained W _); [|by exists []].
  destruct (AutoModelForVision2Seq_from_pretrained W _) as [m|]; simpl.
  - exists [Load TrafficModelB].
    destruct (eval m); simpl; by rewrite <- app_assoc.
  - exists [Load TrafficModelB]. by rewrite <- app_assoc.
Qed.

Lemma traffic_blip_attempt_ok s p m s1 :
  traffic_blip_attempt W s = (Ok (p, m), s1) ->
  traffic_blip_processor (_models s1) = Some p /\ traffic_blip_model (_models s1) = Some m.
Proof.
  unfold traffic_blip_attempt.
  destruct (AutoProcessor_from_pretrained W _); [|discriminate].
  destruct (AutoModelForVision2Seq_from_pretrained W _) as [m'|]; [|discriminate].
  destruct (eval m'); [|discriminate].
  intros [= <- <- <-]. split; reflexivity.
Qed.

Lemma init_traffic_blip_cleared s :
  traffic_blip_processor (_models s) = None -> traffic_blip_model (_models s) = None ->
  if torch_blip_imported W
  then exists t, trace (snd (init_traffic_blip W s)) = trace s ++ Load TrafficProcessorB :: t
  else trace (snd (init_traffic_blip W s)) = trace s.
Proof.
  intros Hp Hm. rewrite init_traffic_blip_eq, Hp, Hm.
  destruct (torch_blip_imported W); [|reflexivity].
  destruct (traffic_blip_attempt_trace s) as [t Ht].
  exists t. destruct (traffic_blip_attempt W s) as [[[p m]|e] s']; exact Ht.
Qed.

Lemma init_traffic_blip_cache s :
  match init_traffic_blip W s with
  | (Ok (Some p, Some m), s1) => init_traffic_blip W s1 = (Ok (Some p, Some m), s1)
  | (Ok _, s1) =>
      traffic_blip_processor (_models s1) = None /\ traffic_blip_model (_models s1) = None /\
      if torch_blip_imported W
      then exists t, trace (snd (init_traffic_blip W s1)) = trace s1 ++ Load TrafficProcessorB :: t
      else trace (snd (init_traffic_blip W s1)) = trace s1
  | (Raise _, _) => False
  end.
Proof.
  revert s.
  assert (Hclr : forall s0 : state,
    traffic_blip_processor (_models (clear_traffic_blip s0)) = None /\
    traffic_blip_model (_models (clear_traffic_blip s0)) = None /\
    if torch_blip_imported W
    then exists t, trace (snd (init_traffic_blip W (clear_traffic_blip s0)))
                   = trace (clear_traffic_blip s0) ++ Load TrafficProcessorB :: t
    else trace (snd (init_traffic_blip W (clear_traffic_blip s0))) = trace (clear_traffic_blip s0)).
  { intros s0. split; [reflexivity|]. split; [reflexivity|].
    apply init_traffic_blip_cleared; reflexivity. }
  intros s. rewrite init_traffic_blip_eq.
  destruct (traffic_blip_model (_models s)) as [m|] eqn:Em;
    destruct (traffic_blip_processor (_models s)) as [p|] eqn:Ep;
    try (rewrite init_traffic_blip_eq, Em, Ep; reflexivity);
    (destruct (torch_blip_imported W) eqn:Ei; [|exact (Hclr s)]);
    (destruct (traffic_blip_attempt W s) as [[[p' m']|e] s'] eqn:Ea; [|exact (Hclr s')]);
    apply traffic_blip_attempt_ok in Ea as [Hp' Hm'];
    rewrite init_traffic_blip_eq, Hp', Hm'; reflexivity.
Qed.

End Cache.

(** ** Calls of [init_ocr] that overlap *)

Lemma threads_run_cons (W : world) t l σ :
  ServerThreads.run W (t :: l) σ = ServerThreads.run W l (ServerThreads.step W t σ).
Proof. reflexivity. Qed.

Lemma threads_step_eq (W : world) t ths s :
  ServerThreads.step W t (ths, s) =
  match ths !! t with
  | None => (ths, s)
  | Some ServerThreads.AtTest =>
      match ocr_reader (_models s) with
      | Some _ => (<[t := ServerThreads.AtReturn]> ths, s)
      | None =>
          if negb (easyocr_imported W)
          then (<[t := ServerThreads.Returned None]> ths,
                set_models (set_ocr_reader None) s)
          else (<[t := ServerThreads.AtLoad]> ths, s)
      end
  | Some ServerThreads.AtLoad =>
      match easyocr_Reader W (loads OcrReaderB (trace s)) with
      | Ok r => (<[t := ServerThreads.AtStore (Some r)]> ths, log (Load OcrReaderB) s)
      | Raise _ => (<[t := ServerThreads.AtStore None]> ths, log (Load OcrReaderB) s)
      end
  | Some (ServerThreads.AtStore v) =>
      (<[t := ServerThreads.AtReturn]> ths, set_models (set_ocr_reader v) s)
  | Some ServerThreads.AtReturn =>
      (<[t := ServerThreads.Returned (ocr_reader (_models s))]> ths, s)
  | Some (ServerThreads.Returned _) => (ths, s)
  end.
Proof.
  unfold ServerThreads.step, load. cbn [fst snd].
  destruct (ths !! t) as [[]|]; reflexivity.
Qed.

(** One statement of one thread, on a concrete list of threads. *)
Ltac thread_step :=
  rewrite threads_run_cons, threads_step_eq;
  cbn [lookup list_lookup insert list_insert _models trace ocr_reader set_models
       set_ocr_reader log negb].

(** A thread that runs its four statements without another thread in
    between does what [init_ocr] does. *)
Lemma init_ocr_alone (W : world) (s : state) :
  exists v,
    init_ocr W s
    = (Ok v, snd (ServerThreads.run W [0; 0; 0; 0]%nat ([ServerThreads.AtTest], s))) /\
    fst (ServerThreads.run W [0; 0; 0; 0]%nat ([ServerThreads.AtTest], s))
    = [ServerThreads.Returned v].
Proof.
  pose proof (init_ocr_eq W s) as E.
  destruct s as [ms f tr]. cbn [_models trace] in E.
  destruct (ocr_reader ms) as [r|] eqn:Hr.
  - exists (Some r). rewrite E.
    thread_step. rewrite Hr. thread_step. rewrite Hr. do 2 thread_step. done.
  - destruct (easyocr_imported W) eqn:Hi.
    + destruct (easyocr_Reader W (loads OcrReaderB tr)) as [r|e] eqn:Hl.
      * exists (Some r). rewrite E.
        thread_step. rewrite Hr, Hi. cbn [negb].
        thread_step. rewrite Hl. do 2 thread_step. done.
      * exists None. rewrite E.
        thread_step. rewrite Hr, Hi. cbn [negb].
        thread_step. rewrite Hl. do 2 thread_step. done.
    + exists None. rewrite E.
      thread_step. rewrite Hr, Hi. cbn [negb]. do 3 thread_step. done.
Qed.

(** When two calls overlap as in [ServerThreads.overlapped] and the
    load of the call that tested first fails while the other's
    succeeded, the reader that the other call cached and returned is
    replaced by [None]. *)
Lemma overlapping_init_ocr_evicts (W : world) (s : state) (r : Reader) (e : exn) :
  ocr_reader (_models s) = None ->
  easyocr_imported W = true ->
  easyocr_Reader W (loads OcrReaderB (trace s)) = Ok r ->
  easyocr_Reader W (S (loads OcrReaderB (trace s))) = Raise e ->
  fst (ServerThreads.run W ServerThreads.overlapped
         ([ServerThreads.AtTest; ServerThreads.AtTest], s))
  = [ServerThreads.Returned None; ServerThreads.Returned (Some r)] /\
  ocr_reader (_models (snd (ServerThreads.run W ServerThreads.overlapped
                              ([ServerThreads.AtTest; ServerThreads.AtTest], s))))
  = None.
Proof.
  intros Hs Hi H0 H1.
  assert (Hl : loads OcrReaderB (trace s ++ [Load OcrReaderB])
               = S (loads OcrReaderB (trace s))).
  { unfold loads. rewrite filter_app, length_app.
    cbn. rewrite decide_True by done. cbn. lia. }
  destruct s as [ms f tr]. cbn [_models trace] in *.
  unfold ServerThreads.overlapped.
  thread_step. rewrite Hs, Hi. cbn [negb].
  thread_step. rewrite Hs, Hi. cbn [negb].
  thread_step. rewrite H0.
  do 2 thread_step.
  thread_step. rewrite Hl, H1.
  do 2 thread_step.
  done.
Qed.
(** C1, amended.  For calls of an initialiser that run one after
    another: a call that produced a working capability leaves it cached,
    and a further call made in the state it left returns that
    capability and changes nothing, neither the state nor the trace, so
    nothing is loaded again.  A call that failed records nothing that
    tells it from a first call: the slot stays [None], and the next
    call runs the loader again whenever the library was importable.  No
    initialiser raises.  Calls that overlap are not protected: when a
    call of [init_ocr] has tested the empty slot, a second call then
    loads, caches and returns a reader, and the load of the first call
    fails, the first call stores [None] over the cached reader. *)
Theorem init_cached_only_after_success (W : world) (s : state) :
  match init_blip W s with
  | (Ok (Some p, Some m), s1) => init_blip W s1 = (Ok (Some p, Some m), s1)
  | (Ok _, s1) =>
      blip_processor (_models s1) = None /\ blip_model (_models s1) = None /\
      if torch_blip_imported W
      then exists t, trace (snd (init_blip W s1)) = trace s1 ++ Load BlipProcessorB :: t
      else trace (snd (init_blip W s1)) = trace s1
  | (Raise _, _) => False
  end /\
  match init_traffic_blip W s with
  | (Ok (Some p, Some m), s1) => init_traffic_blip W s1 = (Ok (Some p, Some m), s1)
  | (Ok _, s1) =>
      traffic_blip_processor (_models s1) = None /\
      traffic_blip_model (_models s1) = None /\
      if torch_blip_imported W
      then exists t, trace (snd (init_traffic_blip W s1))
                     = trace s1 ++ Load TrafficProcessorB :: t
      else trace (snd (init_traffic_blip W s1)) = trace s1
  | (Raise _, _) => False
  end /\
  match init_ocr W s with
  | (Ok (Some r), s1) => init_ocr W s1 = (Ok (Some r), s1)
  | (Ok None, s1) =>
      ocr_reader (_models s1) = None /\
      trace (snd (init_ocr W s1))
        = trace s1 ++ (if easyocr_imported W then [Load OcrReaderB] else [])
  | (Raise _, _) => False
  end /\
  match init_translator W s with
  | (Ok (Some t), s1) => init_translator W s1 = (Ok (Some t), s1)
  | (Ok None, s1) =>
      translator (_models s1) = None /\
      trace (snd (init_translator W s1))
        = trace s1 ++ (if googletrans_imported W then [Load TranslatorB] else [])
  | (Raise _, _) => False
  end /\
  (forall r e,
     ocr_reader (_models s) = None ->
     easyocr_imported W = true ->
     easyocr_Reader W (loads OcrReaderB (trace s)) = Ok r ->
     easyocr_Reader W (S (loads OcrReaderB (trace s))) = Raise e ->
     fst (ServerThreads.run W ServerThreads.overlapped
            ([ServerThreads.AtTest; ServerThreads.AtTest], s))
     = [ServerThreads.Returned None; ServerThreads.Returned (Some r)] /\
     ocr_reader (_models (snd (ServerThreads.run W ServerThreads.overlapped
                                 ([ServerThreads.AtTest; ServerThreads.AtTest], s))))
     = None).
Proof.
  split; [|split; [|split; [|split]]].
  - apply init_blip_cache.
  - apply init_traffic_blip_cache.
  - apply init_ocr_cache.
  - apply init_translator_cache.
  - apply overlapping_init_ocr_evicts.
Qed.

(** The overlap on a machine where the reader can be built once: the
    second call has returned the reader, and the cache is empty again. *)
Lemma init_cached_only_after_success_witness :
  fst (ServerThreads.run ServerThreads.late_failure_world ServerThreads.overlapped
         ([ServerThreads.AtTest; ServerThreads.AtTest], fresh_state))
  = [ServerThreads.Returned None; ServerThreads.Returned (Some blank_reader)] /\
  ocr_reader (_models (snd (ServerThreads.run ServerThreads.late_failure_world
                              ServerThreads.overlapped
                              ([ServerThreads.AtTest; ServerThreads.AtTest], fresh_state))))
  = None.
Proof.
  pose proof (init_cached_only_after_success ServerThreads.late_failure_world fresh_state)
    as (_ & _ & _ & _ & H).
  exact (H blank_reader (Exception "out of memory") eq_refl eq_refl eq_refl eq_refl).
Defined.


(** ** The pipelines: what they return and what they leave alone *)

Section Pipelines.
Variable W : world.

Lemma init_ocr_frame s : fs (snd (init_ocr W s)) = fs s.
Proof. rewrite init_ocr_eq. repeat case_match; reflexivity. Qed.

Lemma init_translator_frame s : fs (snd (init_translator W s)) = fs s.
Proof. rewrite init_translator_eq. repeat case_match; reflexivity. Qed.

Lemma init_blip_frame s : fs (snd (init_blip W s)) = fs s.
Proof.
  rewrite init_blip_eq. unfold blip_attempt.
  repeat case_match; simplify_eq; reflexivity.
Qed.

Lemma init_traffic_blip_frame s : fs (snd (init_traffic_blip W s)) = fs s.
Proof.
  rewrite init_traffic_blip_eq. unfold traffic_blip_attempt.
  repeat case_match; simplify_eq; reflexivity.
Qed.

(** The inference body only appends to the trace. *)
Lemma blip_infer_frame pb mb p m image_path s :
  _models (snd (blip_infer W pb mb p m image_path s)) = _models s /\
  fs (snd (blip_infer W pb mb p m image_path s)) = fs s.
Proof.
  unfold blip_infer, Image_open_convert, torch_no_grad, index0, bind, gets,
    raise, lift, invoke, ret.
  repeat case_match; simplify_eq; simpl; auto.
Qed.

Lemma translate_text_eq text lang s :
  translate_text W text lang s =
  match init_translator W s with
  | (Ok None, s1) => (Ok text, s1)
  | (Ok (Some tr), s1) =>
      match translate tr text lang with
      | Ok t' => (Ok t', log (Invoke TranslatorB) s1)
      | Raise _ => (Ok text, log (Invoke TranslatorB) s1)
      end
  | (Raise e, s1) => (Raise e, s1)
  end.
Proof.
  unfold translate_text, bind, try_except, invoke, ret.
  destruct (init_translator W s) as [[[tr|]|e] s1]; reflexivity.
Qed.

Lemma ocr_from_image_path_eq image_path s :
  ocr_from_image_path W image_path s =
  match init_ocr W s with
  | (Ok None, s1) => (Ok (SAMPLE_OCR, 0.8%Q), s1)
  | (Ok (Some r), s1) =>
      match reader_readtext r image_path s1 with
      | (Ok result, s2) =>
          let text := join " " (map det_text result) in
          (Ok (if decide (text = EmptyString) then EmptyString else text, 0.9%Q), s2)
      | (Raise _, s2) => (Ok (EmptyString, 0.0%Q), s2)
      end
  | (Raise e, s1) => (Raise e, s1)
  end.
Proof.
  unfold ocr_from_image_path, bind, try_except, ret.
  destruct (init_ocr W s) as [[[r|]|e] s1]; try reflexivity.
  destruct (reader_readtext r image_path s1) as [[result|e] s2]; reflexivity.
Qed.

Lemma generate_caption_from_image_path_eq image_path s :
  generate_caption_from_image_path W image_path s =
  match init_blip W s with
  | (Ok (Some p, Some m), s1) =>
      match blip_infer W BlipProcessorB BlipModelB p m image_path s1 with
      | (Ok cc, s2) => (Ok cc, s2)
      | (Raise _, s2) => (Ok (SAMPLE_CAPTION, 0.5%Q), s2)
      end
  | (Ok _, s1) => (Ok (SAMPLE_CAPTION, 0.5%Q), s1)
  | (Raise e, s1) => (Raise e, s1)
  end.
Proof.
  unfold generate_caption_from_image_path, bind, try_except, ret.
  destruct (init_blip W s) as [[[[p|] [m|]]|e] s1]; reflexivity.
Qed.

Lemma generate_traffic_caption_from_image_path_eq image_path s :
  generate_traffic_caption_from_image_path W image_path s =
  match init_traffic_blip W s with
  | (Ok (Some p, Some m), s1) =>
      match blip_infer W TrafficProcessorB TrafficModelB p m image_path s1 with
      | (Ok cc, s2) => (Ok cc, s2)
      | (Raise _, s2) => (Ok (SAMPLE_CAPTION, 0.5%Q), s2)
      end
  | (Ok _, s1) => (Ok (SAMPLE_CAPTION, 0.5%Q), s1)
  | (Raise e, s1) => (Raise e, s1)
  end.
Proof.
  unfold generate_traffic_caption_from_image_path, bind, try_except, ret.
  destruct (init_traffic_blip W s) as [[[[p|] [m|]]|e] s1]; reflexivity.
Qed.

(** No pipeline raises, and none touches the files. *)
Lemma translate_text_ok text lang s :
  exists t s', translate_text W text lang s = (Ok t, s') /\ fs s' = fs s.
Proof.
  rewrite translate_text_eq.
  pose proof (init_translator_cache W s) as Hc.
  pose proof (init_translator_frame s) as Hf.
  destruct (init_translator W s) as [[[tr|]|e] s1]; simpl in *; [| |done].
  - destruct (translate tr text lang); eauto.
  - eauto.
Qed.

Lemma ocr_from_image_path_ok image_path s :
  exists tc s', ocr_from_image_path W image_path s = (Ok tc, s') /\ fs s' = fs s.
Proof.
  rewrite ocr_from_image_path_eq.
  pose proof (init_ocr_cache W s) as Hc.
  pose proof (init_ocr_frame s) as Hf.
  destruct (init_ocr W s) as [[[r|]|e] s1]; simpl in *; [| |done].
  - unfold reader_readtext. repeat case_match; simplify_eq; eauto.
  - eauto.
Qed.

Lemma generate_caption_from_image_path_ok image_path s :
  exists cc s', generate_caption_from_image_path W image_path s = (Ok cc, s')
                /\ fs s' = fs s.
Proof.
  rewrite generate_caption_from_image_path_eq.
  pose proof (init_blip_cache W s) as Hc.
  pose proof (init_blip_frame s) as Hf.
  destruct (init_blip W s) as [[[[p|] [m|]]|e] s1]; simpl in *; [|eauto..|done].
  destruct (blip_infer_frame BlipProcessorB BlipModelB p m image_path s1) as [_ Hb].
  destruct (blip_infer W _ _ p m image_path s1) as [[cc|e] s2]; simpl in *;
    eexists _, _; (split; [reflexivity|congruence]).
Qed.

Lemma generate_traffic_caption_from_image_path_ok image_path s :
  exists cc s', generate_traffic_caption_from_image_path W image_path s = (Ok cc, s')
                /\ fs s' = fs s.
Proof.
  rewrite generate_traffic_caption_from_image_path_eq.
  pose proof (init_traffic_blip_cache W s) as Hc.
  pose proof (init_traffic_blip_frame s) as Hf.
  destruct (init_traffic_blip W s) as [[[[p|] [m|]]|e] s1]; simpl in *; [|eauto..|done].
  destruct (blip_infer_frame TrafficProcessorB TrafficModelB p m image_path s1) as [_ Hb].
  destruct (blip_infer W _ _ p m image_path s1) as [[cc|e] s2]; simpl in *;
    eexists _, _; (split; [reflexivity|congruence]).
Qed.

(** ** The endpoints on a POST that carries an upload *)

Definition tmp_name (upload : FileStorage) (s : state) : string :=
  NamedTemporaryFile_name W (fs s) (upload_suffix upload).

Definition saved (upload : FileStorage) (s : state) : state :=
  set_fs (insert (tmp_name upload s) (content upload))
    (set_fs (insert (tmp_name upload s) []) s).

Lemma save_upload_to_temp_eq upload s :
  save_upload_to_temp W upload s = (Ok (tmp_name upload s), saved upload s).
Proof. reflexivity. Qed.

Lemma saved_lookup upload s :
  fs (saved upload s) !! tmp_name upload s = Some (content upload).
Proof. unfold saved; simpl. apply lookup_insert_eq. Qed.

Lemma saved_delete upload s :
  delete (tmp_name upload s) (fs (saved upload s)) = delete (tmp_name upload s) (fs s).
Proof. unfold saved; simpl. by rewrite !delete_insert_eq. Qed.

Lemma remove_quietly_present tmp c s :
  fs s !! tmp = Some c -> remove_quietly tmp s = (Ok tt, set_fs (delete tmp) s).
Proof.
  intros H. unfold remove_quietly, try_except, os_remove. by rewrite H.
Qed.

(** The finaliser of a [try ... finally] runs in the state the body
    ended in, whether the body returned or raised. *)
Lemma try_finally_runs {A} (m : M state A) (f : M state unit) s :
  snd (try_finally m f s) = snd (f (snd (m s))).
Proof.
  unfold try_finally. destruct (m s) as [r s1]; simpl.
  destruct (f s1) as [[[]|e] s2]; reflexivity.
Qed.

Lemma caption_endpoint_post lang req upload s :
  req_method req = POST -> pick_upload req = Some upload ->
  exists cc s1 translated s2,
    generate_caption_from_image_path W (tmp_name upload s) (saved upload s)
      = (Ok cc, s1) /\
    translate_text W (fst cc) (normalize_language lang) s1 = (Ok translated, s2) /\
    fs s2 = fs (saved upload s) /\
    caption_endpoint W lang req s
      = (Ok (jsonify [("caption", JStr translated);
                      ("caption_en", JStr (fst cc));
                      ("confidence", JFloat (snd cc));
                      ("language", JStr (normalize_language lang))]),
         set_fs (delete (tmp_name upload s)) s2).
Proof.
  intros Hm Hu.
  destruct (generate_caption_from_image_path_ok (tmp_name upload s) (saved upload s))
    as (cc & s1 & Hc & Hf1).
  destruct (translate_text_ok (fst cc) (normalize_language lang) s1)
    as (translated & s2 & Ht & Hf2).
  exists cc, s1, translated, s2.
  assert (Hf : fs s2 = fs (saved upload s)) by congruence.
  repeat split; try assumption.
  unfold caption_endpoint. rewrite Hm, Hu.
  unfold bind at 1. rewrite save_upload_to_temp_eq.
  unfold try_finally, bind. rewrite Hc, Ht. unfold ret.
  rewrite (remove_quietly_present _ (content upload)); [reflexivity|].
  rewrite Hf. apply saved_lookup.
Qed.

Lemma traffic_endpoint_post req upload s :
  req_method req = POST -> pick_upload req = Some upload ->
  exists cc s1,
    generate_traffic_caption_from_image_path W (tmp_name upload s) (saved upload s)
      = (Ok cc, s1) /\
    fs s1 = fs (saved upload s) /\
    traffic_endpoint W req s
      = (Ok (jsonify [("caption", JStr (fst cc));
                      ("caption_en", JStr (fst cc));
                      ("confidence", JFloat (snd cc));
                      ("language", JStr "en")]),
         set_fs (delete (tmp_name upload s)) s1).
Proof.
  intros Hm Hu.
  destruct (generate_traffic_caption_from_image_path_ok (tmp_name upload s)
              (saved upload s)) as (cc & s1 & Hc & Hf1).
  exists cc, s1. repeat split; try assumption.
  unfold traffic_endpoint. rewrite Hm, Hu.
  unfold bind at 1. rewrite save_upload_to_temp_eq.
  unfold try_finally, bind. rewrite Hc. unfold ret.
  rewrite (remove_quietly_present _ (content upload)); [reflexivity|].
  rewrite Hf1. apply saved_lookup.
Qed.

Lemma ocr_endpoint_post lang req upload s :
  req_method req = POST -> pick_upload req = Some upload ->
  exists tc s1 translated s2,
    ocr_from_image_path W (tmp_name upload s) (saved upload s) = (Ok tc, s1) /\
    translate_text W (fst tc) (normalize_language lang) s1 = (Ok translated, s2) /\
    fs s2 = fs (saved upload s) /\
    ocr_endpoint W lang req s
      = (Ok (jsonify [("text", JStr translated);
                      ("text_en", JStr (fst tc));
                      ("confidence", JFloat (snd tc));
                      ("language", JStr (normalize_language lang))]),
         set_fs (delete (tmp_name upload s)) s2).
Proof.
  intros Hm Hu.
  destruct (ocr_from_image_path_ok (tmp_name upload s) (saved upload s))
    as (tc & s1 & Hc & Hf1).
  destruct (translate_text_ok (fst tc) (normalize_language lang) s1)
    as (translated & s2 & Ht & Hf2).
  exists tc, s1, translated, s2.
  assert (Hf : fs s2 = fs (saved upload s)) by congruence.
  repeat split; try assumption.
  unfold ocr_endpoint. rewrite Hm, Hu.
  unfold bind at 1. rewrite save_upload_to_temp_eq.
  unfold try_finally, bind. rewrite Hc, Ht. unfold ret.
  rewrite (remove_quietly_present _ (content upload)); [reflexivity|].
  rewrite Hf. apply saved_lookup.
Qed.

End Pipelines.

(** ** Requests without a payload (C7) *)

Lemma files_get_None k (l : list (string * FileStorage)) :
  k ∉ l.*1 -> files_get k l = None.
Proof.
  induction l as [|[k' v] l IH]; simpl; [done|].
  intros Hk. apply not_elem_of_cons in Hk as [Hne Hk].
  destruct (decide (k' = k)); [congruence|auto].
Qed.

(** C7: a POST whose form has neither an [image] nor a [file] part is
    answered, on each of the three routes, with status 400 and the fixed
    message; the state is returned as it was, so nothing was loaded
    (no [Load]), nothing was called (no [Invoke]) and no file written. *)
Theorem missing_payload_is_rejected (W : world) (lang : string)
    (req : request) (s : state) :
  req_method req = POST ->
  "image" ∉ (files req).*1 ->
  "file" ∉ (files req).*1 ->
  let bad_request :=
    {| status := 400%nat;
       body := JObj [("error",
                      JStr "No image provided. Use multipart form 'image' or 'file'.")] |} in
  caption_endpoint W lang req s = (Ok bad_request, s) /\
  traffic_endpoint W req s = (Ok bad_request, s) /\
  ocr_endpoint W lang req s = (Ok bad_request, s).
Proof.
  intros Hm Hi Hf bad_request.
  assert (Hp : pick_upload req = None).
  { unfold pick_upload. by rewrite !files_get_None. }
  unfold caption_endpoint, traffic_endpoint, ocr_endpoint.
  rewrite Hm, Hp. repeat split; reflexivity.
Qed.

Lemma missing_payload_is_rejected_witness :
  caption_endpoint bare_world "en" post_photo_field fresh_state
    = (Ok no_image_error, fresh_state) /\
  traffic_endpoint bare_world post_photo_field fresh_state
    = (Ok no_image_error, fresh_state) /\
  ocr_endpoint bare_world "en" post_photo_field fresh_state
    = (Ok no_image_error, fresh_state).
Proof.
  apply (missing_payload_is_rejected bare_world "en" post_photo_field fresh_state).
  - reflexivity.
  - rewrite list_elem_of_In. simpl. intros [H|[]]. discriminate H.
  - rewrite list_elem_of_In. simpl. intros [H|[]]. discriminate H.
Defined.

(** ** Translation (C5) *)

(** The identity on English as the specification words it. *)
Definition translate_is_identity_on_en (W : world) (s : state) (text : string) : Prop :=
  fst (translate_text W text "en" s) = Ok text.

(** C5, counterexample: [translate_text] has no test on the language;
    with a translator at hand the text goes through it for ["en"] as for
    any other language, and what comes back is the translator's answer. *)
Lemma translate_text_en_calls_translator :
  ~ translate_is_identity_on_en tagging_world fresh_state "hello".
Proof. unfold translate_is_identity_on_en. vm_compute. discriminate. Qed.

Example translate_text_en_tagged :
  fst (translate_text tagging_world "hello" "en" fresh_state) = Ok "[en] hello" /\
  trace (snd (translate_text tagging_world "hello" "en" fresh_state))
    = [Load TranslatorB; Invoke TranslatorB].
Proof. vm_compute. auto. Qed.

(** C5, amended: [translate_text] never raises.  It returns the text
    unchanged when no translator can be had (the library is missing or
    its constructor raises) and when the call to the translator raises.
    Otherwise, whatever the language, ["en"] included, it returns what
    the translator answered. *)
Theorem translate_text_falls_back (W : world) (text lang : string) (s : state) :
  (exists t s', translate_text W text lang s = (Ok t, s')) /\
  (forall s1, init_translator W s = (Ok None, s1) ->
     translate_text W text lang s = (Ok text, s1)) /\
  (forall tr s1 e, init_translator W s = (Ok (Some tr), s1) ->
     translate tr text lang = Raise e ->
     translate_text W text lang s = (Ok text, log (Invoke TranslatorB) s1)) /\
  (forall tr s1 t, init_translator W s = (Ok (Some tr), s1) ->
     translate tr text lang = Ok t ->
     translate_text W text lang s = (Ok t, log (Invoke TranslatorB) s1)).
Proof.
  split.
  { destruct (translate_text_ok W text lang s) as (t & s' & H & _). eauto. }
  rewrite translate_text_eq.
  repeat split.
  - intros s1 ->. reflexivity.
  - intros tr s1 e -> ->. reflexivity.
  - intros tr s1 t -> ->. reflexivity.
Qed.

(** A translator whose every call times out. *)
Definition timeout_translator : Translator :=
  {| translate := fun _ _ => Raise (Exception "timed out") |}.

Definition timeout_state : state :=
  {| _models := set_translator (Some timeout_translator) no_models;
     fs := ∅; trace := [Load TranslatorB] |}.

Lemma translate_text_falls_back_witness :
  translate_text bare_world "hello" "hi" fresh_state
    = (Ok "hello", set_models (set_translator None) fresh_state) /\
  translate_text bare_world "hello" "hi" timeout_state
    = (Ok "hello", log (Invoke TranslatorB) timeout_state).
Proof.
  split.
  - exact (proj1 (proj2 (translate_text_falls_back bare_world "hello" "hi" fresh_state))
             _ eq_refl).
  - exact (proj1 (proj2 (proj2
             (translate_text_falls_back bare_world "hello" "hi" timeout_state)))
             timeout_translator _ (Exception "timed out") eq_refl eq_refl).
Defined.

(** ** Failures at call time (C2) *)

(** The degradation rule as the specification words it, for OCR: when
    the cached reader raises, the result is that of the unavailable
    case. *)
Definition ocr_call_failure_gives_sentinel (W : world) (s : state)
    (image_path : string) : Prop :=
  forall r e,
    ocr_reader (_models s) = Some r ->
    fst (reader_readtext r image_path s) = Raise e ->
    fst (ocr_from_image_path W image_path s) = Ok (SAMPLE_OCR, 0.8%Q).

(** C2, counterexample: when the cached reader raises,
    [ocr_from_image_path] answers with the empty text at confidence 0.0,
    not with the sample text at 0.8 of the unavailable case. *)
Lemma ocr_call_failure_is_not_sentinel :
  ~ ocr_call_failure_gives_sentinel flaky_world broken_ocr_state "/tmp/frame.jpg".
Proof.
  intros H.
  specialize (H broken_reader (Exception "out of memory") eq_refl eq_refl).
  vm_compute in H. discriminate H.
Qed.

Example ocr_call_failure_result :
  fst (ocr_from_image_path flaky_world "/tmp/frame.jpg" broken_ocr_state)
    = Ok (EmptyString, 0.0%Q).
Proof. vm_compute. reflexivity. Qed.

(** C2, amended: when the capability is cached and its invocation raises,
    both captioning pipelines return the sample caption at 0.5, which is
    their result in the unavailable case, while the OCR pipeline returns
    the empty text at 0.0.  In all three the cached models are those of
    before the call. *)
Theorem call_time_failure_degrades (W : world) (s : state) (image_path : string) :
  (forall p m e s',
     blip_processor (_models s) = Some p -> blip_model (_models s) = Some m ->
     blip_infer W BlipProcessorB BlipModelB p m image_path s = (Raise e, s') ->
     generate_caption_from_image_path W image_path s
       = (Ok (SAMPLE_CAPTION, 0.5%Q), s') /\
     _models s' = _models s) /\
  (forall p m e s',
     traffic_blip_processor (_models s) = Some p ->
     traffic_blip_model (_models s) = Some m ->
     blip_infer W TrafficProcessorB TrafficModelB p m image_path s = (Raise e, s') ->
     generate_traffic_caption_from_image_path W image_path s
       = (Ok (SAMPLE_CAPTION, 0.5%Q), s') /\
     _models s' = _models s) /\
  (forall r e s',
     ocr_reader (_models s) = Some r ->
     reader_readtext r image_path s = (Raise e, s') ->
     ocr_from_image_path W image_path s = (Ok (EmptyString, 0.0%Q), s') /\
     _models s' = _models s).
Proof.
  split; [|split].
  - intros p m e s' Hp Hm Hi. split.
    + rewrite generate_caption_from_image_path_eq, init_blip_eq, Hp, Hm, Hi.
      reflexivity.
    + pose proof (blip_infer_frame W BlipProcessorB BlipModelB p m image_path s)
        as [Hms _].
      by rewrite Hi in Hms.
  - intros p m e s' Hp Hm Hi. split.
    + rewrite generate_traffic_caption_from_image_path_eq, init_traffic_blip_eq,
        Hp, Hm, Hi.
      reflexivity.
    + pose proof (blip_infer_frame W TrafficProcessorB TrafficModelB p m image_path s)
        as [Hms _].
      by rewrite Hi in Hms.
  - intros r e s' Hr Hi. split.
    + rewrite ocr_from_image_path_eq, init_ocr_eq, Hr, Hi. reflexivity.
    + unfold reader_readtext in Hi. by simplify_eq.
Qed.

Lemma call_time_failure_degrades_witness :
  fst (generate_caption_from_image_path no_pillow_world "/tmp/frame.jpg" blip_ready_state)
    = Ok (SAMPLE_CAPTION, 0.5%Q) /\
  fst (generate_traffic_caption_from_image_path no_pillow_world "/tmp/frame.jpg"
         blip_ready_state)
    = Ok (SAMPLE_CAPTION, 0.5%Q) /\
  fst (ocr_from_image_path flaky_world "/tmp/frame.jpg" broken_ocr_state)
    = Ok (EmptyString, 0.0%Q).
Proof.
  pose proof (call_time_failure_degrades no_pillow_world blip_ready_state
                "/tmp/frame.jpg") as (Hc & Ht & _).
  pose proof (call_time_failure_degrades flaky_world broken_ocr_state
                "/tmp/frame.jpg") as (_ & _ & Ho).
  split; [|split].
  - destruct (Hc toy_processor toy_model (Exception "No module named 'PIL'")
                blip_ready_state eq_refl eq_refl eq_refl) as [-> _].
    reflexivity.
  - destruct (Ht toy_processor toy_model (Exception "No module named 'PIL'")
                blip_ready_state eq_refl eq_refl eq_refl) as [-> _].
    reflexivity.
  - destruct (Ho broken_reader (Exception "out of memory")
                (log (Invoke OcrReaderB) broken_ocr_state) eq_refl eq_refl) as [-> _].
    reflexivity.
Defined.

(** ** The unavailable case (C6) *)

Section Unavailable.
Variable W : world.

Lemma loads_snoc_ne b b' t : b <> b' -> loads b (t ++ [Load b']) = loads b t.
Proof.
  intros Hne. unfold loads. rewrite filter_app, length_app.
  rewrite filter_cons_False, filter_nil; [simpl; lia|congruence].
Qed.

Lemma init_ocr_fst_congr s s' :
  ocr_reader (_models s) = ocr_reader (_models s') ->
  loads OcrReaderB (trace s) = loads OcrReaderB (trace s') ->
  fst (init_ocr W s) = fst (init_ocr W s').
Proof.
  intros Hr Hl. rewrite !init_ocr_eq, Hr, Hl. repeat case_match; reflexivity.
Qed.

Lemma init_translator_fst_congr s s' :
  translator (_models s) = translator (_models s') ->
  loads TranslatorB (trace s) = loads TranslatorB (trace s') ->
  fst (init_translator W s) = fst (init_translator W s').
Proof.
  intros Hr Hl. rewrite !init_translator_eq, Hr, Hl. repeat case_match; reflexivity.
Qed.

Lemma init_ocr_keeps_translator s :
  translator (_models (snd (init_ocr W s))) = translator (_models s) /\
  loads TranslatorB (trace (snd (init_ocr W s))) = loads TranslatorB (trace s).
Proof.
  rewrite init_ocr_eq.
  repeat case_match; simpl; (split; [reflexivity|]);
    try reflexivity; by apply loads_snoc_ne.
Qed.

(** What [translate_text] returns, read off the translator that
    [init_translator] hands out. *)
Definition translation (o : res (option Translator)) (text lang : string) : string :=
  match o with
  | Ok (Some tr) =>
      match translate tr text lang with
      | Ok t => t
      | Raise _ => text
      end
  | _ => text
  end.

Lemma translate_text_translation text lang s :
  fst (translate_text W text lang s) = Ok (translation (fst (init_translator W s)) text lang).
Proof.
  rewrite translate_text_eq.
  pose proof (init_translator_cache W s) as Hc.
  destruct (init_translator W s) as [[[tr|]|e] s1]; simpl in *; [| |done].
  - destruct (translate tr text lang); reflexivity.
  - reflexivity.
Qed.

Lemma ocr_endpoint_unavailable req upload s :
  req_method req = POST -> pick_upload req = Some upload ->
  fst (init_ocr W s) = Ok None ->
  fst (ocr_endpoint W "en" req s)
  = Ok (jsonify [("text", JStr (translation (fst (init_translator W s)) SAMPLE_OCR "en"));
                 ("text_en", JStr SAMPLE_OCR);
                 ("confidence", JFloat 0.8%Q);
                 ("language", JStr "en")]).
Proof.
  intros Hm Hu Hocr.
  destruct (ocr_endpoint_post W "en" req upload s Hm Hu)
    as (tc & s1 & translated & s2 & Hc & Ht & _ & ->).
  assert (Hs : fst (init_ocr W (saved W upload s)) = Ok None).
  { rewrite <- Hocr. apply init_ocr_fst_congr; reflexivity. }
  rewrite ocr_from_image_path_eq in Hc.
  pose proof (init_ocr_keeps_translator (saved W upload s)) as [Hk1 Hk2].
  destruct (init_ocr W (saved W upload s)) as [[[r|]|e] s1'];
    simpl in Hs; simplify_eq.
  pose proof (translate_text_translation (SAMPLE_OCR, 0.8%Q).1
                (normalize_language "en") s1) as Htt.
  rewrite Ht in Htt. simpl in Htt. simplify_eq.
  simpl. do 5 f_equal.
  change (normalize_language "en") with "en".
  f_equal. apply init_translator_fst_congr; assumption.
Qed.

End Unavailable.

(** The example of the specification: the body a POST to [/ocr/en]
    would get when the OCR backend is unavailable. *)
Definition ocr_en_sentinel_response : response :=
  jsonify [("text", JStr SAMPLE_OCR); ("text_en", JStr SAMPLE_OCR);
           ("confidence", JFloat 0.8%Q); ("language", JStr "en")].

(** C6, counterexample: with EasyOCR missing but googletrans at hand,
    the [text] field of [/ocr/en] is what the translator made of the
    sample text, not the sample text. *)
Lemma ocr_en_text_goes_through_translator :
  fst (init_ocr tagging_world fresh_state) = Ok None /\
  fst (ocr_endpoint tagging_world "en" (post_image "photo.jpg") fresh_state)
    <> Ok ocr_en_sentinel_response.
Proof. split; [reflexivity|]. vm_compute. discriminate. Qed.

(** C6, amended: for every image path, a pipeline whose initialiser
    yields no capability returns its fixed sample text at its fixed
    confidence: the sample caption at 0.5 for both captioners, the
    sample OCR text at 0.8 for OCR.  A POST to [/ocr/en] with the OCR
    backend unavailable yields [text_en] equal to the sample OCR text,
    confidence 0.8 and language ["en"]; its [text] is what
    [translate_text] makes of the sample text for ["en"], which is the
    sample text itself when no translator can be had or when the
    translator's call raises. *)
Theorem unavailable_backend_gives_sentinel (W : world) (s : state)
    (image_path : string) :
  (forall r s1, init_blip W s = (Ok r, s1) -> fst r = None \/ snd r = None ->
     generate_caption_from_image_path W image_path s
       = (Ok (SAMPLE_CAPTION, 0.5%Q), s1)) /\
  (forall r s1, init_traffic_blip W s = (Ok r, s1) -> fst r = None \/ snd r = None ->
     generate_traffic_caption_from_image_path W image_path s
       = (Ok (SAMPLE_CAPTION, 0.5%Q), s1)) /\
  (forall s1, init_ocr W s = (Ok None, s1) ->
     ocr_from_image_path W image_path s = (Ok (SAMPLE_OCR, 0.8%Q), s1)) /\
  (forall req upload,
     req_method req = POST -> pick_upload req = Some upload ->
     fst (init_ocr W s) = Ok None ->
     exists text,
       fst (ocr_endpoint W "en" req s)
       = Ok (jsonify [("text", JStr text); ("text_en", JStr SAMPLE_OCR);
                      ("confidence", JFloat 0.8%Q); ("language", JStr "en")]) /\
       (fst (init_translator W s) = Ok None -> text = SAMPLE_OCR) /\
       (forall tr, fst (init_translator W s) = Ok (Some tr) ->
          text = match translate tr SAMPLE_OCR "en" with
                 | Ok t => t
                 | Raise _ => SAMPLE_OCR
                 end)).
Proof.
  split; [|split; [|split]].
  - intros [p m] s1 Hi Hn. rewrite generate_caption_from_image_path_eq, Hi.
    destruct p, m; simpl in Hn; try reflexivity. by destruct Hn.
  - intros [p m] s1 Hi Hn. rewrite generate_traffic_caption_from_image_path_eq, Hi.
    destruct p, m; simpl in Hn; try reflexivity. by destruct Hn.
  - intros s1 Hi. rewrite ocr_from_image_path_eq, Hi. reflexivity.
  - intros req upload Hm Hu Hocr.
    exists (translation (fst (init_translator W s)) SAMPLE_OCR "en").
    split; [by apply (ocr_endpoint_unavailable W req upload)|].
    split.
    + intros ->. reflexivity.
    + intros tr ->. reflexivity.
Qed.

Lemma unavailable_backend_gives_sentinel_witness :
  generate_caption_from_image_path bare_world "/tmp/frame.jpg" fresh_state
    = (Ok (SAMPLE_CAPTION, 0.5%Q), fresh_state) /\
  ocr_from_image_path bare_world "/tmp/frame.jpg" fresh_state
    = (Ok (SAMPLE_OCR, 0.8%Q), fresh_state) /\
  exists text,
    fst (ocr_endpoint bare_world "en" (post_image "photo.jpg") fresh_state)
    = Ok (jsonify [("text", JStr text); ("text_en", JStr SAMPLE_OCR);
                   ("confidence", JFloat 0.8%Q); ("language", JStr "en")]) /\
    text = SAMPLE_OCR.
Proof.
  pose proof (unavailable_backend_gives_sentinel bare_world fresh_state
                "/tmp/frame.jpg") as (Hc & _ & Ho & He).
  split; [|split].
  - exact (Hc (None, None) fresh_state eq_refl (or_introl eq_refl)).
  - exact (Ho fresh_state eq_refl).
  - destruct (He (post_image "photo.jpg")
                {| filename := "photo.jpg"; content := [Byte.x01; Byte.x02] |}
                eq_refl eq_refl eq_refl) as (text & Hr & Hn & _).
    exists text. split; [exact Hr|exact (Hn eq_refl)].
Defined.

(** ** Language normalisation and the caption route (C8) *)

(** Normalisation as the specification words it: lowercase, then the
    alias table, with the lowercased string itself for unknown names. *)
Definition normalizes_by_alias_table (lang : string) : Prop :=
  normalize_language lang = default (lower lang) (LANGUAGE_ALIASES !! lower lang).

(** The guard at the head of [normalize_language] turns the empty
    string into ["en"] instead of looking it up.  No route can pass the
    empty string on: [normalize_language] is only called by
    [caption_endpoint] and [ocr_endpoint] with the [<lang>] part of the
    URL, and a URL variable never matches an empty segment. *)
Lemma normalize_language_empty_is_en :
  ~ normalizes_by_alias_table EmptyString.
Proof. unfold normalizes_by_alias_table. vm_compute. discriminate. Qed.



Example caption_hindi_healthy :
  let W := {| torch_blip_imported := true;
              easyocr_imported := false;
              googletrans_imported := true;
              BlipProcessor_from_pretrained := fun _ => Ok toy_processor;
              BlipForConditionalGeneration_from_pretrained := fun _ => Ok toy_model;
              AutoProcessor_from_pretrained := fun _ => Ok toy_processor;
              AutoModelForVision2Seq_from_pretrained := fun _ => Ok toy_model;
              easyocr_Reader := fun _ => Raise (Exception "unreachable");
              Translator_new := fun _ => Ok tagging_translator;
              PIL_Image_open := Some (fun _ => Ok [0; 0; 0]);
              NamedTemporaryFile_name := fun _ suffix => "/tmp/tmpa1b2c3" +:+ suffix |} in
  fst (caption_endpoint W "hindi" (post_image "photo.jpg") fresh_state)
  = Ok (jsonify [("caption", JStr "[hi] a dog running");
                 ("caption_en", JStr "a dog running");
                 ("confidence", JFloat 0.85%Q);
                 ("language", JStr "hi")]).
Proof. vm_compute. reflexivity. Qed.

(** ** Temporary files (C10) *)

(** C10: on a POST that carries an upload, each of the three handlers
    returns normally, and in the state it returns the temporary file
    that held the upload is gone: the files are those of before the
    request, minus that name.  This holds for every world, so also when
    a loader, the captioner, the reader or the translator raises. *)
Theorem temp_file_removed (W : world) (lang : string) (req : request)
    (upload : FileStorage) (s : state) :
  req_method req = POST ->
  pick_upload req = Some upload ->
  let tmp := tmp_name W upload s in
  (exists r s', caption_endpoint W lang req s = (Ok r, s') /\
                fs s' !! tmp = None /\ fs s' = delete tmp (fs s)) /\
  (exists r s', traffic_endpoint W req s = (Ok r, s') /\
                fs s' !! tmp = None /\ fs s' = delete tmp (fs s)) /\
  (exists r s', ocr_endpoint W lang req s = (Ok r, s') /\
                fs s' !! tmp = None /\ fs s' = delete tmp (fs s)).
Proof.
  intros Hm Hu tmp. repeat split.
  - destruct (caption_endpoint_post W lang req upload s Hm Hu)
      as (cc & s1 & tr & s2 & _ & _ & Hf & ->).
    eexists _, _. split; [reflexivity|]. simpl. rewrite Hf.
    split; [apply lookup_delete_eq|apply saved_delete].
  - destruct (traffic_endpoint_post W req upload s Hm Hu)
      as (cc & s1 & _ & Hf & ->).
    eexists _, _. split; [reflexivity|]. simpl. rewrite Hf.
    split; [apply lookup_delete_eq|apply saved_delete].
  - destruct (ocr_endpoint_post W lang req upload s Hm Hu)
      as (cc & s1 & tr & s2 & _ & _ & Hf & ->).
    eexists _, _. split; [reflexivity|]. simpl. rewrite Hf.
    split; [apply lookup_delete_eq|apply saved_delete].
Qed.

Lemma temp_file_removed_witness :
  exists r s',
    caption_endpoint no_pillow_world "hindi" (post_image "photo.jpg") fresh_state
      = (Ok r, s') /\
    fs s' !! "/tmp/tmpa1b2c3.jpg" = None /\
    fs s' = delete "/tmp/tmpa1b2c3.jpg" (fs fresh_state).
Proof.
  exact (proj1 (temp_file_removed no_pillow_world "hindi" (post_image "photo.jpg")
                  {| filename := "photo.jpg"; content := [Byte.x01; Byte.x02] |}
                  fresh_state eq_refl eq_refl)).
Defined.

Example temp_file_present_while_processing :
  fs (saved no_pillow_world {| filename := "photo.jpg"; content := [Byte.x01] |}
        fresh_state) !! "/tmp/tmpa1b2c3.jpg" = Some [Byte.x01].
Proof. vm_compute. reflexivity. Qed.

End ServerFacts.

(** * Properties of the clients *)

(** ** The keyboard client *)

Module SerialFacts.
Import SerialClient.
Local Open Scope py_scope.

Definition with_stdout (l : list line) (s : state) : state :=
  {| server_base := server_base s; current_endpoint := current_endpoint s;
     _stop := _stop s; released := released s;
     stdout := stdout s ++ l; posts := posts s; spoken := spoken s;
     exit_code := exit_code s |}.

(** The state in which a failed upload leaves the process. *)
Definition crashed (e : exn) (s : state) : state :=
  {| server_base := server_base s; current_endpoint := current_endpoint s;
     _stop := _stop s; released := true;
     stdout := stdout s ++ [UploadError e];
     posts := posts s ++ [server_base s +:+ current_endpoint s];
     spoken := spoken s; exit_code := Some 1 |}.

Lemma upload_and_speak_fatal c s frame e :
  cam c = Some frame -> upload_error (http c) = Some e ->
  upload_and_speak c s = (Ok tt, crashed e s).
Proof.
  intros Hc He. unfold upload_and_speak, bind, gets, take_photo, try_except.
  rewrite Hc. simpl. unfold requests_post, upload_error in *.
  destruct (http c) as [resp|e']; simpl in *.
  - unfold lift. destruct (raise_for_status resp); [discriminate|].
    injection He as ->. reflexivity.
  - injection He as ->. reflexivity.
Qed.

Lemma upload_and_speak_capture_failed c s :
  cam c = None ->
  upload_and_speak c s = (Ok tt, with_stdout [Line "Failed to capture"] s).
Proof.
  intros Hc. unfold upload_and_speak, bind, gets, take_photo.
  rewrite Hc. reflexivity.
Qed.

Lemma run_loop_fatal c cs s frame e :
  _stop s = false -> cam c = Some frame -> upload_error (http c) = Some e ->
  run_loop (c :: cs) s = (Ok tt, crashed e s).
Proof.
  intros Hs Hc He. simpl. unfold bind at 1. unfold gets at 1. rewrite Hs.
  unfold bind at 1. rewrite (upload_and_speak_fatal c s frame e Hc He).
  reflexivity.
Qed.

Lemma run_loop_capture_failed c cs s :
  _stop s = false -> exit_code s = None -> cam c = None ->
  run_loop (c :: cs) s
  = (wait_for_keys (keys c);;; run_loop cs) (with_stdout [Line "Failed to capture"] s).
Proof.
  intros Hs Hx Hc. simpl. unfold bind at 1. unfold gets at 1. rewrite Hs.
  unfold bind at 1. rewrite (upload_and_speak_capture_failed c s Hc).
  unfold bind at 1. unfold gets at 1. simpl. rewrite Hx. reflexivity.
Qed.

(** Nothing in [upload_and_speak] writes the endpoint selector. *)
Lemma upload_and_speak_keeps_endpoint c s :
  current_endpoint (snd (upload_and_speak c s)) = current_endpoint s.
Proof.
  unfold upload_and_speak, bind, gets, take_photo, try_except, requests_post,
    lift, as_dict, print, close, os__exit, speak, modify, ret, raise.
  destruct (cam c); simpl; [|reflexivity].
  repeat case_match; simplify_eq; reflexivity.
Qed.

(** Keys that are not in the table, [""] included, leave the
    selector and the stop flag alone. *)
Lemma _handle_key_unknown ch s :
  lower (strip ch) <> "q" -> lower (strip ch) <> "1" ->
  lower (strip ch) <> "2" -> lower (strip ch) <> "3" ->
  current_endpoint (snd (_handle_key ch s)) = current_endpoint s /\
  _stop (snd (_handle_key ch s)) = _stop s.
Proof.
  intros Hq H1 H2 H3. unfold _handle_key.
  destruct (decide (ch = EmptyString)); [by split|].
  repeat (case_decide; [contradiction|]). by split.
Qed.

(** A key of the table selects its endpoint. *)
Lemma _handle_key_select s :
  current_endpoint (snd (_handle_key "1" s)) = "/ocr/en" /\
  current_endpoint (snd (_handle_key "2" s)) = "/traffic" /\
  current_endpoint (snd (_handle_key "3" s)) = "/search".
Proof. repeat split. Qed.

(** [q] stops the loop: no further upload, and [main] releases the
    camera on the way out. *)
Lemma quit_key_stops c cs s :
  _stop s = false -> exit_code s = None -> cam c = None -> keys c = ["q"] ->
  exists s', main (c :: cs) s = (Ok tt, s') /\
             _stop s' = true /\ released s' = true /\ exit_code s' = None /\
             posts s' = posts s.
Proof.
  intros Hs Hx Hc Hk. unfold main. unfold bind at 1.
  rewrite (run_loop_capture_failed c cs s Hs Hx Hc), Hk.
  unfold bind at 1. simpl. unfold bind at 1, gets at 1. simpl. rewrite Hs.
  destruct cs as [|c' cs']; simpl;
    (eexists; split; [unfold bind, gets; simpl; rewrite Hx; reflexivity|]);
    simpl; auto.
Qed.

(** ** The one-shot override (C4) *)

Definition frame : bytes := [Byte.x01; Byte.x02].

Definition caption_reply : res http_response :=
  Ok {| status_code := 200;
        json_body := Ok (JObj [("caption", JStr "a dog running")]) |}.

(** Three turns of the loop; [1] is pressed during the first wait and
    nothing is pressed afterwards. *)
Definition press_1_once : list cycle :=
  [ {| cam := Some frame; http := caption_reply; keys := ["1"] |};
    {| cam := Some frame; http := caption_reply; keys := [] |};
    {| cam := Some frame; http := caption_reply; keys := [] |} ].

(** C4, the code at the failing input: after [1] the second upload goes
    to [/ocr/en], and so does the third; the selector is still
    [/ocr/en] at the end and never returns to [/caption/en]. *)
Theorem endpoint_override_is_sticky :
  posts (snd (run_loop press_1_once init))
    = ["http://specsserver.local/caption/en";
       "http://specsserver.local/ocr/en";
       "http://specsserver.local/ocr/en"] /\
  current_endpoint (snd (run_loop press_1_once init)) = "/ocr/en".
Proof. vm_compute. split; reflexivity. Qed.

End SerialFacts.

(** ** The desktop client *)

Module DesktopFacts.
Import Client.
Local Open Scope py_scope.

Definition chosen_endpoint (msvcrt : bool) (key : option (res string)) : string :=
  if user_pressed_d msvcrt key then ocr_endpoint else caption_endpoint.

(** The state after a turn whose upload failed: the attempt and the
    error are on the console, the camera is as it was. *)
Definition after_failed_upload (msvcrt : bool) (key : option (res string))
    (e : exn) (s : state) : state :=
  {| released := released s;
     stdout := stdout s
               ++ (if user_pressed_d msvcrt key then [PressedD] else [])
               ++ [Uploading (server_base +:+ chosen_endpoint msvcrt key); Error e];
     posts := posts s ++ [server_base +:+ chosen_endpoint msvcrt key];
     spoken := spoken s |}.

Lemma turn_upload_failed msvcrt key frame http espeak e s :
  upload_error http = Some e ->
  try_except (turn_body msvcrt key (Some frame) http espeak)
             (fun e => print (Error e)) s
  = (Ok tt, after_failed_upload msvcrt key e s).
Proof.
  intros He. unfold upload_error in He.
  cbv [after_failed_upload chosen_endpoint try_except turn_body bind take_photo
       upload_photo print modify ret lift].
  destruct (user_pressed_d msvcrt key);
    (destruct http as [resp|e']; [destruct (raise_for_status resp)|]);
    simplify_eq; simpl; rewrite <- ?app_assoc; reflexivity.
Qed.

Lemma loop_upload_failed msvcrt key frame http espeak e ts s :
  upload_error http = Some e ->
  loop msvcrt (Turn key (Some frame) http espeak :: ts) s
  = loop msvcrt ts (after_failed_upload msvcrt key e s).
Proof.
  intros He. simpl. unfold bind at 1.
  by rewrite (turn_upload_failed msvcrt key frame http espeak e s He).
Qed.

Lemma loop_capture_failed msvcrt key http espeak ts s :
  loop msvcrt (Turn key None http espeak :: ts) s
  = loop msvcrt ts
      {| released := released s;
         stdout := stdout s
                   ++ (if user_pressed_d msvcrt key then [PressedD] else [])
                   ++ [Line "Warning: failed to capture frame"];
         posts := posts s; spoken := spoken s |}.
Proof.
  simpl. unfold bind at 1.
  cbv [try_except turn_body bind take_photo print modify ret].
  destruct (user_pressed_d msvcrt key); simpl; rewrite <- ?app_assoc; reflexivity.
Qed.

End DesktopFacts.

(** ** The GPIO client: the camera lock (C9) *)

Module RPIFacts.
Import RPIClient.

(** The thread inside [take_photo], as the lock and the program
    counters tell it. *)
Definition reading (σ : sys) : option nat :=
  match capture_lock σ with
  | Some t =>
      match threads σ !! t with
      | Some {| at_pc := Reading |} => Some t
      | _ => None
      end
  | None => None
  end.

(** What every reachable state satisfies: the lock names a live thread,
    a thread is inside the [with] block exactly when it is the holder,
    and the device log is serial, open exactly when some thread is
    inside [take_photo]. *)
Record Inv (σ : sys) : Prop := {
  inv_holder : forall t, capture_lock σ = Some t -> is_Some (threads σ !! t);
  inv_with : forall t th, threads σ !! t = Some th ->
               (in_with (at_pc th) = true <-> capture_lock σ = Some t);
  inv_log : scan None (device_log σ) = Some (reading σ);
}.

Lemma scan_snoc cur l e :
  scan cur (l ++ [e]) = c ← scan cur l; scan c [e].
Proof.
  revert cur. induction l as [|[t|t] l IH]; intros cur; simpl.
  - by destruct (scan cur [e]).
  - destruct cur; [done|apply IH].
  - destruct cur as [t'|]; [|done]. destruct (decide (t' = t)); [apply IH|done].
Qed.

Lemma set_pc_eq t p σ th :
  threads σ !! t = Some th ->
  set_pc t p σ !! t = Some {| endpoint := endpoint th; at_pc := p |}.
Proof.
  intros H. unfold set_pc. rewrite H.
  apply list_lookup_insert_eq. by eapply lookup_lt_Some.
Qed.

Lemma set_pc_ne t t' p σ :
  t <> t' -> set_pc t p σ !! t' = threads σ !! t'.
Proof.
  intros H. unfold set_pc. destruct (threads σ !! t); [|done].
  by apply list_lookup_insert_ne.
Qed.

Lemma init_inv : Inv init.
Proof. split; simpl; [done| |done]. intros t th H. by rewrite lookup_nil in H. Qed.


(** Facts about one thread moving from [at_pc th] to [p], the lock going
    from [capture_lock σ] to [lk]. *)
Lemma move_holder σ t th p lk :
  Inv σ -> threads σ !! t = Some th ->
  (lk = capture_lock σ \/ lk = Some t \/ lk = None) ->
  forall t', lk = Some t' -> is_Some (set_pc t p σ !! t').
Proof.
  intros HI Ht Hlk t' ->.
  destruct (decide (t = t')) as [<-|Hne].
  - rewrite (set_pc_eq t p σ th Ht). eauto.
  - rewrite set_pc_ne by done. apply (inv_holder σ HI).
    destruct Hlk as [H|[H|H]]; congruence.
Qed.

Lemma move_with σ t th p lk :
  Inv σ -> threads σ !! t = Some th ->
  (in_with p = true <-> lk = Some t) ->
  (lk = capture_lock σ \/
   (capture_lock σ = None /\ lk = Some t) \/
   (capture_lock σ = Some t /\ lk = None)) ->
  forall t' th', set_pc t p σ !! t' = Some th' ->
    (in_with (at_pc th') = true <-> lk = Some t').
Proof.
  intros HI Ht Hp Hlk t' th' Ht'.
  destruct (decide (t = t')) as [<-|Hne].
  - rewrite (set_pc_eq t p σ th Ht) in Ht'. simplify_eq. exact Hp.
  - rewrite set_pc_ne in Ht' by done.
    rewrite (inv_with σ HI t' th' Ht').
    destruct Hlk as [->|[[-> ->]|[-> ->]]];
      [reflexivity|split; intros ?; simplify_eq..].
Qed.

Lemma reading_set_pc σ σ' t th p :
  Inv σ -> threads σ !! t = Some th ->
  threads σ' = set_pc t p σ ->
  reading σ' =
  match capture_lock σ' with
  | Some k =>
      if decide (k = t) then (if p is Reading then Some t else None)
      else match threads σ !! k with
           | Some {| at_pc := Reading |} => Some k
           | _ => None
           end
  | None => None
  end.
Proof.
  intros HI Ht Hth. unfold reading. rewrite Hth.
  destruct (capture_lock σ') as [k|]; [|done].
  destruct (decide (k = t)) as [->|Hne].
  - rewrite (set_pc_eq t p σ th Ht). by destruct p.
  - by rewrite set_pc_ne.
Qed.

(** A statement outside the [with] block: the lock is not concerned. *)
Lemma inv_outside σ σ' t th p :
  Inv σ -> threads σ !! t = Some th ->
  in_with (at_pc th) = false -> in_with p = false ->
  threads σ' = set_pc t p σ ->
  capture_lock σ' = capture_lock σ ->
  device_log σ' = device_log σ ->
  Inv σ'.
Proof.
  intros HI Ht Hout Hp Hth Hlk Hlog.
  assert (Hnot : capture_lock σ <> Some t).
  { intros Hl. apply (inv_with σ HI t th Ht) in Hl. congruence. }
  split.
  - rewrite Hth, Hlk. apply (move_holder σ t th p _ HI Ht). auto.
  - rewrite Hth, Hlk. apply (move_with σ t th p _ HI Ht); [|auto].
    split; congruence.
  - rewrite Hlog, (inv_log σ HI), (reading_set_pc σ σ' t th p HI Ht Hth), Hlk.
    unfold reading. destruct (capture_lock σ) as [k|]; [|done].
    destruct (decide (k = t)); [congruence|done].
Qed.

(** [__enter__] of the lock, when it is free. *)
Lemma inv_acquire σ σ' t th :
  Inv σ -> threads σ !! t = Some th ->
  capture_lock σ = None ->
  threads σ' = set_pc t Locked σ ->
  capture_lock σ' = Some t ->
  device_log σ' = device_log σ ->
  Inv σ'.
Proof.
  intros HI Ht Hfree Hth Hlk Hlog. split.
  - rewrite Hth, Hlk. apply (move_holder σ t th Locked _ HI Ht). auto.
  - rewrite Hth, Hlk. apply (move_with σ t th Locked _ HI Ht); [done|auto].
  - rewrite Hlog, (inv_log σ HI), (reading_set_pc σ σ' t th Locked HI Ht Hth), Hlk.
    unfold reading. rewrite Hfree. by rewrite decide_True.
Qed.

(** A statement inside the [with] block, from [p0] to [p], appending
    [evs] to the device log. *)
Lemma inv_inside σ σ' t th p evs :
  Inv σ -> threads σ !! t = Some th ->
  in_with (at_pc th) = true -> in_with p = true ->
  threads σ' = set_pc t p σ ->
  capture_lock σ' = capture_lock σ ->
  device_log σ' = device_log σ ++ evs ->
  scan (if at_pc th is Reading then Some t else None) evs
    = Some (if p is Reading then Some t else None) ->
  Inv σ'.
Proof.
  intros HI Ht Hin Hp Hth Hlk Hlog Hscan.
  assert (Hheld : capture_lock σ = Some t) by by apply (inv_with σ HI t th Ht).
  split.
  - rewrite Hth, Hlk. apply (move_holder σ t th p _ HI Ht). auto.
  - rewrite Hth, Hlk. apply (move_with σ t th p _ HI Ht); [|auto].
    by rewrite Hheld.
  - rewrite (reading_set_pc σ σ' t th p HI Ht Hth), Hlk, Hheld, decide_True by done.
    rewrite Hlog. rewrite <- Hscan.
    assert (Hr : reading σ = if at_pc th is Reading then Some t else None).
    { unfold reading. rewrite Hheld, Ht. by destruct th as [? []]. }
    rewrite <- Hr. clear Hscan Hlog.
    pose proof (inv_log σ HI) as Hl. revert Hl.
    generalize (reading σ). generalize (@None nat).
    induction (device_log σ) as [|[k|k] l IH]; intros c r; simpl.
    + by intros [= ->].
    + destruct c; [done|apply IH].
    + destruct c as [k'|]; [|done]. destruct (decide (k' = k)); [apply IH|done].
Qed.

(** [__exit__] of the lock. *)
Lemma inv_release σ σ' t th ok :
  Inv σ -> threads σ !! t = Some th ->
  at_pc th = ReadDone ok ->
  threads σ' = set_pc t (Unlocked ok) σ ->
  capture_lock σ' = None ->
  device_log σ' = device_log σ ->
  Inv σ'.
Proof.
  intros HI Ht Hpc Hth Hlk Hlog.
  assert (Hheld : capture_lock σ = Some t).
  { apply (inv_with σ HI t th Ht). by rewrite Hpc. }
  split.
  - rewrite Hlk. done.
  - rewrite Hth, Hlk. apply (move_with σ t th (Unlocked ok) _ HI Ht); [done|auto].
  - rewrite Hlog, (inv_log σ HI), (reading_set_pc σ σ' t th (Unlocked ok) HI Ht Hth), Hlk.
    unfold reading. rewrite Hheld, Ht.
    destruct th as [ep p0]; simpl in Hpc; by subst.
Qed.

Lemma step_inv a σ : Inv σ -> Inv (step a σ).
Proof.
  intros HI. destruct a as [pin|t cam http]; unfold step.
  - destruct (mapping_get pin mapping) as [e|]; [|done].
    split; simpl.
    + intros t Hl. apply (inv_holder σ HI) in Hl as [th Hth].
      exists th. by apply lookup_app_l_Some.
    + intros t th Hth. apply lookup_app_Some in Hth as [Hth|[Hge Hth]].
      * by apply (inv_with σ HI).
      * apply list_lookup_singleton_Some in Hth as [_ <-]. simpl.
        split; [done|]. intros Hl.
        apply (inv_holder σ HI) in Hl as [th Hth].
        apply lookup_lt_Some in Hth. lia.
    + rewrite (inv_log σ HI). unfold reading; simpl.
      destruct (capture_lock σ) as [k|] eqn:Hl; [|done].
      destruct (inv_holder σ HI k Hl) as [th Hth].
      by rewrite (lookup_app_l_Some _ _ _ _ Hth), Hth.
  - destruct (threads σ !! t) as [th|] eqn:Ht; [|done].
    destruct (at_pc th) as [| | |ok|[]| |text|] eqn:Hpc.
    + destruct (capture_lock σ) eqn:Hl; [done|].
      by eapply (inv_acquire σ _ t th).
    + eapply (inv_inside σ _ t th Reading [ReadBegin t]); try done; by rewrite Hpc.
    + eapply (inv_inside σ _ t th (ReadDone _) [ReadEnd t]); try done;
        rewrite Hpc; [done|]. simpl. by rewrite decide_True.
    + by eapply (inv_release σ _ t th ok).
    + eapply (inv_outside σ _ t th Uploading); try done; by rewrite Hpc.
    + eapply (inv_outside σ _ t th Done); try done; by rewrite Hpc.
    + destruct (upload_outcome http) as [text|e].
      * eapply (inv_outside σ _ t th (if truthy text then Speaking text else Done));
          try done; [by rewrite Hpc|by destruct (truthy text)].
      * eapply (inv_outside σ _ t th Done); try done; by rewrite Hpc.
    + eapply (inv_outside σ _ t th Done); try done; by rewrite Hpc.
    + done.
Qed.

Lemma run_inv schedule σ : Inv σ -> Inv (run schedule σ).
Proof.
  revert σ. induction schedule as [|a l IH]; intros σ HI; [done|].
  apply IH. by apply step_inv.
Qed.

(** C9: whatever the schedule, that is for any number of button presses
    and any interleaving of the threads they start, the device log is
    serial (every entry into [take_photo] is directly followed by the
    exit of the same thread), at most one thread is inside [take_photo],
    the holder of [capture_lock] is at a statement of the [with] block,
    and a thread that is uploading or speaking does not hold the lock. *)
Theorem capture_lock_serializes_reads (schedule : list action) :
  let σ := run schedule init in
  serial (device_log σ) = true /\
  (forall t1 t2 th1 th2,
     threads σ !! t1 = Some th1 -> threads σ !! t2 = Some th2 ->
     at_pc th1 = Reading -> at_pc th2 = Reading -> t1 = t2) /\
  (forall t th,
     threads σ !! t = Some th -> capture_lock σ = Some t ->
     in_with (at_pc th) = true) /\
  (forall t th,
     threads σ !! t = Some th ->
     at_pc th = Uploading \/ (exists text, at_pc th = Speaking text) ->
     capture_lock σ <> Some t).
Proof.
  intros σ. assert (HI : Inv σ) by apply run_inv, init_inv.
  split; [|split; [|split]].
  - unfold serial. rewrite (inv_log σ HI). by apply bool_decide_eq_true.
  - intros t1 t2 th1 th2 H1 H2 Hr1 Hr2.
    assert (Hl1 : capture_lock σ = Some t1).
    { apply (inv_with σ HI t1 th1 H1). by rewrite Hr1. }
    assert (Hl2 : capture_lock σ = Some t2).
    { apply (inv_with σ HI t2 th2 H2). by rewrite Hr2. }
    congruence.
  - intros t th Ht Hl. by apply (inv_with σ HI t th Ht).
  - intros t th Ht Hpc Hl. apply (inv_with σ HI t th Ht) in Hl.
    destruct Hpc as [Hpc|[text Hpc]]; rewrite Hpc in Hl; discriminate.
Qed.

Definition ok_reply : res http_response :=
  Ok {| status_code := 200; json_body := Ok (JObj [("text", JStr "EXIT")]) |}.

(** Two presses in quick succession: the second thread cannot enter
    while the first is reading, and uploads overlap freely. *)
Definition two_presses : list action :=
  [ Press 5; Press 6;
    Run 0 None ok_reply;              (* thread 0 takes the lock *)
    Run 1 None ok_reply;              (* thread 1 finds it held *)
    Run 0 None ok_reply;              (* thread 0 enters take_photo *)
    Run 1 None ok_reply;
    Run 0 (Some [Byte.x01]) ok_reply; (* thread 0 has its frame *)
    Run 0 None ok_reply;              (* ... and releases the lock *)
    Run 1 None ok_reply;              (* thread 1 takes the lock *)
    Run 0 None ok_reply;              (* thread 0 starts its upload *)
    Run 1 None ok_reply;              (* thread 1 enters take_photo *)
    Run 1 (Some [Byte.x02]) ok_reply ].

Example two_presses_run :
  device_log (run two_presses init)
    = [ReadBegin 0; ReadEnd 0; ReadBegin 1; ReadEnd 1] /\
  at_pc <$> threads (run two_presses init) = [Uploading; ReadDone true] /\
  capture_lock (run two_presses init) = Some 1%nat.
Proof. vm_compute. auto. Qed.

Example serial_rejects_overlap :
  serial [ReadBegin 0; ReadBegin 1; ReadEnd 0; ReadEnd 1] = false.
Proof. reflexivity. Qed.

(** An upload that fails in a GPIO thread ends that thread with a
    message; the lock, the other threads and the process are as before. *)
Lemma step_upload_failed σ t th cam http e :
  threads σ !! t = Some th -> at_pc th = Uploading ->
  upload_outcome http = Raise e ->
  step (Run t cam http) σ
  = {| threads := set_pc t Done σ; capture_lock := capture_lock σ;
       device_log := device_log σ;
       stdout := stdout σ ++ [ErrorSending (server_base +:+ endpoint th) e];
       posts := posts σ; spoken := spoken σ |}.
Proof. intros Ht Hpc He. unfold step. by rewrite Ht, Hpc, He. Qed.

End RPIFacts.

(** ** Fatal and recoverable failures on the capture side (C3) *)

Module FailurePolicy.
Local Open Scope py_scope.

Definition refused : res http_response := Raise (Exception "Connection refused").

Definition server_error : res http_response :=
  Ok {| status_code := 503; json_body := Raise (Exception "not JSON") |}.

Definition failing_turn : Client.turn :=
  Client.Turn None (Some [Byte.x01]) refused true.

Definition failing_cycle : SerialClient.cycle :=
  {| SerialClient.cam := Some [Byte.x01];
     SerialClient.http := server_error;
     SerialClient.keys := ["1"] |}.

Definition dark_cycle : SerialClient.cycle :=
  {| SerialClient.cam := None;
     SerialClient.http := refused;
     SerialClient.keys := [] |}.

(** Fatality as the specification words it, for [client.py]: after a
    turn whose upload failed the process is gone, so the turns that
    follow leave no trace, and the camera has been released. *)
Definition upload_failure_is_fatal_in_desktop_client
    (t : Client.turn) (rest : list Client.turn) : Prop :=
  snd (Client.loop true (t :: rest) Client.init)
    = snd (Client.loop true [t] Client.init) /\
  Client.released (snd (Client.loop true [t] Client.init)) = true.

(** C3, counterexample: in [client.py] a refused connection is printed
    and the loop goes on; the next turn uploads again and the camera is
    still open. *)
Lemma desktop_client_survives_upload_failure :
  ~ upload_failure_is_fatal_in_desktop_client failing_turn [failing_turn].
Proof. intros [_ H]. vm_compute in H. discriminate H. Qed.

Example desktop_client_two_failed_uploads :
  Client.posts (snd (Client.loop true [failing_turn; failing_turn] Client.init))
    = ["http://specsserver.local/caption/en"; "http://specsserver.local/caption/en"] /\
  Client.released (snd (Client.loop true [failing_turn; failing_turn] Client.init))
    = false.
Proof. vm_compute. auto. Qed.

(** C3, amended: in the keyboard client ([client_RPI_serial.py]) an
    upload that fails (the POST raises, or the status is 4xx or 5xx) is
    fatal: the error is printed, the camera is released and the process
    exits with code 1, so no later cycle runs; a failed camera read only
    prints a message and the loop goes on with the wait and the next
    cycle.  In the desktop client ([client.py]) and in the GPIO client
    ([client_RPI.py]) a failed upload is recoverable as well: the error
    is printed and the loop, or the other threads, carry on with the
    camera still open. *)
Theorem upload_failure_fatal_in_serial_client_only :
  (forall c cs s frame e,
     SerialClient._stop s = false ->
     SerialClient.cam c = Some frame ->
     upload_error (SerialClient.http c) = Some e ->
     exists s',
       SerialClient.run_loop (c :: cs) s = (Ok tt, s') /\
       SerialClient.main (c :: cs) s = (Ok tt, s') /\
       SerialClient.stdout s' = SerialClient.stdout s ++ [SerialClient.UploadError e] /\
       SerialClient.released s' = true /\
       SerialClient.exit_code s' = Some 1 /\
       SerialClient.posts s'
         = SerialClient.posts s
           ++ [SerialClient.server_base s +:+ SerialClient.current_endpoint s]) /\
  (forall c cs s,
     SerialClient._stop s = false ->
     SerialClient.exit_code s = None ->
     SerialClient.cam c = None ->
     exists s1,
       SerialClient.run_loop (c :: cs) s
         = (SerialClient.wait_for_keys (SerialClient.keys c);;;
            SerialClient.run_loop cs) s1 /\
       SerialClient.stdout s1
         = SerialClient.stdout s ++ [SerialClient.Line "Failed to capture"] /\
       SerialClient.released s1 = SerialClient.released s /\
       SerialClient.exit_code s1 = None /\
       SerialClient.posts s1 = SerialClient.posts s) /\
  (forall msvcrt key frame http espeak e ts s,
     upload_error http = Some e ->
     exists s1,
       Client.loop msvcrt (Client.Turn key (Some frame) http espeak :: ts) s
         = Client.loop msvcrt ts s1 /\
       Client.released s1 = Client.released s /\
       Client.posts s1
         = Client.posts s
           ++ [Client.server_base +:+ DesktopFacts.chosen_endpoint msvcrt key] /\
       exists out, Client.stdout s1 = Client.stdout s ++ out ++ [Client.Error e]) /\
  (forall msvcrt key http espeak ts s,
     exists s1,
       Client.loop msvcrt (Client.Turn key None http espeak :: ts) s
         = Client.loop msvcrt ts s1 /\
       Client.released s1 = Client.released s /\
       Client.posts s1 = Client.posts s) /\
  (forall σ t th cam http e,
     RPIClient.threads σ !! t = Some th ->
     RPIClient.at_pc th = RPIClient.Uploading ->
     RPIClient.upload_outcome http = Raise e ->
     let σ' := RPIClient.step (RPIClient.Run t cam http) σ in
     RPIClient.threads σ' = RPIClient.set_pc t RPIClient.Done σ /\
     RPIClient.capture_lock σ' = RPIClient.capture_lock σ /\
     RPIClient.stdout σ'
       = RPIClient.stdout σ
         ++ [RPIClient.ErrorSending
               (RPIClient.server_base +:+ RPIClient.endpoint th) e]).
Proof.
  split; [|split; [|split; [|split]]].
  - intros c cs s frame e Hs Hc He. exists (SerialFacts.crashed e s).
    pose proof (SerialFacts.run_loop_fatal c cs s frame e Hs Hc He) as Hr.
    split; [exact Hr|]. split; [|repeat split].
    unfold SerialClient.main. unfold bind at 1. rewrite Hr. reflexivity.
  - intros c cs s Hs Hx Hc.
    exists (SerialFacts.with_stdout [SerialClient.Line "Failed to capture"] s).
    split; [by apply SerialFacts.run_loop_capture_failed|].
    repeat split. exact Hx.
  - intros msvcrt key frame http espeak e ts s He.
    exists (DesktopFacts.after_failed_upload msvcrt key e s).
    split; [by apply DesktopFacts.loop_upload_failed|].
    split; [reflexivity|]. split; [reflexivity|]. simpl.
    exists ((if Client.user_pressed_d msvcrt key then [Client.PressedD] else [])
            ++ [Client.Uploading
                  (Client.server_base +:+ DesktopFacts.chosen_endpoint msvcrt key)]).
    rewrite <- (app_assoc _ [_] [_]). reflexivity.
  - intros msvcrt key http espeak ts s. eexists. split.
    + apply DesktopFacts.loop_capture_failed.
    + split; reflexivity.
  - intros σ t th cam http e Ht Hpc He σ'. subst σ'.
    by rewrite (RPIFacts.step_upload_failed σ t th cam http e Ht Hpc He).
Qed.

Lemma upload_failure_fatal_in_serial_client_only_witness :
  (exists s',
     SerialClient.main [failing_cycle; failing_cycle] SerialClient.init = (Ok tt, s') /\
     SerialClient.released s' = true /\
     SerialClient.exit_code s' = Some 1 /\
     SerialClient.posts s' = ["http://specsserver.local/caption/en"]) /\
  (exists s1,
     SerialClient.run_loop [dark_cycle; failing_cycle] SerialClient.init
       = SerialClient.run_loop [failing_cycle] s1 /\
     SerialClient.exit_code s1 = None) /\
  (exists s1,
     Client.loop true [failing_turn; failing_turn] Client.init
       = Client.loop true [failing_turn] s1 /\
     Client.released s1 = false).
Proof.
  pose proof upload_failure_fatal_in_serial_client_only as (Hf & Hc & Hd & _).
  split; [|split].
  - destruct (Hf failing_cycle [failing_cycle] SerialClient.init [Byte.x01]
                (Exception "HTTPError") eq_refl eq_refl eq_refl)
      as (s' & _ & Hm & _ & Hr & Hx & Hp).
    exists s'. repeat split; assumption.
  - destruct (Hc dark_cycle [failing_cycle] SerialClient.init eq_refl eq_refl eq_refl)
      as (s1 & Hr & _ & _ & Hx & _).
    exists s1. split; [exact Hr|exact Hx].
  - destruct (Hd true None [Byte.x01] refused true (Exception "Connection refused")
                [failing_turn] Client.init eq_refl)
      as (s1 & Hl & Hr & _).
    exists s1. split; [exact Hl|exact Hr].
Defined.

End FailurePolicy.

(** * Further properties of the server *)

Module ServerMore.
Import Server ServerFacts.
Local Open Scope py_scope.

(** ** GET *)

(** X1: a GET is answered on each route with the usage help of that
    route, status 200, whatever the form carries; the state is returned
    as it was, so no upload is saved and no backend is loaded or
    called. *)
Theorem get_answers_with_help (W : world) (lang : string) (req : request) (s : state) :
  req_method req = GET ->
  caption_endpoint W lang req s = (Ok caption_help, s) /\
  traffic_endpoint W req s = (Ok traffic_help, s) /\
  ocr_endpoint W lang req s = (Ok ocr_help, s) /\
  status caption_help = 200%nat /\ status traffic_help = 200%nat /\
  status ocr_help = 200%nat.
Proof.
  intros Hm. unfold caption_endpoint, traffic_endpoint, ocr_endpoint.
  rewrite Hm. repeat split.
Qed.

Lemma get_answers_with_help_witness :
  caption_endpoint tagging_world "hi"
    {| req_method := GET; files := files (post_image "photo.jpg") |} fresh_state
  = (Ok caption_help, fresh_state).
Proof.
  exact (proj1 (get_answers_with_help tagging_world "hi"
                  {| req_method := GET; files := files (post_image "photo.jpg") |}
                  fresh_state eq_refl)).
Defined.

(** ** Language names *)

Lemma lower_ascii_idemp c : lower_ascii (lower_ascii c) = lower_ascii c.
Proof. by destruct c as [[] [] [] [] [] [] [] []]. Qed.

Lemma lower_idemp s : lower (lower s) = lower s.
Proof. induction s as [|c s IH]; simpl; [done|]. by rewrite lower_ascii_idemp, IH. Qed.

Lemma lower_empty s : lower s = EmptyString <-> s = EmptyString.
Proof. by destruct s. Qed.

(** The values of the alias table are canonical names. *)
Lemma alias_value_canonical k v :
  LANGUAGE_ALIASES !! k = Some v -> normalize_language v = v /\ lower v = v.
Proof.
  intros H. apply elem_of_list_to_map_2 in H.
  repeat (apply elem_of_cons in H as [H|H];
          [injection H as -> ->; by vm_compute|]).
  by apply elem_of_nil in H.
Qed.

Lemma normalize_language_nonempty lang :
  lang <> EmptyString ->
  normalize_language lang = default (lower lang) (LANGUAGE_ALIASES !! lower lang).
Proof.
  intros Hne. unfold normalize_language.
  destruct (decide (lang = EmptyString)); [contradiction|reflexivity].
Qed.

(** X2: normalising twice is normalising once, and the result is in
    lowercase: the output of [normalize_language] is a fixed point. *)
Theorem normalize_language_idempotent (lang : string) :
  normalize_language (normalize_language lang) = normalize_language lang /\
  lower (normalize_language lang) = normalize_language lang.
Proof.
  destruct (decide (lang = EmptyString)) as [->|Hne]; [by vm_compute|].
  rewrite (normalize_language_nonempty lang Hne).
  destruct (LANGUAGE_ALIASES !! lower lang) as [v|] eqn:Hl; simpl.
  - by apply (alias_value_canonical (lower lang)).
  - split; [|apply lower_idemp].
    rewrite normalize_language_nonempty by by rewrite lower_empty.
    by rewrite lower_idemp, Hl.
Qed.

(** X3: language names are matched without regard to case: two names
    with the same lowercase form normalise to the same code. *)
Theorem normalize_language_ignores_case (a b : string) :
  lower a = lower b -> normalize_language a = normalize_language b.
Proof.
  intros Hab. unfold normalize_language.
  destruct (decide (a = EmptyString)) as [->|Ha],
           (decide (b = EmptyString)) as [->|Hb]; try reflexivity.
  - simpl in Hab. symmetry in Hab. apply (proj1 (lower_empty b)) in Hab.
    contradiction.
  - simpl in Hab. apply (proj1 (lower_empty a)) in Hab. contradiction.
  - by rewrite Hab.
Qed.

Lemma normalize_language_ignores_case_witness :
  normalize_language "TeLuGu" = normalize_language "telugu".
Proof. exact (normalize_language_ignores_case "TeLuGu" "telugu" eq_refl). Defined.

(** ** What a call may touch *)

Definition event_backend (e : event) : backend :=
  match e with Load b | Invoke b => b end.

(** [s'] extends the trace of [s] by calls into the backends [bs] only. *)
Definition touches (bs : list backend) (s s' : state) : Prop :=
  exists t, trace s' = trace s ++ t /\ Forall (fun e => event_backend e ∈ bs) t.

(** The slot of [_models] that holds backend [b] is the same in both. *)
Definition slot_same (b : backend) (m m' : models) : Prop :=
  match b with
  | BlipProcessorB => blip_processor m' = blip_processor m
  | BlipModelB => blip_model m' = blip_model m
  | TrafficProcessorB => traffic_blip_processor m' = traffic_blip_processor m
  | TrafficModelB => traffic_blip_model m' = traffic_blip_model m
  | OcrReaderB => ocr_reader m' = ocr_reader m
  | TranslatorB => translator m' = translator m
  end.

Definition same_except (bs : list backend) (m m' : models) : Prop :=
  forall b, b ∉ bs -> slot_same b m m'.

(** Whatever is ready in [m] is ready, and the same, in [m']. *)
Definition ready_le (m m' : models) : Prop :=
  (forall r, ocr_reader m = Some r -> ocr_reader m' = Some r) /\
  (forall t, translator m = Some t -> translator m' = Some t) /\
  (forall p mo, blip_processor m = Some p -> blip_model m = Some mo ->
     blip_processor m' = Some p /\ blip_model m' = Some mo) /\
  (forall p mo, traffic_blip_processor m = Some p -> traffic_blip_model m = Some mo ->
     traffic_blip_processor m' = Some p /\ traffic_blip_model m' = Some mo).

Definition effect (bs : list backend) (s s' : state) : Prop :=
  touches bs s s' /\ same_except bs (_models s) (_models s') /\
  ready_le (_models s) (_models s').

Lemma slot_same_refl b m : slot_same b m m.
Proof. by destruct b. Qed.

Lemma slot_same_trans b m1 m2 m3 :
  slot_same b m1 m2 -> slot_same b m2 m3 -> slot_same b m1 m3.
Proof. destruct b; simpl; congruence. Qed.

Lemma ready_le_refl m : ready_le m m.
Proof. split; [auto|]. split; [auto|]. split; auto. Qed.

Lemma ready_le_trans m1 m2 m3 : ready_le m1 m2 -> ready_le m2 m3 -> ready_le m1 m3.
Proof.
  intros (Ho & Ht & Hb & Hr) (Ho' & Ht' & Hb' & Hr').
  split; [auto|]. split; [auto|]. split.
  - intros p mo Hp Hm. destruct (Hb p mo Hp Hm). by apply Hb'.
  - intros p mo Hp Hm. destruct (Hr p mo Hp Hm). by apply Hr'.
Qed.

Lemma effect_refl bs s : effect bs s s.
Proof.
  split; [|split].
  - exists []. by rewrite app_nil_r.
  - intros b _. apply slot_same_refl.
  - apply ready_le_refl.
Qed.

Lemma effect_trans bs s1 s2 s3 : effect bs s1 s2 -> effect bs s2 s3 -> effect bs s1 s3.
Proof.
  intros ((t & Ht & HF) & Hs & Hr) ((t' & Ht' & HF') & Hs' & Hr').
  split; [|split].
  - exists (t ++ t'). split; [by rewrite Ht', Ht, app_assoc|by apply Forall_app].
  - intros b Hb. eapply slot_same_trans; [by apply Hs|by apply Hs'].
  - by eapply ready_le_trans.
Qed.

Lemma effect_mono bs bs' s s' : bs ⊆ bs' -> effect bs s s' -> effect bs' s s'.
Proof.
  intros Hsub ((t & Ht & HF) & Hs & Hr). split; [|split; [|done]].
  - exists t. split; [done|]. eapply Forall_impl; [exact HF|]. intros e He. by apply Hsub.
  - intros b Hb. apply Hs. intros Hin. by apply Hb, Hsub.
Qed.

(** Only the trace and the models count. *)
Lemma effect_eq bs s1 s2 s2' :
  trace s2' = trace s2 -> _models s2' = _models s2 -> effect bs s1 s2 -> effect bs s1 s2'.
Proof. unfold effect, touches. by intros -> ->. Qed.

Lemma effect_eq_l bs s1 s1' s2 :
  trace s1' = trace s1 -> _models s1' = _models s1 -> effect bs s1 s2 -> effect bs s1' s2.
Proof. unfold effect, touches. by intros -> ->. Qed.

(** Closes the goals left by unfolding an initialiser or a call. *)
Ltac solve_effect :=
  split; [|split];
  [ first [ by (exists []; rewrite ?app_nil_r)
          | eexists [_]; split; [reflexivity|];
            repeat constructor; simpl; set_solver
          | eexists [_; _]; split; [simpl; by rewrite <- ?app_assoc|];
            repeat constructor; simpl; set_solver
          | eexists [_; _; _]; split; [simpl; by rewrite <- ?app_assoc|];
            repeat constructor; simpl; set_solver ]
  | intros [] Hn; simpl; try reflexivity; exfalso; apply Hn; set_solver
  | repeat split; simpl; intros; simplify_eq; try done; congruence ].

Ltac solve_sublist :=
  let b := fresh "b" in
  let Hb := fresh "Hb" in
  intros b Hb;
  repeat (apply elem_of_cons in Hb as [->|Hb]; [repeat constructor|]);
  by apply elem_of_nil in Hb.

Section Effects.
Variable W : world.

Lemma init_ocr_effect s : effect [OcrReaderB] s (snd (init_ocr W s)).
Proof.
  rewrite init_ocr_eq.
  destruct (ocr_reader (_models s)) eqn:E; [apply effect_refl|].
  repeat case_match; simpl; solve_effect.
Qed.

Lemma init_translator_effect s : effect [TranslatorB] s (snd (init_translator W s)).
Proof.
  rewrite init_translator_eq.
  destruct (translator (_models s)) eqn:E; [apply effect_refl|].
  repeat case_match; simpl; solve_effect.
Qed.

Lemma init_blip_effect s :
  effect [BlipProcessorB; BlipModelB] s (snd (init_blip W s)).
Proof.
  rewrite init_blip_eq. unfold blip_attempt, clear_blip.
  destruct (blip_model (_models s)) eqn:Em, (blip_processor (_models s)) eqn:Ep;
    [apply effect_refl|..];
    repeat case_match; simplify_eq; simpl; solve_effect.
Qed.

Lemma init_traffic_blip_effect s :
  effect [TrafficProcessorB; TrafficModelB] s (snd (init_traffic_blip W s)).
Proof.
  rewrite init_traffic_blip_eq. unfold traffic_blip_attempt, clear_traffic_blip.
  destruct (traffic_blip_model (_models s)) eqn:Em,
           (traffic_blip_processor (_models s)) eqn:Ep;
    [apply effect_refl|..];
    repeat case_match; simplify_eq; simpl; solve_effect.
Qed.

Lemma blip_infer_effect pb mb p m image_path s :
  effect [pb; mb] s (snd (blip_infer W pb mb p m image_path s)).
Proof.
  unfold blip_infer, Image_open_convert, torch_no_grad, index0, bind, gets,
    raise, lift, invoke, ret.
  repeat case_match; simplify_eq; simpl; solve_effect.
Qed.

Lemma reader_readtext_effect r image_path s :
  effect [OcrReaderB] s (snd (reader_readtext r image_path s)).
Proof. unfold reader_readtext. simpl. solve_effect. Qed.

Lemma translate_text_effect text lang s :
  effect [TranslatorB] s (snd (translate_text W text lang s)).
Proof.
  rewrite translate_text_eq.
  pose proof (init_translator_effect s) as Hi.
  destruct (init_translator W s) as [[[tr|]|e] s1]; simpl in *; try done.
  eapply effect_trans; [exact Hi|].
  destruct (translate tr text lang); simpl; solve_effect.
Qed.

Lemma ocr_from_image_path_effect image_path s :
  effect [OcrReaderB] s (snd (ocr_from_image_path W image_path s)).
Proof.
  rewrite ocr_from_image_path_eq.
  pose proof (init_ocr_effect s) as Hi.
  destruct (init_ocr W s) as [[[r|]|e] s1]; cbn [fst snd] in Hi |- *;
    try exact Hi.
  eapply effect_trans; [exact Hi|].
  pose proof (reader_readtext_effect r image_path s1) as Hr.
  by destruct (reader_readtext r image_path s1) as [[result|e] s2].
Qed.

Lemma generate_caption_from_image_path_effect image_path s :
  effect [BlipProcessorB; BlipModelB] s
    (snd (generate_caption_from_image_path W image_path s)).
Proof.
  rewrite generate_caption_from_image_path_eq.
  pose proof (init_blip_effect s) as Hi.
  destruct (init_blip W s) as [[[[p|] [m|]]|e] s1]; cbn [fst snd] in Hi |- *;
    try exact Hi.
  eapply effect_trans; [exact Hi|].
  pose proof (blip_infer_effect BlipProcessorB BlipModelB p m image_path s1) as Hr.
  by destruct (blip_infer W _ _ p m image_path s1) as [[cc|e] s2].
Qed.

Lemma generate_traffic_caption_from_image_path_effect image_path s :
  effect [TrafficProcessorB; TrafficModelB] s
    (snd (generate_traffic_caption_from_image_path W image_path s)).
Proof.
  rewrite generate_traffic_caption_from_image_path_eq.
  pose proof (init_traffic_blip_effect s) as Hi.
  destruct (init_traffic_blip W s) as [[[[p|] [m|]]|e] s1];
    cbn [fst snd] in Hi |- *; try exact Hi.
  eapply effect_trans; [exact Hi|].
  pose proof (blip_infer_effect TrafficProcessorB TrafficModelB p m image_path s1) as Hr.
  by destruct (blip_infer W _ _ p m image_path s1) as [[cc|e] s2].
Qed.

Lemma no_payload_cases (req : request) :
  req_method req = GET \/
  (req_method req = POST /\ pick_upload req = None) \/
  (req_method req = POST /\ exists upload, pick_upload req = Some upload).
Proof.
  destruct (req_method req); [by left|right].
  destruct (pick_upload req) as [u|]; [right|left]; eauto.
Qed.

Lemma caption_endpoint_effect lang req s :
  effect [BlipProcessorB; BlipModelB; TranslatorB] s
    (snd (caption_endpoint W lang req s)).
Proof.
  destruct (no_payload_cases req) as [Hm|[[Hm Hu]|[Hm [upload Hu]]]].
  - unfold caption_endpoint. rewrite Hm. apply effect_refl.
  - unfold caption_endpoint. rewrite Hm, Hu. apply effect_refl.
  - destruct (caption_endpoint_post W lang req upload s Hm Hu)
      as (cc & s1 & tr & s2 & Hc & Ht & _ & ->). simpl.
    apply (effect_eq _ _ s2); [done..|].
    apply (effect_trans _ _ s1).
    + apply (effect_eq_l _ (saved W upload s)); [done..|].
      pose proof (generate_caption_from_image_path_effect
                    (tmp_name W upload s) (saved W upload s)) as Hg.
      rewrite Hc in Hg. eapply effect_mono; [|exact Hg].
      solve_sublist.
    + pose proof (translate_text_effect (fst cc) (normalize_language lang) s1) as Hg.
      rewrite Ht in Hg. eapply effect_mono; [|exact Hg].
      solve_sublist.
Qed.

Lemma traffic_endpoint_effect req s :
  effect [TrafficProcessorB; TrafficModelB] s (snd (traffic_endpoint W req s)).
Proof.
  destruct (no_payload_cases req) as [Hm|[[Hm Hu]|[Hm [upload Hu]]]].
  - unfold traffic_endpoint. rewrite Hm. apply effect_refl.
  - unfold traffic_endpoint. rewrite Hm, Hu. apply effect_refl.
  - destruct (traffic_endpoint_post W req upload s Hm Hu)
      as (cc & s1 & Hc & _ & ->). simpl.
    apply (effect_eq _ _ s1); [done..|].
    apply (effect_eq_l _ (saved W upload s)); [done..|].
    pose proof (generate_traffic_caption_from_image_path_effect
                  (tmp_name W upload s) (saved W upload s)) as H.
    by rewrite Hc in H.
Qed.

Lemma ocr_endpoint_effect lang req s :
  effect [OcrReaderB; TranslatorB] s (snd (ocr_endpoint W lang req s)).
Proof.
  destruct (no_payload_cases req) as [Hm|[[Hm Hu]|[Hm [upload Hu]]]].
  - unfold ocr_endpoint. rewrite Hm. apply effect_refl.
  - unfold ocr_endpoint. rewrite Hm, Hu. apply effect_refl.
  - destruct (ocr_endpoint_post W lang req upload s Hm Hu)
      as (tc & s1 & tr & s2 & Hc & Ht & _ & ->). simpl.
    apply (effect_eq _ _ s2); [done..|].
    apply (effect_trans _ _ s1).
    + apply (effect_eq_l _ (saved W upload s)); [done..|].
      pose proof (ocr_from_image_path_effect
                    (tmp_name W upload s) (saved W upload s)) as Hg.
      rewrite Hc in Hg. eapply effect_mono; [|exact Hg].
      solve_sublist.
    + pose proof (translate_text_effect (fst tc) (normalize_language lang) s1) as Hg.
      rewrite Ht in Hg. eapply effect_mono; [|exact Hg].
      solve_sublist.
Qed.

End Effects.

(** X4: a request that is handled on its own, with no other request
    running in between, never evicts a loaded backend.  Whatever the
    request and the world, a backend that is ready before such a request
    is ready, and the same object, after it: an OCR reader or a
    translator once cached is not dropped, and a cached processor and
    model pair stays cached.  Failures at call time do not evict
    anything.  (Requests that overlap are not covered: see
    [ServerFacts.overlapping_init_ocr_evicts].) *)
Theorem ready_backends_stay_ready (W : world) (lang : string) (req : request)
    (s : state) :
  ready_le (_models s) (_models (snd (caption_endpoint W lang req s))) /\
  ready_le (_models s) (_models (snd (traffic_endpoint W req s))) /\
  ready_le (_models s) (_models (snd (ocr_endpoint W lang req s))).
Proof.
  split; [|split].
  - apply (caption_endpoint_effect W lang req s).
  - apply (traffic_endpoint_effect W req s).
  - apply (ocr_endpoint_effect W lang req s).
Qed.

(** X5: each route loads and calls its own backends only, and leaves
    the cache slots of the others as they were: [/caption] the BLIP pair
    and the translator, [/ocr] the reader and the translator, and
    [/traffic] the traffic pair alone: it never reaches the translator. *)
Theorem route_touches_own_backends_only (W : world) (lang : string)
    (req : request) (s : state) :
  (touches [BlipProcessorB; BlipModelB; TranslatorB] s
     (snd (caption_endpoint W lang req s)) /\
   same_except [BlipProcessorB; BlipModelB; TranslatorB] (_models s)
     (_models (snd (caption_endpoint W lang req s)))) /\
  (touches [TrafficProcessorB; TrafficModelB] s (snd (traffic_endpoint W req s)) /\
   same_except [TrafficProcessorB; TrafficModelB] (_models s)
     (_models (snd (traffic_endpoint W req s)))) /\
  (touches [OcrReaderB; TranslatorB] s (snd (ocr_endpoint W lang req s)) /\
   same_except [OcrReaderB; TranslatorB] (_models s)
     (_models (snd (ocr_endpoint W lang req s)))).
Proof.
  split; [|split].
  - destruct (caption_endpoint_effect W lang req s) as (Ht & Hs & _). by split.
  - destruct (traffic_endpoint_effect W req s) as (Ht & Hs & _). by split.
  - destruct (ocr_endpoint_effect W lang req s) as (Ht & Hs & _). by split.
Qed.

(** ** Confidence values *)

Lemma blip_infer_conf W pb mb p m image_path s cc s' :
  blip_infer W pb mb p m image_path s = (Ok cc, s') -> snd cc = 0.85%Q.
Proof.
  unfold blip_infer, Image_open_convert, torch_no_grad, index0, bind, gets,
    raise, lift, invoke, ret.
  intros H. repeat case_match; by simplify_eq.
Qed.

Lemma generate_caption_conf W image_path s cc s' :
  generate_caption_from_image_path W image_path s = (Ok cc, s') ->
  snd cc = 0.5%Q \/ snd cc = 0.85%Q.
Proof.
  rewrite generate_caption_from_image_path_eq. intros H.
  destruct (init_blip W s) as [[[[p|] [m|]]|e] s1]; simplify_eq; auto.
  destruct (blip_infer W _ _ p m image_path s1) as [[cc'|e] s2] eqn:Hb;
    simplify_eq; auto.
  right. by eapply blip_infer_conf.
Qed.

Lemma generate_traffic_caption_conf W image_path s cc s' :
  generate_traffic_caption_from_image_path W image_path s = (Ok cc, s') ->
  snd cc = 0.5%Q \/ snd cc = 0.85%Q.
Proof.
  rewrite generate_traffic_caption_from_image_path_eq. intros H.
  destruct (init_traffic_blip W s) as [[[[p|] [m|]]|e] s1]; simplify_eq; auto.
  destruct (blip_infer W _ _ p m image_path s1) as [[cc'|e] s2] eqn:Hb;
    simplify_eq; auto.
  right. by eapply blip_infer_conf.
Qed.

Lemma ocr_conf W image_path s tc s' :
  ocr_from_image_path W image_path s = (Ok tc, s') ->
  snd tc = 0.8%Q \/ snd tc = 0.9%Q \/
  (snd tc = 0.0%Q /\ fst tc = EmptyString).
Proof.
  rewrite ocr_from_image_path_eq. intros H.
  destruct (init_ocr W s) as [[[r|]|e] s1]; simplify_eq; simpl; auto.
  destruct (reader_readtext r image_path s1) as [[result|e] s2];
    cbv zeta in H; simplify_eq; simpl; auto.
Qed.

(** X6: the confidence of every answer to a POST that carries an
    upload is one of the constants of the code, hence between 0 and 1:
    0.85 or 0.5 on the caption routes; 0.9, 0.8 or 0.0 on the OCR route,
    and 0.0 only together with an empty [text_en]. *)
Theorem confidence_is_a_fixed_level (W : world) (lang : string) (req : request)
    (upload : FileStorage) (s : state) :
  req_method req = POST -> pick_upload req = Some upload ->
  (exists d q, fst (caption_endpoint W lang req s) = Ok (jsonify d) /\
     dict_get "confidence" d = Some (JFloat q) /\
     (q = 0.5%Q \/ q = 0.85%Q) /\ (0 <= q <= 1)%Q) /\
  (exists d q, fst (traffic_endpoint W req s) = Ok (jsonify d) /\
     dict_get "confidence" d = Some (JFloat q) /\
     (q = 0.5%Q \/ q = 0.85%Q) /\ (0 <= q <= 1)%Q) /\
  (exists d q, fst (ocr_endpoint W lang req s) = Ok (jsonify d) /\
     dict_get "confidence" d = Some (JFloat q) /\
     (q = 0.8%Q \/ q = 0.9%Q \/
      (q = 0.0%Q /\ dict_get "text_en" d = Some (JStr EmptyString))) /\
     (0 <= q <= 1)%Q).
Proof.
  intros Hm Hu. split; [|split].
  - destruct (caption_endpoint_post W lang req upload s Hm Hu)
      as (cc & s1 & tr & s2 & Hc & _ & _ & ->).
    eexists _, (snd cc). split; [reflexivity|]. split; [reflexivity|].
    apply generate_caption_conf in Hc. split; [exact Hc|].
    destruct Hc as [->| ->]; by vm_compute.
  - destruct (traffic_endpoint_post W req upload s Hm Hu)
      as (cc & s1 & Hc & _ & ->).
    eexists _, (snd cc). split; [reflexivity|]. split; [reflexivity|].
    apply generate_traffic_caption_conf in Hc. split; [exact Hc|].
    destruct Hc as [->| ->]; by vm_compute.
  - destruct (ocr_endpoint_post W lang req upload s Hm Hu)
      as (tc & s1 & tr & s2 & Hc & _ & _ & ->).
    eexists _, (snd tc). split; [reflexivity|]. split; [reflexivity|].
    apply ocr_conf in Hc.
    destruct Hc as [Hq|[Hq|[Hq Ht]]]; rewrite Hq.
    + split; [auto|by vm_compute].
    + split; [auto|by vm_compute].
    + split; [|by vm_compute]. right; right. split; [done|]. simpl. by rewrite Ht.
Qed.

Lemma confidence_is_a_fixed_level_witness :
  exists d q,
    fst (ocr_endpoint flaky_world "en" (post_image "photo.jpg") fresh_state)
      = Ok (jsonify d) /\
    dict_get "confidence" d = Some (JFloat q) /\ (0 <= q <= 1)%Q.
Proof.
  destruct (confidence_is_a_fixed_level flaky_world "en" (post_image "photo.jpg")
              {| filename := "photo.jpg"; content := [Byte.x01; Byte.x02] |}
              fresh_state eq_refl eq_refl) as (_ & _ & d & q & Hr & Hd & _ & Hq).
  by exists d, q.
Defined.

(** ** The file system across a request *)

(** X7: when the name picked for the temporary file is not in use, as
    [NamedTemporaryFile] guarantees, a request leaves the file system
    exactly as it found it, on every route and whatever the method and
    the form. *)
Theorem request_restores_files (W : world) (lang : string) (req : request)
    (s : state) :
  (forall upload, pick_upload req = Some upload ->
     fs s !! tmp_name W upload s = None) ->
  fs (snd (caption_endpoint W lang req s)) = fs s /\
  fs (snd (traffic_endpoint W req s)) = fs s /\
  fs (snd (ocr_endpoint W lang req s)) = fs s.
Proof.
  intros Hfresh.
  destruct (no_payload_cases req) as [Hm|[[Hm Hu]|[Hm [upload Hu]]]].
  - unfold caption_endpoint, traffic_endpoint, ocr_endpoint. by rewrite Hm.
  - unfold caption_endpoint, traffic_endpoint, ocr_endpoint. by rewrite Hm, Hu.
  - specialize (Hfresh upload Hu).
    destruct (caption_endpoint_post W lang req upload s Hm Hu)
      as (? & ? & ? & ? & _ & _ & Hf1 & ->).
    destruct (traffic_endpoint_post W req upload s Hm Hu)
      as (? & ? & _ & Hf2 & ->).
    destruct (ocr_endpoint_post W lang req upload s Hm Hu)
      as (? & ? & ? & ? & _ & _ & Hf3 & ->).
    simpl. rewrite Hf1, Hf2, Hf3, saved_delete. by rewrite delete_id.
Qed.

Lemma request_restores_files_witness :
  fs (snd (ocr_endpoint flaky_world "en" (post_image "photo.jpg") broken_ocr_state))
  = fs broken_ocr_state.
Proof.
  refine (proj2 (proj2 (request_restores_files flaky_world "en"
                          (post_image "photo.jpg") broken_ocr_state _))).
  intros upload [= <-]. by vm_compute.
Defined.

End ServerMore.

(** * Further properties of the keyboard client *)

Module SerialMore.
Import SerialClient SerialFacts.
Local Open Scope py_scope.

(** The state after an upload that went through: the answer is printed,
    and spoken when it is truthy. *)
Definition answered (text : json) (s : state) : state :=
  {| server_base := server_base s; current_endpoint := current_endpoint s;
     _stop := _stop s; released := released s;
     stdout := stdout s ++ [ResponseFrom (current_endpoint s) text];
     posts := posts s ++ [server_base s +:+ current_endpoint s];
     spoken := spoken s ++ (if truthy text then [text] else []);
     exit_code := exit_code s |}.

(** [upload_and_speak] case by case. *)
Lemma upload_and_speak_eq c s :
  upload_and_speak c s =
  (Ok tt,
   match cam c with
   | None => with_stdout [Line "Failed to capture"] s
   | Some _ =>
       match RPIClient.upload_outcome (http c) with
       | Ok text => answered text s
       | Raise e => crashed e s
       end
   end).
Proof.
  destruct (cam c) as [frame|] eqn:Hc;
    [|by apply upload_and_speak_capture_failed].
  cbv [upload_and_speak bind gets take_photo try_except requests_post lift
       as_dict print close os__exit speak modify ret raise
       RPIClient.upload_outcome RPIClient.text_of answered crashed].
  rewrite Hc.
  destruct (http c) as [resp|e]; [|reflexivity].
  destruct (raise_for_status resp) as [[]|e]; [|reflexivity].
  destruct (json_body resp) as [[| | |d]|e]; try reflexivity.
  cbv beta iota zeta.
  destruct (truthy _); simpl; by rewrite ?app_nil_r.
Qed.

(** The four endpoints the client can select. *)
Definition ENDPOINTS : list string :=
  ["/caption/en"; "/ocr/en"; "/traffic"; "/search"].

Definition well_aimed (base : string) (s : state) : Prop :=
  server_base s = base /\
  current_endpoint s ∈ ENDPOINTS /\
  Forall (fun u => exists e, e ∈ ENDPOINTS /\ u = base +:+ e) (posts s).

Lemma _handle_key_cases ch s :
  exists l e stop,
    _handle_key ch s
    = (Ok tt,
       {| server_base := server_base s; current_endpoint := e;
          _stop := stop; released := released s;
          stdout := stdout s ++ l; posts := posts s; spoken := spoken s;
          exit_code := exit_code s |}) /\
    (e = current_endpoint s \/ e ∈ ["/ocr/en"; "/traffic"; "/search"]) /\
    (stop = _stop s \/ stop = true) /\
    (lower (strip ch) = "q" -> ch <> EmptyString -> stop = true).
Proof.
  unfold _handle_key.
  destruct (decide (ch = EmptyString)) as [->|Hne].
  { exists [], (current_endpoint s), (_stop s). destruct s; simpl.
    rewrite app_nil_r. repeat split; auto. }
  repeat case_decide; cbv [bind print set_stop set_current_endpoint modify];
    eexists [_], _, _; (split; [reflexivity|]); simpl;
    (split; [first [by left|right; repeat constructor]|]);
    (split; [auto|]); congruence.
Qed.

Lemma _handle_key_well_aimed base ch s :
  well_aimed base s -> well_aimed base (snd (_handle_key ch s)).
Proof.
  intros (Hb & He & Hp).
  destruct (_handle_key_cases ch s) as (l & e & stop & -> & Hc & _).
  split; [done|]. split; simpl; [|done].
  destruct Hc as [->|Hc]; [done|]. by apply list_elem_of_further.
Qed.

Lemma wait_for_keys_cons ch ks s :
  wait_for_keys (ch :: ks) s
  = if _stop s then (Ok tt, s) else wait_for_keys ks (snd (_handle_key ch s)).
Proof.
  simpl. unfold bind at 1, gets at 1. destruct (_stop s); [done|].
  unfold bind at 1.
  by destruct (_handle_key_cases ch s) as (l & e & stop & -> & _).
Qed.

Lemma wait_for_keys_ok ks s : fst (wait_for_keys ks s) = Ok tt.
Proof.
  revert s. induction ks as [|ch ks IH]; intros s; [done|].
  rewrite wait_for_keys_cons. destruct (_stop s); [done|apply IH].
Qed.

Lemma upload_and_speak_ok c s : fst (upload_and_speak c s) = Ok tt.
Proof. by rewrite upload_and_speak_eq. Qed.

Lemma run_loop_cons c cs s :
  run_loop (c :: cs) s
  = if _stop s then (Ok tt, s)
    else match exit_code (snd (upload_and_speak c s)) with
         | Some _ => (Ok tt, snd (upload_and_speak c s))
         | None =>
             run_loop cs (snd (wait_for_keys (keys c) (snd (upload_and_speak c s))))
         end.
Proof.
  simpl. unfold bind at 1, gets at 1. destruct (_stop s); [done|].
  unfold bind at 1.
  pose proof (upload_and_speak_ok c s) as Ho.
  destruct (upload_and_speak c s) as [r s1]; simpl in *. subst r.
  unfold bind at 1, gets at 1. destruct (exit_code s1); [done|].
  unfold bind at 1.
  pose proof (wait_for_keys_ok (keys c) s1) as Hwo.
  destruct (wait_for_keys (keys c) s1) as [r s2]; simpl in *. by subst r.
Qed.

Lemma run_loop_ok cs s : fst (run_loop cs s) = Ok tt.
Proof.
  revert s. induction cs as [|c cs IH]; intros s; [done|].
  rewrite run_loop_cons. destruct (_stop s); [done|].
  destruct (exit_code _); [done|apply IH].
Qed.

Lemma main_eq cs s :
  main cs s
  = (Ok tt,
     match exit_code (snd (run_loop cs s)) with
     | Some _ => snd (run_loop cs s)
     | None => snd (close (snd (run_loop cs s)))
     end).
Proof.
  unfold main. unfold bind at 1.
  pose proof (run_loop_ok cs s) as Ho.
  destruct (run_loop cs s) as [r s1]; cbn [fst snd] in *. subst r.
  unfold bind, gets. destruct (exit_code s1); reflexivity.
Qed.

Lemma wait_for_keys_well_aimed base ks s :
  well_aimed base s -> well_aimed base (snd (wait_for_keys ks s)).
Proof.
  revert s. induction ks as [|ch ks IH]; intros s Hs; [done|].
  rewrite wait_for_keys_cons. destruct (_stop s); [done|].
  by apply IH, _handle_key_well_aimed.
Qed.

Lemma upload_and_speak_well_aimed base c s :
  well_aimed base s -> well_aimed base (snd (upload_and_speak c s)).
Proof.
  intros (Hb & He & Hp). rewrite upload_and_speak_eq. simpl.
  destruct (cam c); [|by repeat split].
  destruct (RPIClient.upload_outcome (http c));
    (split; [done|]); (split; simpl; [done|]);
    (apply Forall_app; split; [done|]); repeat constructor;
    rewrite Hb; eauto.
Qed.

Lemma run_loop_well_aimed base cs s :
  well_aimed base s -> well_aimed base (snd (run_loop cs s)).
Proof.
  revert s. induction cs as [|c cs IH]; intros s Hs; [done|].
  rewrite run_loop_cons. destruct (_stop s); [done|].
  pose proof (upload_and_speak_well_aimed base c s Hs) as Hu.
  destruct (exit_code _); [done|].
  by apply IH, wait_for_keys_well_aimed.
Qed.

(** X8: whatever the camera, the server and the keyboard do, every
    upload of the keyboard client goes to the configured server at one of
    the four endpoints [/caption/en], [/ocr/en], [/traffic], [/search];
    no key sequence can aim it elsewhere. *)
Theorem uploads_go_to_known_endpoints (cs : list cycle) :
  Forall (fun u => exists e, e ∈ ENDPOINTS /\ u = "http://specsserver.local" +:+ e)
         (posts (snd (main cs init))).
Proof.
  assert (Hi : well_aimed "http://specsserver.local" init).
  { split; [done|]. split; [repeat constructor|constructor]. }
  destruct (run_loop_well_aimed _ cs init Hi) as (_ & _ & Hp).
  rewrite main_eq. simpl. by destruct (exit_code _).
Qed.

(** ** Ways out of the loop *)

(** A process is either alive, or gone with code 1 and its camera
    released. *)
Definition alive_or_cleanly_gone (s : state) : Prop :=
  exit_code s = None \/ (exit_code s = Some 1 /\ released s = true).

Lemma wait_for_keys_keeps ks s :
  exit_code (snd (wait_for_keys ks s)) = exit_code s /\
  released (snd (wait_for_keys ks s)) = released s.
Proof.
  revert s. induction ks as [|ch ks IH]; intros s; [done|].
  rewrite wait_for_keys_cons. destruct (_stop s); [done|].
  destruct (IH (snd (_handle_key ch s))) as [-> ->].
  by destruct (_handle_key_cases ch s) as (l & e & stop & -> & _).
Qed.

Lemma run_loop_alive_or_gone cs s :
  exit_code s = None -> alive_or_cleanly_gone (snd (run_loop cs s)).
Proof.
  revert s. induction cs as [|c cs IH]; intros s Hx; [by left|].
  rewrite run_loop_cons. destruct (_stop s); [by left|].
  destruct (exit_code (snd (upload_and_speak c s))) eqn:Hx1.
  - right. rewrite upload_and_speak_eq in *. simpl in *.
    destruct (cam c); simpl in *; [|congruence].
    destruct (RPIClient.upload_outcome (http c)); simpl in *; [congruence|].
    by simplify_eq.
  - apply IH. by rewrite (proj1 (wait_for_keys_keeps _ _)).
Qed.

(** ** [main] from its first line *)

(** [s.rstrip('/')] *)
Fixpoint rstrip_slashes (s : string) : string :=
  match s with
  | EmptyString => EmptyString
  | String c s' =>
      match rstrip_slashes s' with
      | EmptyString => if decide (c = "/"%char) then EmptyString else String c EmptyString
      | r => String c r
      end
  end.

(** [SerialClient.__init__(self, server_base)]: the fields are set, and
    the constructor raises when the camera did not open; [opened] is
    [self.capture.isOpened()]. *)
Definition __init__ (base : string) (opened : bool) : M state unit :=
  modify (fun s =>
    {| server_base := rstrip_slashes base; current_endpoint := "/caption/en";
       _stop := false; released := released s;
       stdout := stdout s; posts := posts s; spoken := spoken s;
       exit_code := exit_code s |});;;
  if negb opened then raise (Exception "Could not open camera") else ret tt.

(** [main()]: the client is constructed before the [try]. *)
Definition main_entry (opened : bool) (cs : list cycle) : M state unit :=
  __init__ "http://specsserver.local" opened;;;
  main cs.

Lemma main_entry_eq opened cs s :
  main_entry opened cs s
  = if opened
    then main cs
           {| server_base := "http://specsserver.local";
              current_endpoint := "/caption/en";
              _stop := false; released := released s;
              stdout := stdout s; posts := posts s; spoken := spoken s;
              exit_code := exit_code s |}
    else (Raise (Exception "Could not open camera"),
          {| server_base := "http://specsserver.local";
             current_endpoint := "/caption/en";
             _stop := false; released := released s;
             stdout := stdout s; posts := posts s; spoken := spoken s;
             exit_code := exit_code s |}).
Proof. by destruct opened. Qed.

(** X9: [main] of the keyboard client, from its first line, in a live
    process.  When the camera cannot be opened the constructor raises
    [RuntimeError] before the [try]: [main] ends with that exception,
    nothing has been printed, uploaded or spoken, and nothing is
    released.  When the camera opens, [main] returns without raising
    whatever happens, and on every way out the camera has been released:
    either the loop ended and the [finally] closed it, or an upload
    failed and the handler closed it before exiting; the only exit code
    the process ever sets is 1. *)
Theorem main_releases_the_camera_it_opened (opened : bool) (cs : list cycle)
    (s : state) :
  exit_code s = None ->
  if opened
  then fst (main_entry opened cs s) = Ok tt /\
       released (snd (main_entry opened cs s)) = true /\
       (exit_code (snd (main_entry opened cs s)) = None \/
        exit_code (snd (main_entry opened cs s)) = Some 1)
  else fst (main_entry opened cs s) = Raise (Exception "Could not open camera") /\
       released (snd (main_entry opened cs s)) = released s /\
       stdout (snd (main_entry opened cs s)) = stdout s /\
       posts (snd (main_entry opened cs s)) = posts s /\
       spoken (snd (main_entry opened cs s)) = spoken s /\
       exit_code (snd (main_entry opened cs s)) = None.
Proof.
  intros Hx. rewrite main_entry_eq. destruct opened; [|done].
  rewrite main_eq. split; [done|]. cbn [snd].
  match goal with |- context [run_loop cs ?s0] =>
    destruct (run_loop_alive_or_gone cs s0 Hx) as [Hn|[Hs Hr]] end.
  - rewrite Hn. simpl. auto.
  - rewrite Hs. auto.
Qed.

Lemma main_releases_the_camera_it_opened_witness :
  released (snd (main_entry true press_1_once init)) = true /\
  exit_code (snd (main_entry true press_1_once init)) = None.
Proof.
  destruct (main_releases_the_camera_it_opened true press_1_once init eq_refl)
    as (_ & Hr & _).
  split; [exact Hr|]. by vm_compute.
Defined.

(** ** The quit key *)

Definition is_quit (ch : string) : Prop := lower (strip ch) = "q".

Lemma wait_for_keys_stops ks s :
  _stop s = true \/ (exists ch, ch ∈ ks /\ is_quit ch) ->
  _stop (snd (wait_for_keys ks s)) = true.
Proof.
  revert s. induction ks as [|ch ks IH]; intros s H.
  - destruct H as [H|(ch & Hin & _)]; [done|]. by apply elem_of_nil in Hin.
  - rewrite wait_for_keys_cons. destruct (_stop s) eqn:Hs; [done|].
    apply IH.
    destruct H as [H|(k & Hin & Hq)]; [done|].
    apply elem_of_cons in Hin as [->|Hin]; [left|right; eauto].
    destruct (_handle_key_cases ch s) as (l & e & stop & -> & _ & _ & Hstop).
    simpl. apply Hstop; [exact Hq|]. intros ->. by vm_compute in Hq.
Qed.

Lemma run_loop_stopped cs s : _stop s = true -> run_loop cs s = (Ok tt, s).
Proof.
  intros Hs. destruct cs as [|c cs]; [done|]. by rewrite run_loop_cons, Hs.
Qed.

(** X10: once [q] (in either case, with or without surrounding blanks)
    has been read during a wait, the cycles that would follow do not
    happen: no further photo, no further upload, whatever else was
    typed. *)
Theorem quit_key_ends_the_loop (c : cycle) (cs : list cycle) (s : state) :
  (exists ch, ch ∈ keys c /\ is_quit ch) ->
  run_loop (c :: cs) s = run_loop [c] s.
Proof.
  intros Hq. rewrite !run_loop_cons.
  destruct (_stop s); [done|]. destruct (exit_code _); [done|].
  rewrite !run_loop_stopped; [done|by apply wait_for_keys_stops; right..].
Qed.

Lemma quit_key_ends_the_loop_witness :
  run_loop ({| cam := Some frame; http := caption_reply; keys := ["x"; " Q"; "1"] |}
              :: press_1_once) init
  = run_loop [{| cam := Some frame; http := caption_reply;
                 keys := ["x"; " Q"; "1"] |}] init.
Proof.
  apply quit_key_ends_the_loop. exists " Q". split; [|by vm_compute].
  simpl. repeat constructor.
Defined.

End SerialMore.

(** * Further properties of the desktop client *)

Module DesktopMore.
Import Client DesktopFacts.
Local Open Scope py_scope.

(** The uploads a run makes, read off its turns alone: one per turn
    whose camera read succeeded, aimed by the key of that very turn, up
    to and including the turn in which Ctrl-C arrives. *)
Fixpoint expected_posts (msvcrt : bool) (ts : list turn) : list string :=
  match ts with
  | [] => []
  | CtrlC :: _ => []
  | Turn key cam _ _ :: ts' =>
      match cam with
      | Some _ => [server_base +:+ chosen_endpoint msvcrt key]
      | None => []
      end ++ expected_posts msvcrt ts'
  | TurnThenCtrlC key cam _ _ :: _ =>
      match cam with
      | Some _ => [server_base +:+ chosen_endpoint msvcrt key]
      | None => []
      end
  end.

(** Whether the upload of a turn ends in an exception: the POST
    raised, the status is an error, or the body is not a JSON object. *)
Definition upload_fails (cam : option bytes) (http : res http_response) : bool :=
  match cam with
  | None => false
  | Some _ =>
      match RPIClient.upload_outcome http with
      | Ok _ => false
      | Raise _ => true
      end
  end.

(** Whether the run ends with a Ctrl-C that arrives while the error
    handler of a failed upload is pausing. *)
Fixpoint interrupted_in_handler (ts : list turn) : bool :=
  match ts with
  | [] => false
  | CtrlC :: _ => false
  | Turn _ _ _ _ :: ts' => interrupted_in_handler ts'
  | TurnThenCtrlC _ cam http _ :: _ => upload_fails cam http
  end.

(** The body of a turn posts at most once, leaves the camera alone, and
    raises exactly when its upload fails. *)
Lemma turn_body_effect msvcrt key cam http espeak s :
  exists r s',
    turn_body msvcrt key cam http espeak s = (r, s') /\
    (if upload_fails cam http then exists e, r = Raise e else r = Ok tt) /\
    posts s' = posts s ++ match cam with
                          | Some _ => [server_base +:+ chosen_endpoint msvcrt key]
                          | None => []
                          end /\
    released s' = released s.
Proof.
  cbv [turn_body bind take_photo upload_photo print modify ret lift
       as_dict raise speak_caption chosen_endpoint upload_fails
       RPIClient.upload_outcome].
  destruct (user_pressed_d msvcrt key), cam as [frame|];
    try (eexists _, _; split; [reflexivity|]; simpl; by rewrite ?app_nil_r);
    (destruct http as [resp|e];
      [|eexists _, _; split; [reflexivity|]; simpl; eauto]);
    (destruct (raise_for_status resp) as [[]|e];
      [|eexists _, _; split; [reflexivity|]; simpl; eauto]);
    (destruct (json_body resp) as [[| | |d]|e];
      try (eexists _, _; split; [reflexivity|]; simpl; by eauto));
    cbv beta iota zeta;
    destruct (truthy _), espeak;
    eexists _, _; (split; [reflexivity|]); by simpl.
Qed.

(** One turn never raises out of its [try], posts at most once and
    leaves the camera alone. *)
Lemma turn_effect msvcrt key cam http espeak s :
  exists s',
    try_except (turn_body msvcrt key cam http espeak) (fun e => print (Error e)) s
      = (Ok tt, s') /\
    posts s' = posts s ++ match cam with
                          | Some _ => [server_base +:+ chosen_endpoint msvcrt key]
                          | None => []
                          end /\
    released s' = released s.
Proof.
  destruct (turn_body_effect msvcrt key cam http espeak s)
    as (r & s' & Hb & Hr & Hp & Hrel).
  unfold try_except. rewrite Hb.
  destruct r as [[]|e]; [by exists s'|].
  eexists. split; [reflexivity|]. by simpl.
Qed.

Lemma loop_cons msvcrt key cam http espeak ts s :
  loop msvcrt (Turn key cam http espeak :: ts) s
  = loop msvcrt ts
      (snd (try_except (turn_body msvcrt key cam http espeak)
                       (fun e => print (Error e)) s)).
Proof.
  simpl. unfold bind at 1.
  by destruct (turn_effect msvcrt key cam http espeak s) as (s' & -> & _).
Qed.

(** The turn in which Ctrl-C arrives during the closing pause. *)
Lemma loop_interrupted msvcrt key cam http espeak ts s :
  fst (loop msvcrt (TurnThenCtrlC key cam http espeak :: ts) s)
  = (if upload_fails cam http then Raise (Exception "KeyboardInterrupt") else Ok tt) /\
  posts (snd (loop msvcrt (TurnThenCtrlC key cam http espeak :: ts) s))
  = posts s ++ match cam with
               | Some _ => [server_base +:+ chosen_endpoint msvcrt key]
               | None => []
               end /\
  released (snd (loop msvcrt (TurnThenCtrlC key cam http espeak :: ts) s))
  = released s.
Proof.
  destruct (turn_body_effect msvcrt key cam http espeak s)
    as (r & s' & Hb & Hr & Hp & Hrel).
  assert (E : loop msvcrt (TurnThenCtrlC key cam http espeak :: ts) s
              = match r with
                | Ok _ => print (Line "Exiting client.") s'
                | Raise e => (Raise (Exception "KeyboardInterrupt"),
                              snd (print (Error e) s'))
                end).
  { cbn [loop]. cbv [bind try_except ret raise]. rewrite Hb.
    by destruct r as [[]|e]. }
  rewrite E. destruct (upload_fails cam http).
  - destruct Hr as [e ->]. by simpl.
  - subst r. by simpl.
Qed.

Lemma loop_effect msvcrt ts s :
  fst (loop msvcrt ts s)
  = (if interrupted_in_handler ts then Raise (Exception "KeyboardInterrupt")
     else Ok tt) /\
  posts (snd (loop msvcrt ts s)) = posts s ++ expected_posts msvcrt ts /\
  released (snd (loop msvcrt ts s)) = released s.
Proof.
  revert s.
  induction ts as [|[key cam http espeak| |key cam http espeak] ts IH]; intros s.
  - simpl. by rewrite app_nil_r.
  - rewrite loop_cons.
    destruct (turn_effect msvcrt key cam http espeak s) as (s' & -> & Hp & Hr).
    cbn [snd expected_posts interrupted_in_handler].
    destruct (IH s') as (-> & -> & ->).
    by rewrite Hp, Hr, app_assoc.
  - simpl. by rewrite app_nil_r.
  - apply loop_interrupted.
Qed.

(** X11: the [d] override of [client.py] is one-shot: the uploads of a
    run are exactly one per turn whose camera read succeeded, up to the
    first Ctrl-C, each aimed by the key pressed in that very turn
    ([/traffic] when it is [d] or [D] and the console can be polled,
    [/caption/en] otherwise); no key has an effect on a later turn, and
    neither a failed read nor a failed upload stops the turns that
    follow. *)
Theorem override_lasts_one_turn (msvcrt : bool) (ts : list turn) (s : state) :
  posts (snd (loop msvcrt ts s)) = posts s ++ expected_posts msvcrt ts.
Proof. apply loop_effect. Qed.

(** X12: [main] of [client.py].  A Ctrl-C that arrives inside the
    [try] of a turn ends the loop and [main] returns; one that arrives
    while the error handler of a failed upload is pausing is caught by
    nothing and leaves [main] as [KeyboardInterrupt]; without such an
    interrupt [main] does not raise.  In every case, when the camera
    could be opened it is released on the way out, after the uploads of
    the run; when it could not, [main] returns and nothing is
    uploaded. *)
Theorem desktop_main_releases_camera (msvcrt opened : bool) (ts : list turn)
    (s : state) :
  fst (main msvcrt opened ts s)
  = (if opened && interrupted_in_handler ts
     then Raise (Exception "KeyboardInterrupt") else Ok tt) /\
  (if opened
   then released (snd (main msvcrt opened ts s)) = true /\
        posts (snd (main msvcrt opened ts s)) = posts s ++ expected_posts msvcrt ts
   else released (snd (main msvcrt opened ts s)) = released s /\
        posts (snd (main msvcrt opened ts s)) = posts s).
Proof.
  destruct opened; [|done].
  cbv [main bind print modify try_finally try_except capture_release negb andb].
  match goal with |- context [loop msvcrt ts ?s0] =>
    destruct (loop_effect msvcrt ts s0) as (Ho & Hp & _);
    destruct (loop msvcrt ts s0) as [r s1] end.
  simpl in *. by subst r.
Qed.

(** A refused upload, and Ctrl-C while its error handler pauses: the
    interrupt leaves [main], and the camera has been released. *)
Example desktop_ctrl_c_in_handler :
  fst (main true true
         [TurnThenCtrlC None (Some [Byte.x01]) FailurePolicy.refused true] init)
  = Raise (Exception "KeyboardInterrupt") /\
  released (snd (main true true
         [TurnThenCtrlC None (Some [Byte.x01]) FailurePolicy.refused true] init))
  = true.
Proof. by vm_compute. Qed.

Example desktop_d_then_nothing :
  posts (snd (loop true
                [Turn (Some (Ok "D")) (Some [Byte.x01]) FailurePolicy.refused true;
                 Turn None (Some [Byte.x01]) FailurePolicy.refused true;
                 Turn (Some (Ok "d")) None FailurePolicy.refused true;
                 CtrlC;
                 Turn None (Some [Byte.x01]) FailurePolicy.refused true] init))
  = ["http://specsserver.local/traffic"; "http://specsserver.local/caption/en"].
Proof. by vm_compute. Qed.

End DesktopMore.

(** * Further properties of the GPIO client *)

Module RPIMore.
Import RPIClient RPIFacts.

(** ** Presses and threads *)

(** The presses of a schedule that fall on a pin of the table. *)
Fixpoint mapped_presses (schedule : list action) : list string :=
  match schedule with
  | [] => []
  | Press pin :: l =>
      match mapping_get pin mapping with
      | Some e => e :: mapped_presses l
      | None => mapped_presses l
      end
  | Run _ _ _ :: l => mapped_presses l
  end.

Lemma set_pc_endpoints t p σ :
  endpoint <$> set_pc t p σ = endpoint <$> threads σ.
Proof.
  unfold set_pc. destruct (threads σ !! t) as [th|] eqn:Ht; [|done].
  rewrite list_fmap_insert. simpl. apply list_insert_id.
  by rewrite list_lookup_fmap, Ht.
Qed.

Lemma step_endpoints a σ :
  endpoint <$> threads (step a σ)
  = (endpoint <$> threads σ) ++ mapped_presses [a].
Proof.
  destruct a as [pin|t cam http]; unfold step; cbn [mapped_presses].
  - destruct (mapping_get pin mapping); cbn [threads].
    + by rewrite fmap_app.
    + by rewrite app_nil_r.
  - rewrite app_nil_r.
    destruct (threads σ !! t) as [th|]; [|done].
    repeat case_match; cbn [threads]; try done; apply set_pc_endpoints.
Qed.

Lemma mapped_presses_app l1 l2 :
  mapped_presses (l1 ++ l2) = mapped_presses l1 ++ mapped_presses l2.
Proof.
  induction l1 as [|[pin|t c h] l1 IH]; cbn [mapped_presses app]; [done| |done].
  destruct (mapping_get pin mapping); by rewrite IH.
Qed.

Lemma run_endpoints schedule σ :
  endpoint <$> threads (run schedule σ)
  = (endpoint <$> threads σ) ++ mapped_presses schedule.
Proof.
  revert σ. induction schedule as [|a l IH]; intros σ.
  - simpl. by rewrite app_nil_r.
  - change (run (a :: l) σ) with (run l (step a σ)).
    rewrite IH, step_endpoints, <- app_assoc.
    by rewrite <- mapped_presses_app.
Qed.

(** At any point of any run the threads are, in order, one per call of
    a callback, each aimed at the endpoint of its pin for good: no step
    of a thread changes any aim.  (An edge that GPIO does not report,
    within the 300 ms of [bouncetime] or on a pin whose
    [add_event_detect] failed, calls no callback and is no action of
    the model.) *)
Lemma threads_follow_callbacks (schedule : list action) :
  endpoint <$> threads (run schedule init) = mapped_presses schedule /\
  Forall (fun e => e ∈ ["/ocr/en"; "/traffic"; "/search"]) (mapped_presses schedule).
Proof.
  split; [by rewrite run_endpoints|].
  induction schedule as [|[pin|t c h] l IH]; simpl; [constructor| |done].
  unfold mapping. simpl.
  repeat case_decide; try done; constructor; try done; repeat constructor.
Qed.

Example two_presses_threads :
  endpoint <$> threads (run (Press 7 :: two_presses) init) = ["/ocr/en"; "/traffic"].
Proof. by vm_compute. Qed.

(** ** Progress *)

(** The statements [capture_and_send] still has to run from [p]. *)
Definition remaining (p : pc) : nat :=
  match p with
  | Waiting => 7 | Locked => 6 | Reading => 5 | ReadDone _ => 4
  | Unlocked _ => 3 | Uploading => 2 | Speaking _ => 1 | Done => 0
  end.

(** Thread [t] is not kept waiting: it holds the lock if it is inside
    the [with] block, and the lock is free otherwise. *)
Definition unhindered (t : nat) (σ : sys) : Prop :=
  exists th, threads σ !! t = Some th /\
    capture_lock σ = if in_with (at_pc th) then Some t else None.

Lemma step_unhindered t cam http σ n :
  unhindered t σ ->
  (forall th, threads σ !! t = Some th -> remaining (at_pc th) <= S n)%nat ->
  unhindered t (step (Run t cam http) σ) /\
  (forall th, threads (step (Run t cam http) σ) !! t = Some th ->
     remaining (at_pc th) <= n)%nat.
Proof.
  intros (th & Ht & Hl) Hn. specialize (Hn th Ht).
  assert (Hmoved : forall p σ',
    threads σ' = set_pc t p σ ->
    capture_lock σ' = (if in_with p then Some t else None) ->
    (remaining p <= n)%nat ->
    unhindered t σ' /\
    (forall th', threads σ' !! t = Some th' -> remaining (at_pc th') <= n)%nat).
  { intros p σ' Hth Hlk Hr. split.
    - eexists. split; [rewrite Hth; by apply (set_pc_eq t p σ th)|]. by simpl.
    - intros th'. rewrite Hth, (set_pc_eq t p σ th Ht). by intros [= <-]. }
  unfold step. rewrite Ht.
  destruct (at_pc th) as [| | |ok|[]| |text|] eqn:Hpc; simpl in Hl, Hn.
  - rewrite Hl. apply (Hmoved Locked); [done..|simpl; lia].
  - apply (Hmoved Reading); [done..|simpl; lia].
  - apply (Hmoved (ReadDone (bool_decide (is_Some cam)))); [done..|simpl; lia].
  - apply (Hmoved (Unlocked ok)); [done..|simpl; lia].
  - apply (Hmoved Uploading); [done..|simpl; lia].
  - apply (Hmoved Done); [done..|simpl; lia].
  - destruct (upload_outcome http) as [text|e].
    + apply (Hmoved (if truthy text then Speaking text else Done)); [done|..];
        destruct (truthy text); simpl; try done; lia.
    + apply (Hmoved Done); [done..|simpl; lia].
  - apply (Hmoved Done); [done..|simpl; lia].
  - split.
    + exists th. split; [done|]. by rewrite Hpc.
    + intros th' Ht'. simplify_eq. rewrite Hpc. simpl. lia.
Qed.

Definition alone (t : nat) (inputs : list (option bytes * res http_response))
    : list action :=
  map (fun i => Run t (fst i) (snd i)) inputs.

Lemma run_alone t inputs σ :
  unhindered t σ ->
  (forall th, threads σ !! t = Some th -> remaining (at_pc th) <= length inputs)%nat ->
  unhindered t (run (alone t inputs) σ) /\
  (forall th, threads (run (alone t inputs) σ) !! t = Some th -> at_pc th = Done).
Proof.
  revert σ. induction inputs as [|[c h] l IH]; intros σ Hu Hn.
  - split; [done|]. intros th Ht. specialize (Hn th Ht). simpl in Hn.
    destruct (at_pc th); simpl in Hn; try lia. done.
  - destruct (step_unhindered t c h σ (length l) Hu Hn) as [Hu' Hn'].
    by apply IH.
Qed.

(** X14: [capture_and_send] cannot get stuck on its own: from any
    reachable state in which the lock is free or held by thread [t],
    seven steps of [t], whatever the camera and the server answer, bring
    [t] to its end with the lock free.  The holder of the lock is never
    the one who waits. *)
Theorem unhindered_thread_finishes (schedule : list action) (t : nat)
    (th : thread) (inputs : list (option bytes * res http_response)) :
  threads (run schedule init) !! t = Some th ->
  (capture_lock (run schedule init) = None \/
   capture_lock (run schedule init) = Some t) ->
  length inputs = 7%nat ->
  capture_lock (run (schedule ++ alone t inputs) init) = None /\
  exists th', threads (run (schedule ++ alone t inputs) init) !! t = Some th' /\
              at_pc th' = Done /\ endpoint th' = endpoint th.
Proof.
  intros Ht Hl Hlen.
  assert (HI : Inv (run schedule init)) by apply run_inv, init_inv.
  assert (Hu : unhindered t (run schedule init)).
  { exists th. split; [done|].
    destruct (in_with (at_pc th)) eqn:Hin.
    - by apply (inv_with _ HI t th Ht).
    - destruct Hl as [Hl|Hl]; [done|].
      apply (inv_with _ HI t th Ht) in Hl. congruence. }
  unfold run. rewrite foldl_app. fold (run schedule init).
  fold (run (alone t inputs) (run schedule init)).
  destruct (run_alone t inputs (run schedule init) Hu) as [(th' & Ht' & Hl') Hd].
  { intros th0 Ht0. rewrite Hlen. destruct (at_pc th0); simpl; lia. }
  pose proof (Hd th' Ht') as Hdone. rewrite Hdone in Hl'. simpl in Hl'.
  split; [exact Hl'|]. exists th'. split; [exact Ht'|]. split; [exact Hdone|].
  pose proof (run_endpoints (alone t inputs) (run schedule init)) as He.
  assert (Hnone : mapped_presses (alone t inputs) = []).
  { clear. induction inputs; simpl; auto. }
  rewrite Hnone, app_nil_r in He.
  assert (Some (endpoint th') = Some (endpoint th)) as [= ->]; [|done].
  rewrite <- (list_lookup_fmap_Some_2 endpoint _ t th' Ht').
  rewrite He. by apply list_lookup_fmap_Some_2.
Qed.

Lemma unhindered_thread_finishes_witness :
  capture_lock
    (run ([Press 5; Run 0 None ok_reply; Run 0 None ok_reply]
          ++ alone 0 (replicate 7 (Some [Byte.x01], ok_reply))) init) = None.
Proof.
  exact (proj1 (unhindered_thread_finishes
                  [Press 5; Run 0 None ok_reply; Run 0 None ok_reply] 0
                  {| endpoint := "/ocr/en"; at_pc := Reading |}
                  (replicate 7 (Some [Byte.x01], ok_reply))
                  eq_refl (or_intror eq_refl) eq_refl)).
Defined.

End RPIMore.

(** * Speech output: [speak] in [client_RPI_serial.py] and [client_RPI.py]

    Both scripts carry their own [speak], built from the same three
    strategies (the [espeak] program, gTTS with a player, [print]) tried
    in a different order and with a different reading of [espeak]'s exit
    code. *)

Module Speech.
Local Open Scope py_scope.

(** The machine the client runs on. *)
Record audio : Type := {
  espeak : option Z;              (* exit code; [None]: not installed *)
  gtts_imported : bool;           (* [gTTS] and [playsound] were imported *)
  gTTS_new : string -> res unit;  (* [gTTS(text=text, lang='en')] *)
  tts_save : string -> res unit;  (* [tts.save(path)] *)
  which : string -> bool;         (* [shutil.which(cmd)] finds [cmd] *)
  player_run : list string -> res Z;   (* [subprocess.run(argv, check=False)] *)
  playsound : string -> res unit;
  mkstemp_name : gset string -> string;
}.

(** What reaches the loudspeaker or the terminal. *)
Inductive output : Type :=
| Espeak (text : string)
| Player (argv : list string)
| Playsound (path : string)
| Print (text : string).

Record state : Type := mkState {
  files : gset string;
  out : list output;
}.

Definition emit (o : output) : M state unit :=
  modify (fun s => {| files := files s; out := out s ++ [o] |}).

Section WithAudio.
Variable A : audio.

(** [subprocess.run(['espeak', text], check=check)]: the program must
    exist; with [check] a non-zero exit raises after it has run. *)
Definition run_espeak (text : string) (check : bool) : M state unit :=
  match espeak A with
  | None => raise (Exception "No such file or directory: 'espeak'")
  | Some code =>
      emit (Espeak text);;;
      if check && negb (bool_decide (code = 0))
      then raise (Exception "Command returned non-zero exit status")
      else ret tt
  end.

(** [fd, path = tempfile.mkstemp(suffix='.mp3'); os.close(fd)] *)
Definition mkstemp : M state string :=
  path <- gets (fun s => mkstemp_name A (files s));;
  modify (fun s => {| files := {[path]} ∪ files s; out := out s |});;;
  ret path.

Definition os_remove (path : string) : M state unit :=
  fun s =>
    if decide (path ∈ files s)
    then (Ok tt, {| files := files s ∖ {[path]}; out := out s |})
    else (Raise (Exception "FileNotFoundError"), s).

Definition remove_quietly (path : string) : M state unit :=
  try_except (os_remove path) (fun _ => ret tt).

(** The first of the four players that is installed. *)
Definition find_player : option string :=
  List.find (which A) ["mpg123"; "mpv"; "omxplayer"; "ffplay"].

Definition player_argv (player path : string) : list string :=
  if decide (player = "omxplayer") then [player; path; "-o"; "local"]
  else if decide (player = "ffplay")
       then [player; "-nodisp"; "-autoexit"; "-loglevel"; "quiet"; path]
       else [player; path].

Definition run_player (player path : string) : M state unit :=
  emit (Player (player_argv player path));;;
  lift (player_run A (player_argv player path));;;
  ret tt.

Definition run_playsound (path : string) : M state unit :=
  emit (Playsound path);;;
  lift (playsound A path).

End WithAudio.

(** [speak] of [client_RPI_serial.py]; the [bool] of the inner blocks
    tells whether the function has returned. *)
Module Serial.

Definition gtts_block (A : audio) (text : string) : M state bool :=
  try_except
    (if gtts_imported A then
       lift (gTTS_new A text);;;
       path <- mkstemp A;;
       try_finally
         (lift (tts_save A path);;;
          match find_player A with
          | Some player => run_player A player path
          | None => run_playsound A path
          end)
         (remove_quietly path);;;
       ret true
     else ret false)
    (fun _ => ret false).

Definition speak (A : audio) (text : string) : M state unit :=
  if decide (text = EmptyString) then ret tt
  else
    returned <- try_except (run_espeak A text true;;; ret true)
                           (fun _ => ret false);;
    if returned : bool then ret tt
    else
      returned <- gtts_block A text;;
      if returned : bool then ret tt
      else emit (Print text).

End Serial.

(** [speak] of [client_RPI.py]. *)
Module RPI.

Definition gtts_block (A : audio) (text : string) : M state bool :=
  try_except
    (if gtts_imported A then
       lift (gTTS_new A text);;;
       path <- mkstemp A;;
       try_finally
         (lift (tts_save A path);;; run_playsound A path)
         (remove_quietly path);;;
       ret true
     else ret false)
    (fun _ => ret false).

Definition speak (A : audio) (text : string) : M state unit :=
  if decide (text = EmptyString) then ret tt
  else
    returned <- gtts_block A text;;
    if returned : bool then ret tt
    else
      returned <- try_except (run_espeak A text false;;; ret true)
                             (fun _ => ret false);;
      if returned : bool then ret tt
      else emit (Print text).

End RPI.

(** A Pi with [espeak] and [mpg123], and gTTS imported but offline. *)
Definition offline_pi : audio :=
  {| espeak := Some 1;
     gtts_imported := true;
     gTTS_new := fun _ => Ok tt;
     tts_save := fun _ => Raise (Exception "Failed to connect");
     which := fun cmd => bool_decide (cmd = "mpg123");
     player_run := fun _ => Ok 0;
     playsound := fun _ => Ok tt;
     mkstemp_name := fun _ => "/tmp/tmpq7.mp3" |}.

Definition quiet : state := {| files := ∅; out := [] |}.

End Speech.

Module SpeechFacts.
Import Speech.
Local Open Scope py_scope.

Definition is_ok {T} (r : res T) : bool :=
  match r with Ok _ => true | Raise _ => false end.

(** Whether the gTTS strategy runs to its [return], on a machine [A]
    whose next temporary name is [path]. *)
Definition gtts_completes_serial (A : audio) (text path : string) : bool :=
  gtts_imported A && is_ok (gTTS_new A text) && is_ok (tts_save A path) &&
  match find_player A with
  | Some player => is_ok (player_run A (player_argv player path))
  | None => is_ok (playsound A path)
  end.

Definition gtts_completes_rpi (A : audio) (text path : string) : bool :=
  gtts_imported A && is_ok (gTTS_new A text) && is_ok (tts_save A path) &&
  is_ok (playsound A path).

Definition no_print (l : list output) : Prop := forall t, Print t ∉ l.

Lemma no_print_nil : no_print [].
Proof. intros t H. by apply elem_of_nil in H. Qed.

Lemma no_print_cons o l : (forall t, o <> Print t) -> no_print l -> no_print (o :: l).
Proof.
  intros Ho Hl t H. apply elem_of_cons in H as [H|H]; [by apply (Ho t)|by apply (Hl t)].
Qed.

Ltac solve_no_print :=
  repeat (apply no_print_cons; [intros ?; discriminate|]); apply no_print_nil.

Lemma created_then_removed (path : string) (X : gset string) :
  path ∉ X -> ({[path]} ∪ X) ∖ {[path]} = X.
Proof. intros H. apply set_eq. intros x. rewrite elem_of_difference, elem_of_union,
  elem_of_singleton. split; [intros [[->|?] ?]; done|]. intros Hx. split; [by right|].
  intros ->. done. Qed.

Ltac settle :=
  try (case_decide;
       [|exfalso; match goal with H : _ ∉ _ |- _ => apply H end;
         apply elem_of_union; left; by apply elem_of_singleton]).

Ltac no_more :=
  settle; eexists _, []; (split; [reflexivity|]); cbn [files out];
  (split; [first [done|apply created_then_removed]|]);
  (split; [by rewrite app_nil_r|apply no_print_nil]).

Ltac one_more :=
  settle; eexists _, [_]; (split; [reflexivity|]); cbn [files out];
  (split; [first [done|apply created_then_removed]|]);
  (split; [reflexivity|solve_no_print]).

Lemma serial_gtts_block_spec A text s :
  exists s' l,
    Serial.gtts_block A text s
      = (Ok (gtts_completes_serial A text (mkstemp_name A (files s))), s') /\
    (mkstemp_name A (files s) ∉ files s -> files s' = files s) /\
    out s' = out s ++ l /\ no_print l.
Proof.
  destruct s as [F O].
  unfold Serial.gtts_block, gtts_completes_serial.
  destruct (find_player A) as [player|];
    cbv [try_except try_finally bind lift mkstemp gets modify ret run_player
         run_playsound emit remove_quietly os_remove is_ok];
    simpl;
    (destruct (gtts_imported A); simpl; [|no_more]);
    (destruct (gTTS_new A text) as [[]|e]; simpl; [|no_more]);
    (destruct (tts_save A _) as [[]|e]; simpl; [|no_more]).
  - destruct (player_run A _) as [code|e]; one_more.
  - destruct (playsound A _) as [[]|e]; one_more.
Qed.

Lemma rpi_gtts_block_spec A text s :
  exists s' l,
    RPI.gtts_block A text s
      = (Ok (gtts_completes_rpi A text (mkstemp_name A (files s))), s') /\
    (mkstemp_name A (files s) ∉ files s -> files s' = files s) /\
    out s' = out s ++ l /\ no_print l.
Proof.
  destruct s as [F O].
  cbv [RPI.gtts_block gtts_completes_rpi try_except try_finally bind lift
       mkstemp gets modify ret run_playsound emit remove_quietly
       os_remove is_ok].
  simpl.
  destruct (gtts_imported A); simpl; [|no_more].
  destruct (gTTS_new A text) as [[]|e]; simpl; [|no_more].
  destruct (tts_save A _) as [[]|e]; simpl; [|no_more].
  destruct (playsound A _) as [[]|e]; one_more.
Qed.

(** The state after [espeak] has run. *)
Definition heard (text : string) (s : state) : state :=
  {| files := files s; out := out s ++ [Espeak text] |}.

Lemma serial_speak_eq A text s :
  text <> EmptyString ->
  Serial.speak A text s =
  match espeak A with
  | Some 0 => (Ok tt, heard text s)
  | o =>
      let s1 := if o is Some _ then heard text s else s in
      let (r, s2) := Serial.gtts_block A text s1 in
      match r with
      | Ok true => (Ok tt, s2)
      | Ok false => emit (Print text) s2
      | Raise e => (Raise e, s2)
      end
  end.
Proof.
  intros Hne. unfold Serial.speak.
  destruct (decide (text = EmptyString)); [done|].
  cbv [bind try_except run_espeak emit modify raise ret].
  destruct (espeak A) as [code|]; [|by destruct (Serial.gtts_block A text s) as [[[]|]]].
  fold (heard text s).
  destruct code as [|c|c]; simpl; try reflexivity;
    by destruct (Serial.gtts_block A text (heard text s)) as [[[]|]].
Qed.

Lemma rpi_speak_eq A text s :
  text <> EmptyString ->
  RPI.speak A text s =
  let (r, s1) := RPI.gtts_block A text s in
  match r with
  | Ok true => (Ok tt, s1)
  | Ok false =>
      match espeak A with
      | Some _ => (Ok tt, heard text s1)
      | None => emit (Print text) s1
      end
  | Raise e => (Raise e, s1)
  end.
Proof.
  intros Hne. unfold RPI.speak.
  destruct (decide (text = EmptyString)); [done|].
  unfold bind at 1.
  destruct (RPI.gtts_block A text s) as [[[]|] s1]; try reflexivity.
  cbv [bind try_except run_espeak emit modify raise ret].
  by destruct (espeak A).
Qed.

(** X15: [speak] cannot fail and leaves nothing behind: in both
    clients it returns normally on every machine, whatever is installed
    and whatever raises, and the temporary [.mp3] it may have created is
    gone; an empty text does nothing at all. *)
Theorem speak_never_fails (A : audio) (text : string) (s : state) :
  mkstemp_name A (files s) ∉ files s ->
  fst (Serial.speak A text s) = Ok tt /\
  files (snd (Serial.speak A text s)) = files s /\
  fst (RPI.speak A text s) = Ok tt /\
  files (snd (RPI.speak A text s)) = files s /\
  (text = EmptyString ->
   snd (Serial.speak A text s) = s /\ snd (RPI.speak A text s) = s).
Proof.
  intros Hfresh.
  destruct (decide (text = EmptyString)) as [->|Hne]; [by repeat split|].
  rewrite serial_speak_eq, rpi_speak_eq by done.
  assert (Hs : fst (let (r, s2) := Serial.gtts_block A text s in
                    match r with
                    | Ok true => (Ok tt, s2)
                    | Ok false => emit (Print text) s2
                    | Raise e => (Raise e, s2)
                    end) = Ok tt /\
               files (snd (let (r, s2) := Serial.gtts_block A text s in
                    match r with
                    | Ok true => (Ok tt, s2)
                    | Ok false => emit (Print text) s2
                    | Raise e => (Raise e, s2)
                    end)) = files s).
  { destruct (serial_gtts_block_spec A text s) as (s' & l & -> & Hf & _).
    destruct (gtts_completes_serial _ _ _); simpl; auto. }
  assert (Hh : fst (let (r, s2) := Serial.gtts_block A text (heard text s) in
                    match r with
                    | Ok true => (Ok tt, s2)
                    | Ok false => emit (Print text) s2
                    | Raise e => (Raise e, s2)
                    end) = Ok tt /\
               files (snd (let (r, s2) := Serial.gtts_block A text (heard text s) in
                    match r with
                    | Ok true => (Ok tt, s2)
                    | Ok false => emit (Print text) s2
                    | Raise e => (Raise e, s2)
                    end)) = files s).
  { destruct (serial_gtts_block_spec A text (heard text s)) as (s' & l & -> & Hf & _).
    destruct (gtts_completes_serial _ _ _); simpl; auto. }
  assert (Hr : fst (let (r, s1) := RPI.gtts_block A text s in
                    match r with
                    | Ok true => (Ok tt, s1)
                    | Ok false =>
                        match espeak A with
                        | Some _ => (Ok tt, heard text s1)
                        | None => emit (Print text) s1
                        end
                    | Raise e => (Raise e, s1)
                    end) = Ok tt /\
               files (snd (let (r, s1) := RPI.gtts_block A text s in
                    match r with
                    | Ok true => (Ok tt, s1)
                    | Ok false =>
                        match espeak A with
                        | Some _ => (Ok tt, heard text s1)
                        | None => emit (Print text) s1
                        end
                    | Raise e => (Raise e, s1)
                    end)) = files s).
  { destruct (rpi_gtts_block_spec A text s) as (s' & l & -> & Hf & _).
    destruct (gtts_completes_rpi _ _ _), (espeak A); simpl; auto. }
  destruct Hs as [Hs1 Hs2], Hh as [Hh1 Hh2], Hr as [Hr1 Hr2].
  split; [|split; [|split; [exact Hr1|split; [exact Hr2|done]]]].
  - destruct (espeak A) as [[|c|c]|]; simpl; auto.
  - destruct (espeak A) as [[|c|c]|]; simpl; auto.
Qed.

Lemma speak_never_fails_witness :
  fst (Serial.speak offline_pi "a dog running" quiet) = Ok tt /\
  files (snd (Serial.speak offline_pi "a dog running" quiet)) = files quiet.
Proof.
  assert (Hf : mkstemp_name offline_pi (files quiet) ∉ files quiet).
  { simpl. apply not_elem_of_empty. }
  destruct (speak_never_fails offline_pi "a dog running" quiet Hf) as (H1 & H2 & _).
  by split.
Defined.

Lemma print_in_snoc text l : Print text ∈ l ++ [Print text].
Proof. apply elem_of_app. right. constructor. Qed.

Lemma no_print_heard text t l : no_print l -> Print t ∉ Espeak text :: l.
Proof. intros Hl. by apply no_print_cons. Qed.

(** X16: printing is the last resort, and the two clients differ on
    when it is reached.  In the keyboard client the text is printed
    exactly when [espeak] is missing or exits with a non-zero code and
    the gTTS strategy does not run to its end; in the GPIO client exactly
    when the gTTS strategy does not run to its end and [espeak] is
    missing: there an [espeak] that fails still counts as having
    spoken. *)
Theorem print_is_the_last_resort (A : audio) (text : string) (s : state) :
  text <> EmptyString ->
  (exists l, out (snd (Serial.speak A text s)) = out s ++ l /\
     (Print text ∈ l <->
      espeak A <> Some 0 /\
      gtts_completes_serial A text (mkstemp_name A (files s)) = false)) /\
  (exists l, out (snd (RPI.speak A text s)) = out s ++ l /\
     (Print text ∈ l <->
      espeak A = None /\
      gtts_completes_rpi A text (mkstemp_name A (files s)) = false)).
Proof.
  intros Hne. rewrite serial_speak_eq, rpi_speak_eq by done. split.
  - destruct (espeak A) as [code|] eqn:He.
    + destruct (serial_gtts_block_spec A text (heard text s))
        as (s' & l & Hb & _ & Ho & Hl).
      simpl in Hb, Ho.
      destruct (decide (code = 0)) as [->|Hc].
      { exists [Espeak text]. split; [done|]. split; [|by intros [[] _]].
        intros H. apply list_elem_of_singleton in H. discriminate. }
      assert (Hgo :
        (match code with
         | 0 => (Ok tt, heard text s)
         | _ => let (r, s2) := Serial.gtts_block A text (heard text s) in
                match r with
                | Ok true => (Ok tt, s2)
                | Ok false => emit (Print text) s2
                | Raise e => (Raise e, s2)
                end
         end)
        = (let (r, s2) := Serial.gtts_block A text (heard text s) in
           match r with
           | Ok true => (Ok tt, s2)
           | Ok false => emit (Print text) s2
           | Raise e => (Raise e, s2)
           end)) by by destruct code.
      cbv zeta. rewrite Hgo, Hb.
      destruct (gtts_completes_serial A text _) eqn:Hg.
      * exists (Espeak text :: l). simpl. rewrite Ho, <- app_assoc.
        split; [done|]. split; [|by intros [_ ?]].
        intros H. by apply (no_print_heard _ text) in H.
      * exists (Espeak text :: l ++ [Print text]). simpl.
        rewrite Ho, <- !app_assoc. split; [done|].
        split; [intros _; split; [congruence|done]|intros _].
        apply elem_of_cons. right. apply print_in_snoc.
    + destruct (serial_gtts_block_spec A text s) as (s' & l & Hb & _ & Ho & Hl).
      cbv zeta. rewrite Hb.
      destruct (gtts_completes_serial A text _) eqn:Hg.
      * exists l. split; [done|]. split; [intros H; by apply Hl in H|by intros [_ ?]].
      * exists (l ++ [Print text]). simpl. rewrite Ho, <- app_assoc.
        split; [done|]. split; [done|intros _; apply print_in_snoc].
  - destruct (rpi_gtts_block_spec A text s) as (s' & l & Hb & _ & Ho & Hl).
    rewrite Hb.
    destruct (gtts_completes_rpi A text _) eqn:Hg.
    + exists l. split; [done|]. split; [intros H; by apply Hl in H|by intros [_ ?]].
    + destruct (espeak A) as [code|].
      * exists (l ++ [Espeak text]). simpl. rewrite Ho, <- app_assoc.
        split; [done|]. split; [|by intros [? _]].
        intros H. apply elem_of_app in H as [H|H]; [by apply Hl in H|].
        apply list_elem_of_singleton in H. discriminate.
      * exists (l ++ [Print text]). simpl. rewrite Ho, <- app_assoc.
        split; [done|]. split; [done|intros _; apply print_in_snoc].
Qed.

Lemma print_is_the_last_resort_witness :
  (exists l, out (snd (Serial.speak offline_pi "a dog running" quiet)) = out quiet ++ l /\
     Print "a dog running" ∈ l) /\
  (exists l, out (snd (RPI.speak offline_pi "a dog running" quiet)) = out quiet ++ l /\
     Print "a dog running" ∉ l).
Proof.
  assert (Hne : "a dog running" <> EmptyString) by discriminate.
  destruct (print_is_the_last_resort offline_pi "a dog running" quiet Hne)
    as [(l1 & H1 & Hp1) (l2 & H2 & Hp2)].
  split.
  - exists l1. split; [exact H1|]. apply Hp1. split; [discriminate|reflexivity].
  - exists l2. split; [exact H2|]. intros H. apply Hp2 in H as [H _]. discriminate.
Defined.

Example offline_pi_outputs :
  out (snd (Serial.speak offline_pi "a dog running" quiet))
    = [Espeak "a dog running"; Print "a dog running"] /\
  out (snd (RPI.speak offline_pi "a dog running" quiet))
    = [Espeak "a dog running"].
Proof. by vm_compute. Qed.

End SpeechFacts.

(** * The preview script: [webcam_caption.py]

    Clock readings are floats; the loop only subtracts and compares
    them, once per frame.  The model takes the type of clock readings
    and that one comparison as parameters. *)

Module Webcam.
Local Open Scope py_scope.

Definition nl : string := String (ascii_of_nat 10) EmptyString.

Inductive line : Type :=
| Line (s : string)
| CaptionLine (caption : json)     (* [f'Caption: {caption}'] *)
| ElapsedLine                      (* [f'(in {elapsed:.2f}s)'] *)
| ReachedMax (n : Z).              (* [f'Reached --max_captures={n}, exiting.'] *)

(** [str(data)] for a JSON value is left to Python. *)
Section CaptionViaHttp.
Variable py_str : json -> string.

(** [caption_via_http(image, url)], as a function of what the POST
    brings back. *)
Definition caption_via_http (r : res http_response) : json :=
  let failed e := JStr ("HTTP request failed: " +:+ str_exn e) in
  match r with
  | Raise e => failed e
  | Ok resp =>
      match raise_for_status resp with
      | Raise e => failed e
      | Ok _ =>
          match json_body resp with
          | Raise e => failed e
          | Ok (JObj d) =>
              match dict_get "caption" d with
              | Some v => v
              | None => JStr (py_str (JObj d))
              end
          | Ok (JStr s) => JStr s
          | Ok data => JStr (py_str data)
          end
      end
  end.
End CaptionViaHttp.

Section Loop.
Context {time : Type}.
(** [(now - last_auto) >= interval] *)
Variable elapsed_ge : time -> time -> time -> bool.

Record args : Type := {
  auto : bool;
  interval : time;
  max_captures : Z;
}.

(** One turn of [while True]: the camera read, the clock, the key code
    of [cv2.waitKey(1)] and what [caption_fn] does if it is called.
    [cv2.imshow] and [pil_from_bgr] are taken to succeed on a frame
    that was read. *)
Record frame_in : Type := {
  ret_ok : bool;
  now : time;
  key : Z;
  caption : res json;
}.

Record state : Type := mkState {
  last_auto : time;
  captures_done : Z;
  calls : nat;               (* calls of [caption_fn] so far *)
  stdout : list line;
  released : bool;
}.

Definition print (l : line) : M state unit :=
  modify (fun s =>
    {| last_auto := last_auto s; captures_done := captures_done s;
       calls := calls s; stdout := stdout s ++ [l]; released := released s |}).

Definition set_last_auto (t : time) : M state unit :=
  modify (fun s =>
    {| last_auto := t; captures_done := captures_done s;
       calls := calls s; stdout := stdout s; released := released s |}).

Definition caption_fn (r : res json) : M state json :=
  fun s =>
    (r, {| last_auto := last_auto s; captures_done := captures_done s;
           calls := S (calls s); stdout := stdout s; released := released s |}).

Definition incr_captures : M state unit :=
  modify (fun s =>
    {| last_auto := last_auto s; captures_done := captures_done s + 1;
       calls := calls s; stdout := stdout s; released := released s |}).

Definition release : M state unit :=
  modify (fun s =>
    {| last_auto := last_auto s; captures_done := captures_done s;
       calls := calls s; stdout := stdout s; released := true |}).

(** The loop never ends on its own accord while frames arrive and no
    bound is set; a run is the frames seen until the user interrupts
    it. *)
Fixpoint loop (a : args) (frames : list frame_in) : M state unit :=
  match frames with
  | [] => raise (Exception "KeyboardInterrupt")
  | f :: frames' =>
      if negb (ret_ok f) then print (Line "Failed to read frame from webcam")
      else
        la <- gets last_auto;;
        let due := auto a && elapsed_ge (now f) la (interval a) in
        (if due then set_last_auto (now f) else ret tt);;;
        let k := Z.land (key f) 255 in
        if decide (k = 113) then ret tt
        else
          if due || bool_decide (k = 32) then
            print (Line (nl +:+ "Captured frame, sending to model..."));;;
            c <- caption_fn (caption f);;
            print (CaptionLine c);;;
            print ElapsedLine;;;
            incr_captures;;;
            n <- gets captures_done;;
            if bool_decide (max_captures a > 0) && bool_decide (n >= max_captures a)
            then print (ReachedMax (max_captures a))
            else loop a frames'
          else loop a frames'
  end.

(** The part of [main] from the opened camera on. *)
Definition run (a : args) (frames : list frame_in) : M state unit :=
  print (Line "Press SPACE to capture, 'q' to quit. In --auto mode the script captures every --interval seconds.");;;
  try_finally (loop a frames) release.

(** [last_auto = 0.0; captures_done = 0] *)
Definition init (zero : time) : state :=
  {| last_auto := zero; captures_done := 0; calls := 0%nat;
     stdout := []; released := false |}.

End Loop.
End Webcam.

Module WebcamFacts.
Import Webcam.
Local Open Scope py_scope.

Section Loop.
Context {time : Type}.
Variable elapsed_ge : time -> time -> time -> bool.
Local Abbreviation loop := (loop elapsed_ge).
Local Abbreviation run := (run elapsed_ge).

(** What one turn that captures does before the bound is checked. *)
Definition captured (c : json) (now' : option time) (s : state (time:=time))
    : state :=
  {| last_auto := default (last_auto s) now';
     captures_done := captures_done s + 1;
     calls := S (calls s);
     stdout := ((stdout s ++ [Line (nl +:+ "Captured frame, sending to model...")])
                ++ [CaptionLine c]) ++ [ElapsedLine];
     released := released s |}.

Definition due (a : args) (f : frame_in) (s : state) : bool :=
  auto a && elapsed_ge (now f) (last_auto s) (interval a).

Definition ticked (a : args) (f : frame_in) (s : state) : state :=
  if due a f s
  then {| last_auto := now f; captures_done := captures_done s;
          calls := calls s; stdout := stdout s; released := released s |}
  else s.

Lemma webcam_loop_cons a f fs s :
  loop a (f :: fs) s =
  if negb (ret_ok f) then print (Line "Failed to read frame from webcam") s
  else if decide (Z.land (key f) 255 = 113) then (Ok tt, ticked a f s)
  else if due a f s || bool_decide (Z.land (key f) 255 = 32) then
    match caption f with
    | Raise e =>
        (Raise e,
         {| last_auto := last_auto (ticked a f s);
            captures_done := captures_done s;
            calls := S (calls s);
            stdout := stdout s ++ [Line (nl +:+ "Captured frame, sending to model...")];
            released := released s |})
    | Ok c =>
        let s1 := captured c None (ticked a f s) in
        if bool_decide (max_captures a > 0)
           && bool_decide (captures_done s1 >= max_captures a)
        then print (ReachedMax (max_captures a)) s1
        else loop a fs s1
    end
  else loop a fs (ticked a f s).
Proof.
  destruct s as [la cd cl out rel].
  cbn [Webcam.loop]. destruct (ret_ok f); [|reflexivity]. cbn [negb].
  cbv [bind gets ticked due last_auto].
  destruct (auto a && elapsed_ge (now f) la (interval a)) eqn:Hd;
    cbv [set_last_auto modify ret];
    (destruct (decide (Z.land (key f) 255 = 113)); [reflexivity|]);
    cbn [orb].
  - cbv [print modify caption_fn]. cbn.
    destruct (caption f) as [c|e]; [|reflexivity].
    cbv [incr_captures modify captured default]. cbn.
    destruct (bool_decide (max_captures a > 0) && _); reflexivity.
  - destruct (bool_decide (Z.land (key f) 255 = 32)); [|reflexivity].
    cbv [print modify caption_fn]. cbn.
    destruct (caption f) as [c|e]; [|reflexivity].
    cbv [incr_captures modify captured default]. cbn.
    destruct (bool_decide (max_captures a > 0) && _); reflexivity.
Qed.

Lemma ticked_frame a f s :
  captures_done (ticked a f s) = captures_done s /\
  calls (ticked a f s) = calls s /\
  stdout (ticked a f s) = stdout s /\
  released (ticked a f s) = released s.
Proof. unfold ticked. by destruct (due a f s). Qed.

(** The counters along the loop when a bound is set: the loop leaves as
    soon as the bound is met, so it is never passed; the calls of
    [caption_fn] are the captures, plus the one that raised if the loop
    ended that way. *)
Lemma loop_bounded a fs : forall s,
  max_captures a > 0 ->
  captures_done s < max_captures a ->
  Z.of_nat (calls s) = captures_done s ->
  released (snd (loop a fs s)) = released s /\
  captures_done s <= captures_done (snd (loop a fs s)) <= max_captures a /\
  Z.of_nat (calls (snd (loop a fs s))) <= max_captures a.
Proof.
  induction fs as [|f fs IH]; intros s Hmax Hlt Hc.
  - simpl. split; [done|lia].
  - rewrite webcam_loop_cons.
    destruct (ticked_frame a f s) as (Tc & Tl & To & Tr).
    destruct (ret_ok f); cbn [negb]; [|simpl; split; [done|lia]].
    destruct (decide _); [cbn [snd]; rewrite Tc, Tl, Tr; split; [done|lia]|].
    destruct (_ || _).
    + destruct (caption f) as [c|e]; [|simpl; split; [done|lia]].
      cbv zeta.
      rewrite (bool_decide_eq_true_2 _ Hmax). cbn [andb].
      case_bool_decide as Hb.
      * simpl. simpl in Hb. rewrite Tc, Tl, Tr in *. split; [done|lia].
      * simpl in Hb. rewrite Tc in Hb.
        destruct (IH (captured c None (ticked a f s))) as (Ir & Ic & Il);
          [done|simpl; lia|simpl; lia|].
        simpl in Ir, Ic. rewrite Ir, Tr. split; [done|]. split; [lia|done].
    + destruct (IH (ticked a f s)) as (Ir & Ic & Il); [done|lia|lia|].
      rewrite Ir, Tr. split; [done|]. split; [lia|done].
Qed.

(** X17: with [--max_captures n] for a positive [n], however the
    session goes (keys, timer, camera failure, an exception out of the
    captioner, an interrupt) the script asks for at most [n] captions
    and counts at most [n] captures, and the camera is released on the
    way out. *)
Theorem captures_never_exceed_max (a : args) (frames : list frame_in) (zero : time) :
  max_captures a > 0 ->
  released (snd (run a frames (init zero))) = true /\
  0 <= captures_done (snd (run a frames (init zero))) <= max_captures a /\
  Z.of_nat (calls (snd (run a frames (init zero)))) <= max_captures a.
Proof.
  intros Hmax. cbv [Webcam.run bind print modify try_finally release init]. cbn.
  match goal with |- context [loop a frames ?s0] =>
    destruct (loop_bounded a frames s0 Hmax) as (Hr & Hc & Hl);
      [cbn; lia|reflexivity|];
    destruct (loop a frames s0) as [r s1] end.
  cbn in *. split; [reflexivity|]. split; [lia|exact Hl].
Qed.

(** X18: without [--auto], a session in which the space bar is never
    the key read captures nothing: the captioner is not called, the
    counter and the clock mark stay as they were. *)
Theorem no_trigger_no_capture (a : args) (frames : list frame_in) (s : state) :
  auto a = false ->
  Forall (fun f => Z.land (key f) 255 <> 32) frames ->
  calls (snd (loop a frames s)) = calls s /\
  captures_done (snd (loop a frames s)) = captures_done s /\
  last_auto (snd (loop a frames s)) = last_auto s.
Proof.
  intros Ha Hk. revert s. induction Hk as [|f fs Hf Hfs IH]; intros s.
  - done.
  - rewrite webcam_loop_cons.
    assert (Ht : ticked a f s = s) by (unfold ticked, due; by rewrite Ha).
    assert (Hd : due a f s = false) by (unfold due; by rewrite Ha).
    rewrite Ht, Hd.
    destruct (ret_ok f); cbn [negb]; [|done].
    destruct (decide _); [done|].
    rewrite (bool_decide_eq_false_2 _ Hf). cbn [orb]. apply IH.
Qed.

(** X19: the key code is reduced to its low byte before it is compared,
    and [q] is looked at before anything is captured: on a frame that
    was read with [q] as the key, the loop ends normally without a
    capture, also when an automatic capture was due at that moment or
    the code carries bits above the low byte; nothing of what would
    follow matters. *)
Theorem quit_key_wins (a : args) (f : frame_in) (rest : list frame_in) (s : state) :
  ret_ok f = true ->
  Z.land (key f) 255 = 113 ->
  fst (loop a (f :: rest) s) = Ok tt /\
  calls (snd (loop a (f :: rest) s)) = calls s /\
  captures_done (snd (loop a (f :: rest) s)) = captures_done s /\
  stdout (snd (loop a (f :: rest) s)) = stdout s.
Proof.
  intros Hr Hq. rewrite webcam_loop_cons, Hr. cbn [negb].
  destruct (decide _); [|done]. cbn [fst snd].
  destruct (ticked_frame a f s) as (Tc & Tl & To & _). by rewrite Tc, Tl, To.
Qed.

End Loop.

(** A clock in milliseconds. *)
Definition ms_elapsed_ge (now' last interval' : Z) : bool := interval' <=? now' - last.

Definition a_dog : res json := Ok (JStr "a dog").

(** Automatic mode every 3 s, at most two captures. *)
Definition auto_two : args := {| auto := true; interval := 3000; max_captures := 2 |}.

Definition session : list (frame_in (time:=Z)) :=
  [ {| ret_ok := true; now := 5000; key := -1; caption := a_dog |};
    {| ret_ok := true; now := 5040; key := 32; caption := a_dog |};
    {| ret_ok := true; now := 5080; key := 32; caption := a_dog |} ].

Lemma captures_never_exceed_max_witness :
  released (snd (run ms_elapsed_ge auto_two session (init 0))) = true /\
  captures_done (snd (run ms_elapsed_ge auto_two session (init 0))) = 2.
Proof.
  destruct (captures_never_exceed_max ms_elapsed_ge auto_two session 0) as (Hr & _);
    [done|].
  split; [exact Hr|]. by vm_compute.
Defined.

Definition manual : args := {| auto := false; interval := 3000; max_captures := 0 |}.

Definition idle : list (frame_in (time:=Z)) :=
  [ {| ret_ok := true; now := 5000; key := -1; caption := a_dog |};
    {| ret_ok := true; now := 9000; key := 100; caption := a_dog |} ].

Lemma no_trigger_no_capture_witness :
  calls (snd (loop ms_elapsed_ge manual idle (init 0))) = 0%nat.
Proof.
  destruct (no_trigger_no_capture ms_elapsed_ge manual idle (init 0)) as (Hc & _).
  - reflexivity.
  - repeat constructor; by vm_compute.
  - exact Hc.
Defined.

(** [q] with a bit above the low byte set, at a moment when an
    automatic capture is due. *)
Lemma quit_key_wins_witness :
  fst (loop ms_elapsed_ge auto_two
         ({| ret_ok := true; now := 5000; key := 1048689; caption := a_dog |} :: session)
         (init 0)) = Ok tt /\
  calls (snd (loop ms_elapsed_ge auto_two
         ({| ret_ok := true; now := 5000; key := 1048689; caption := a_dog |} :: session)
         (init 0))) = 0%nat.
Proof.
  destruct (quit_key_wins ms_elapsed_ge auto_two
              {| ret_ok := true; now := 5000; key := 1048689; caption := a_dog |}
              session (init 0)) as (Hr & Hc & _).
  - reflexivity.
  - reflexivity.
  - split; [exact Hr|exact Hc].
Defined.

End WebcamFacts.

(** * Server and clients together

    [server.py] declares its URL rules with [@app.route]; Flask matches
    the path of a request against them, calls the view function, and
    puts its return value on the wire.  The clients POST to paths of
    their own tables. *)

Module Flask.
Import Server.
Local Open Scope py_scope.

(** The three view functions registered by [@app.route]. *)
Inductive view : Type :=
| CaptionView (lang : string)      (* [/caption/<lang>] *)
| TrafficView                      (* [/traffic] *)
| OcrView (lang : string).         (* [/ocr/<lang>] *)

Fixpoint strip_prefix (p s : string) : option string :=
  match p with
  | EmptyString => Some s
  | String a p' =>
      match s with
      | EmptyString => None
      | String b s' => if decide (a = b) then strip_prefix p' s' else None
      end
  end.

Fixpoint has_slash (s : string) : bool :=
  match s with
  | EmptyString => false
  | String c s' => bool_decide (c = "/"%char) || has_slash s'
  end.

(** The default converter of a [<variable>]: one non-empty path
    segment. *)
Definition segment (s : string) : option string :=
  if decide (s = EmptyString) then None
  else if has_slash s then None else Some s.

Definition url_map (path : string) : option view :=
  match strip_prefix "/caption/" path with
  | Some l => CaptionView <$> segment l
  | None =>
      if decide (path = "/traffic") then Some TrafficView
      else match strip_prefix "/ocr/" path with
           | Some l => OcrView <$> segment l
           | None => None
           end
  end.

Definition view_function (W : world) (v : view) (req : request) : M state response :=
  match v with
  | CaptionView lang => caption_endpoint W lang req
  | TrafficView => traffic_endpoint W req
  | OcrView lang => ocr_endpoint W lang req
  end.

(** A [jsonify] body with its status, as the client's [requests] sees
    it. *)
Definition on_the_wire (r : response) : http_response :=
  {| status_code := Z.of_nat (status r); json_body := Ok (body r) |}.

(** The error pages are HTML: [resp.json()] would raise on them. *)
Definition error_page (code : Z) : http_response :=
  {| status_code := code; json_body := Raise (Exception "JSONDecodeError") |}.

(** One request: 404 when no rule matches, 500 when the view function
    raises. *)
Definition full_dispatch (W : world) (path : string) (req : request) (s : state)
    : http_response * state :=
  match url_map path with
  | None => (error_page 404, s)
  | Some v =>
      match view_function W v req s with
      | (Ok r, s') => (on_the_wire r, s')
      | (Raise _, s') => (error_page 500, s')
      end
  end.


(** [requests.post(url, files={'image': ('frame.jpg', buf,
    'image/jpeg')})] of [webcam_caption.py]. *)
Definition webcam_post (jpeg : bytes) : request :=
  {| req_method := POST;
     files := [("image", {| filename := "frame.jpg"; content := jpeg |})] |}.

End Flask.

Module WireFacts.
Import Server Flask.
Local Open Scope py_scope.





Section WithWorld.
Variable W : world.

Lemma full_dispatch_unrouted path req s :
  url_map path = None -> full_dispatch W path req s = (error_page 404, s).
Proof. intros H. unfold full_dispatch. by rewrite H. Qed.

(** A POST with an upload always gets a JSON answer from a routed
    path. *)
Lemma full_dispatch_post path req upload s v :
  req_method req = POST -> pick_upload req = Some upload ->
  url_map path = Some v ->
  exists t en conf lang s',
    full_dispatch W path req s
    = (on_the_wire
         (jsonify [(match v with OcrView _ => "text" | _ => "caption" end, JStr t);
                   (match v with OcrView _ => "text_en" | _ => "caption_en" end, en);
                   ("confidence", conf); ("language", lang)]), s').
Proof.
  intros Hm Hu Hv. unfold full_dispatch. rewrite Hv.
  destruct v as [l| |l]; cbn [view_function].
  - destruct (ServerFacts.caption_endpoint_post W l req upload s Hm Hu)
      as (cc & s1 & t & s2 & _ & _ & _ & ->). by eexists _, _, _, _, _.
  - destruct (ServerFacts.traffic_endpoint_post W req upload s Hm Hu)
      as (cc & s1 & _ & _ & ->). by eexists _, _, _, _, _.
  - destruct (ServerFacts.ocr_endpoint_post W l req upload s Hm Hu)
      as (tc & s1 & t & s2 & _ & _ & _ & ->). by eexists _, _, _, _, _.
Qed.


End WithWorld.

(** The language a route hands to its view function is never empty. *)
Lemma routed_language_is_not_empty (path lang : string) :
  url_map path = Some (CaptionView lang) \/ url_map path = Some (OcrView lang) ->
  lang <> EmptyString.
Proof.
  unfold url_map, segment.
  destruct (strip_prefix "/caption/" path) as [l|].
  - destruct (decide (l = EmptyString)); [by intros [|]|].
    destruct (has_slash l); [by intros [|]|].
    intros [[= <-]|[=]]. done.
  - destruct (decide (path = "/traffic")); [by intros [|]|].
    destruct (strip_prefix "/ocr/" path) as [l|]; [|by intros [|]].
    destruct (decide (l = EmptyString)); [by intros [|]|].
    destruct (has_slash l); [by intros [|]|].
    intros [[=]|[= <-]]. done.
Qed.

(** ** The keyboard client against this server *)





(** ** The button client against this server *)

Import RPIClient.














(** ** The preview script against this server *)

(** X22: [caption_via_http] of [webcam_caption.py] pointed at this
    server.  It posts the frame in the [image] field, which the server
    accepts.  On the caption and traffic routes it returns the caption
    string of the answer.  On the OCR routes the answer has no
    [caption] key, so what comes back is the whole answer turned into a
    string, not the text that was read.  On any other path the result is
    the [HTTP request failed] message.  It never raises. *)
Theorem webcam_fallback_reads_caption_routes (py_str : json -> string) (W : world)
    (path : string) (jpeg : bytes) (s : state) :
  match url_map path with
  | Some (OcrView _) =>
      exists d t,
        json_body (fst (full_dispatch W path (webcam_post jpeg) s)) = Ok (JObj d) /\
        dict_get "text" d = Some (JStr t) /\
        Webcam.caption_via_http py_str
          (Ok (fst (full_dispatch W path (webcam_post jpeg) s)))
        = JStr (py_str (JObj d))
  | Some _ =>
      exists d t,
        json_body (fst (full_dispatch W path (webcam_post jpeg) s)) = Ok (JObj d) /\
        dict_get "caption" d = Some (JStr t) /\
        Webcam.caption_via_http py_str
          (Ok (fst (full_dispatch W path (webcam_post jpeg) s)))
        = JStr t
  | None =>
      exists e,
        raise_for_status (fst (full_dispatch W path (webcam_post jpeg) s)) = Raise e /\
        Webcam.caption_via_http py_str
          (Ok (fst (full_dispatch W path (webcam_post jpeg) s)))
        = JStr ("HTTP request failed: " +:+ str_exn e)
  end.
Proof.
  destruct (url_map path) as [v|] eqn:Hv.
  - destruct (full_dispatch_post W path (webcam_post jpeg)
                {| filename := "frame.jpg"; content := jpeg |} s v)
      as (t & en & conf & lang & s' & ->); [done..|].
    destruct v; eexists _, t; (split; [reflexivity|]); by split.
  - rewrite full_dispatch_unrouted by done. by eexists.
Qed.

End WireFacts.

(** * The announcer: [announce_mdns.py] *)

From stdpp Require Import pretty.

Module Mdns.

Global Instance byte_eq_dec : EqDecision Byte.byte := Byte.byte_eq_dec.

(** The fields of a zeroconf [ServiceInfo] that the script sets. *)
Record ServiceInfo : Type := {
  type_ : string;
  name : string;
  addresses : list bytes;
  port : Z;
  properties : list (string * string);
  server : string;
}.

Global Instance ServiceInfo_eq_dec : EqDecision ServiceInfo.
Proof. solve_decision. Defined.

Inductive line : Type :=
| NoIpProvided (detected : string)
    (* [f"No --ip provided. Auto-detected local IP: {detected}"] *)
| Registering (display_name ip : string) (port : Z)
    (* [f"Registering A record and service for {display_name}.local -> {ip}:{port}"] *)
| NameConflict (base_name new_name : string)
    (* [f"Name conflict: {base_name}.local is already in use. Retrying with {new_name}.local"] *)
| Line (s : string).

(** What [zeroconf.register_service(info)] does on one call. *)
Inductive outcome : Type :=
| Registered
| NonUniqueName                 (* [NonUniqueNameException] *)
| OtherError (e : exn)
| Interrupted.                  (* [KeyboardInterrupt] *)

(** How [main] ends. *)
Inductive ending : Type :=
| Stopped                       (* Ctrl-C, handled *)
| Failed (e : exn)              (* an exception leaves [main] *)
| Exited (msg : string).        (* [SystemExit] *)

(** The [Zeroconf] instance and the terminal. *)
Record state : Type := {
  stdout : list line;
  registered : list ServiceInfo;
  register_calls : list ServiceInfo;
  unregister_calls : list ServiceInfo;
  closed : bool;
}.

Definition print (l : line) (s : state) : state :=
  {| stdout := stdout s ++ [l]; registered := registered s;
     register_calls := register_calls s; unregister_calls := unregister_calls s;
     closed := closed s |}.

(** [s.rstrip('.')] *)
Fixpoint rstrip_dots (s : string) : string :=
  match s with
  | EmptyString => EmptyString
  | String c s' =>
      match rstrip_dots s' with
      | EmptyString => if decide (c = "."%char) then EmptyString else String c EmptyString
      | r => String c r
      end
  end.

Record args : Type := {
  arg_ip : option string;
  arg_port : Z;
  arg_name : string;
}.

Section WithSocket.
(** [socket.inet_aton]; [None] stands for its [OSError]. *)
Variable inet_aton : string -> option bytes.

Definition build_service_info (name ip : string) (port : Z) : res ServiceInfo :=
  match inet_aton ip with
  | None => Raise (Exception "illegal IP address string passed to inet_aton")
  | Some packed =>
      Ok {| type_ := "_http._tcp.local.";
            name := name +:+ "._http._tcp.local.";
            addresses := [packed];
            port := port;
            properties := [("path", "/")];
            server := name +:+ ".local." |}
  end.

(** [zeroconf.register_service(info)] with its outcome. *)
Definition register_service (info : ServiceInfo) (o : outcome) (s : state) : state :=
  {| stdout := stdout s;
     registered := match o with
                   | Registered => registered s ++ [info]
                   | _ => registered s
                   end;
     register_calls := register_calls s ++ [info];
     unregister_calls := unregister_calls s;
     closed := closed s |}.

(** [zeroconf.unregister_service(info)] inside [try ... except
    Exception: pass]. *)
Definition unregister_service (info : ServiceInfo) (s : state) : state :=
  {| stdout := stdout s;
     registered := filter (fun i => i <> info) (registered s);
     register_calls := register_calls s;
     unregister_calls := unregister_calls s ++ [info];
     closed := closed s |}.

Definition close (s : state) : state :=
  {| stdout := stdout s; registered := registered s;
     register_calls := register_calls s; unregister_calls := unregister_calls s;
     closed := true |}.

(** The registration loop, over the outcomes of the successive calls of
    [register_service]; when they run out the user has pressed Ctrl-C
    during the next call.  The result is how the loop was left ([None]: by
    [break]) and the value of the variable [info] at that point. *)
Fixpoint register_loop (ip : string) (port : Z) (base_name : string)
    (attempt : nat) (info : ServiceInfo) (outcomes : list outcome) (s : state)
    : option ending * ServiceInfo * state :=
  let display_name := rstrip_dots (server info) in
  let s := print (Registering display_name ip port) s in
  match outcomes with
  | [] | Interrupted :: _ => (Some Stopped, info, register_service info Interrupted s)
  | Registered :: _ => (None, info, register_service info Registered s)
  | OtherError e :: _ => (Some (Failed e), info, register_service info (OtherError e) s)
  | NonUniqueName :: outcomes' =>
      let s := register_service info NonUniqueName s in
      let attempt := S attempt in
      let new_name := base_name +:+ "-" +:+ pretty attempt in
      let s := print (NameConflict base_name new_name) s in
      match build_service_info new_name ip port with
      | Raise e => (Some (Failed e), info, s)
      | Ok info => register_loop ip port base_name attempt info outcomes' s
      end
  end.

(** [detect_local_ip()], from what the UDP socket reports. *)
Definition detect_local_ip (probe : res string) : string :=
  match probe with
  | Ok a => a
  | Raise _ => "127.0.0.1"
  end.

(** [main], for a run that ends: after a successful registration the
    script sleeps until Ctrl-C. *)
Definition main (a : args) (probe : res string) (outcomes : list outcome)
    (s : state) : ending * state :=
  let '(ip, s) :=
    match arg_ip a with
    | Some i =>
        if decide (i = EmptyString)
        then (detect_local_ip probe, print (NoIpProvided (detect_local_ip probe)) s)
        else (i, s)
    | None => (detect_local_ip probe, print (NoIpProvided (detect_local_ip probe)) s)
    end in
  match inet_aton ip with
  | None => (Exited ("Invalid IPv4 address provided: " +:+ ip), s)
  | Some _ =>
      match build_service_info (arg_name a) ip (arg_port a) with
      | Raise e => (Failed e, s)
      | Ok info =>
          let '(way_out, info, s) :=
            register_loop ip (arg_port a) (arg_name a) 0 info outcomes s in
          let '(e, s) :=
            match way_out with
            | None =>
                (Stopped,
                 print (Line "Stopping advertisement...")
                   (print (Line "Advertisement active. Press Ctrl-C to stop.") s))
            | Some Stopped => (Stopped, print (Line "Stopping advertisement...") s)
            | Some e => (e, s)
            end in
          (e, close (unregister_service info s))
      end
  end.

End WithSocket.

Definition init : state :=
  {| stdout := []; registered := []; register_calls := [];
     unregister_calls := []; closed := false |}.

End Mdns.

Module MdnsFacts.
Import Mdns.

Lemma string_length_app (s1 s2 : string) :
  String.length (s1 +:+ s2) = (String.length s1 + String.length s2)%nat.
Proof. induction s1 as [|c s1 IH]; simpl; [done|]. by rewrite IH. Qed.

Lemma string_app_inj_r (t s1 s2 : string) : s1 +:+ t = s2 +:+ t -> s1 = s2.
Proof.
  revert s2. induction s1 as [|c s1 IH]; intros [|d s2] H.
  - done.
  - apply (f_equal String.length) in H.
    rewrite !string_length_app in H. simpl in H. lia.
  - apply (f_equal String.length) in H.
    rewrite !string_length_app in H. simpl in H. lia.
  - change (String c (s1 +:+ t) = String d (s2 +:+ t)) in H.
    injection H as -> H. f_equal. by apply IH.
Qed.

(** The name tried after [k] conflicts. *)
Definition retry_name (base_name : string) (k : nat) : string :=
  match k with
  | O => base_name
  | S _ => base_name +:+ "-" +:+ pretty k
  end.

Lemma retry_name_inj base_name : Inj (=) (=) (retry_name base_name).
Proof.
  intros [|i] [|j] H; unfold retry_name in H.
  - done.
  - apply (f_equal String.length) in H.
    rewrite !string_length_app in H. simpl in H. lia.
  - apply (f_equal String.length) in H.
    rewrite !string_length_app in H. simpl in H. lia.
  - apply String.app_inj, String.app_inj in H. by apply pretty_nat_inj in H.
Qed.

(** The number of conflicts met before the loop is left. *)
Fixpoint conflicts (outcomes : list outcome) : nat :=
  match outcomes with
  | NonUniqueName :: outcomes' => S (conflicts outcomes')
  | _ => O
  end.

(** How the loop is left after the conflicts. *)
Fixpoint way_out (outcomes : list outcome) : option ending :=
  match outcomes with
  | [] | Interrupted :: _ => Some Stopped
  | Registered :: _ => None
  | OtherError e :: _ => Some (Failed e)
  | NonUniqueName :: outcomes' => way_out outcomes'
  end.

Section WithSocket.
Variable inet_aton : string -> option bytes.
Variables (ip : string) (packed : bytes) (portno : Z) (base_name : string).
Hypothesis valid : inet_aton ip = Some packed.

Definition info_of (n : string) : ServiceInfo :=
  {| type_ := "_http._tcp.local.";
     name := n +:+ "._http._tcp.local.";
     addresses := [packed];
     port := portno;
     properties := [("path", "/")];
     server := n +:+ ".local." |}.

Lemma info_of_inj : Inj (=) (=) info_of.
Proof. intros n1 n2 [= H _]. by apply string_app_inj_r in H. Qed.

Lemma build_service_info_valid n :
  build_service_info inet_aton n ip portno = Ok (info_of n).
Proof. unfold build_service_info. by rewrite valid. Qed.

Definition tried (k n : nat) : list ServiceInfo :=
  (fun i => info_of (retry_name base_name i)) <$> seq k n.

Lemma register_loop_eq outcomes : forall k s,
  let r := register_loop inet_aton ip portno base_name k
             (info_of (retry_name base_name k)) outcomes s in
  fst (fst r) = way_out outcomes /\
  snd (fst r) = info_of (retry_name base_name (k + conflicts outcomes)) /\
  register_calls (snd r)
  = register_calls s ++ tried k (S (conflicts outcomes)) /\
  registered (snd r)
  = registered s ++ match way_out outcomes with
                    | None => [info_of (retry_name base_name (k + conflicts outcomes))]
                    | Some _ => []
                    end /\
  unregister_calls (snd r) = unregister_calls s /\
  closed (snd r) = closed s.
Proof.
  induction outcomes as [|[| |e|] outcomes IH]; intros k s; cbn zeta.
  - simpl. rewrite Nat.add_0_r, app_nil_r. done.
  - simpl. rewrite Nat.add_0_r. done.
  - cbn [register_loop conflicts way_out].
    change (base_name +:+ "-" +:+ pretty (S k)) with (retry_name base_name (S k)).
    rewrite build_service_info_valid.
    match goal with |- context [register_loop _ _ _ _ _ _ _ ?s0] =>
      destruct (IH (S k) s0) as (H1 & H2 & H3 & H4 & H5 & H6) end.
    rewrite H1, H2, H3, H4, H5, H6.
    replace (k + S (conflicts outcomes))%nat with (S k + conflicts outcomes)%nat by lia.
    split; [done|]. split; [done|]. split; [|done].
    cbn [register_calls print register_service].
    unfold tried. rewrite <- app_assoc. f_equal.
  - simpl. rewrite Nat.add_0_r, app_nil_r. done.
  - simpl. rewrite Nat.add_0_r, app_nil_r. done.
Qed.

End WithSocket.

(** The address [main] goes on with. *)
Definition chosen_ip (a : args) (probe : res string) : string :=
  match arg_ip a with
  | Some i => if decide (i = EmptyString) then detect_local_ip probe else i
  | None => detect_local_ip probe
  end.

Definition last_info (a : args) (probe : res string) (packed : bytes)
    (outcomes : list outcome) : ServiceInfo :=
  info_of packed (arg_port a) (retry_name (arg_name a) (conflicts outcomes)).

Lemma announce_main_eq inet_aton a probe packed outcomes :
  inet_aton (chosen_ip a probe) = Some packed ->
  fst (main inet_aton a probe outcomes init)
  = match way_out outcomes with
    | Some e => e
    | None => Stopped
    end /\
  register_calls (snd (main inet_aton a probe outcomes init))
  = tried packed (arg_port a) (arg_name a) 0 (S (conflicts outcomes)) /\
  registered (snd (main inet_aton a probe outcomes init)) = [] /\
  unregister_calls (snd (main inet_aton a probe outcomes init))
  = [last_info a probe packed outcomes] /\
  closed (snd (main inet_aton a probe outcomes init)) = true.
Proof.
  intros Hv. unfold main.
  set (ip := chosen_ip a probe) in *.
  set (s0 := if decide (is_Some (arg_ip a) /\ arg_ip a <> Some EmptyString)
             then init else print (NoIpProvided (detect_local_ip probe)) init).
  assert (Hs0 : register_calls s0 = [] /\ registered s0 = [] /\
                unregister_calls s0 = [] /\ closed s0 = false).
  { unfold s0. by case_decide. }
  assert (Hpair : match arg_ip a with
            | Some i =>
                if decide (i = EmptyString)
                then (detect_local_ip probe,
                      print (NoIpProvided (detect_local_ip probe)) init)
                else (i, init)
            | None => (detect_local_ip probe,
                       print (NoIpProvided (detect_local_ip probe)) init)
            end = (ip, s0)).
  { unfold ip, s0, chosen_ip. destruct (arg_ip a) as [i|].
    - destruct (decide (i = EmptyString)) as [->|Hi].
      + rewrite decide_False; [done|]. intros [_ H]. by apply H.
      + rewrite decide_True; [done|]. split; [by eexists|]. by intros [= ->].
    - rewrite decide_False; [done|]. intros [[? H] _]. discriminate H. }
  rewrite Hpair, Hv.
  rewrite (build_service_info_valid inet_aton ip packed (arg_port a) Hv).
  destruct (register_loop_eq inet_aton ip packed (arg_port a) (arg_name a) Hv
              outcomes 0%nat s0) as (H1 & H2 & H3 & H4 & H5 & H6).
  cbn zeta in *.
  destruct Hs0 as (R1 & R2 & R3 & R4).
  destruct (register_loop _ _ _ _ _ _ _ _) as [[w info] s1].
  cbn [fst snd] in *. subst w info. rewrite R1 in H3. rewrite R2 in H4.
  rewrite R3 in H5. cbn [app] in *.
  unfold last_info. fold ip.
  destruct (way_out outcomes) as [[|e|msg]|]; cbn [fst snd];
    cbn [close unregister_service print register_calls registered
         unregister_calls closed];
    rewrite ?H3, ?H4, ?H5; (split; [done|]); (split; [done|]);
    (split; [|done]); [done..|].
  cbn. by rewrite decide_False by (intros H; by apply H).
Qed.

(** X23: with a valid address, the registration loop tries the base
    name first and after the [k]-th conflict the name
    [<base>-<k>], built from the base name each time.  The services it
    asks zeroconf to register are exactly these, one per call, and no
    two of them are the same: the loop never retries a name that was
    refused. *)
Theorem retry_names_never_repeat (inet_aton : string -> option bytes) (a : args)
    (probe : res string) (packed : bytes) (outcomes : list outcome) :
  inet_aton (chosen_ip a probe) = Some packed ->
  register_calls (snd (main inet_aton a probe outcomes init))
  = (fun k => info_of packed (arg_port a) (retry_name (arg_name a) k))
      <$> seq 0 (S (conflicts outcomes)) /\
  NoDup (register_calls (snd (main inet_aton a probe outcomes init))).
Proof.
  intros Hv. destruct (announce_main_eq inet_aton a probe packed outcomes Hv) as (_ & -> & _).
  split; [done|]. unfold tried.
  assert (Hinj : Inj (=) (=)
            (fun k => info_of packed (arg_port a) (retry_name (arg_name a) k))).
  { intros i j H. by apply info_of_inj, retry_name_inj in H. }
  apply (NoDup_fmap_2 _), NoDup_seq.
Qed.

(** X24: with a valid address, however the registration goes (success
    followed by Ctrl-C, Ctrl-C in the middle of the retries, or an
    exception out of zeroconf) [main] leaves nothing registered and
    closes zeroconf; the one service it unregisters is the last one it
    built, which is the one of its last registration call.  An
    exception other than a name conflict is the only way for [main] to
    fail. *)
Theorem advertisement_is_withdrawn (inet_aton : string -> option bytes) (a : args)
    (probe : res string) (packed : bytes) (outcomes : list outcome) :
  inet_aton (chosen_ip a probe) = Some packed ->
  closed (snd (main inet_aton a probe outcomes init)) = true /\
  registered (snd (main inet_aton a probe outcomes init)) = [] /\
  (exists info,
     unregister_calls (snd (main inet_aton a probe outcomes init)) = [info] /\
     last (register_calls (snd (main inet_aton a probe outcomes init))) = Some info) /\
  (fst (main inet_aton a probe outcomes init) = Stopped \/
   exists e, OtherError e ∈ outcomes /\
             fst (main inet_aton a probe outcomes init) = Failed e).
Proof.
  intros Hv.
  destruct (announce_main_eq inet_aton a probe packed outcomes Hv) as (He & Hc & Hr & Hu & Hcl).
  split; [done|]. split; [done|]. split.
  - exists (last_info a probe packed outcomes). split; [done|].
    rewrite Hc. unfold tried. rewrite seq_S, fmap_app. cbn [fmap list_fmap].
    by rewrite last_snoc.
  - rewrite He. clear. induction outcomes as [|[| |e|] outcomes IH]; cbn [way_out].
    + by left.
    + by left.
    + destruct IH as [IH|(e & Hin & IH)]; [by left|].
      right. exists e. split; [by apply list_elem_of_further|done].
    + right. exists e. split; [apply list_elem_of_here|done].
    + by left.
Qed.

(** A host that accepts one address only. *)
Definition only_42 (ip : string) : option bytes :=
  if decide (ip = "192.168.1.42")
  then Some [Byte.xc0; Byte.xa8; Byte.x01; Byte.x2a] else None.

Definition specs_args : args :=
  {| arg_ip := Some "192.168.1.42"; arg_port := 80; arg_name := "specsserver" |}.

(** Two hosts on the network already answer to the first two names. *)
Definition twice_taken : list outcome := [NonUniqueName; NonUniqueName; Registered].

Lemma retry_names_never_repeat_witness :
  NoDup (register_calls (snd (main only_42 specs_args (Raise (Exception "unreachable"))
                                twice_taken init))) /\
  server <$> register_calls (snd (main only_42 specs_args
                                    (Raise (Exception "unreachable")) twice_taken init))
  = ["specsserver.local."; "specsserver-1.local."; "specsserver-2.local."].
Proof.
  split; [|by vm_compute].
  apply (retry_names_never_repeat only_42 specs_args (Raise (Exception "unreachable"))
           [Byte.xc0; Byte.xa8; Byte.x01; Byte.x2a] twice_taken).
  reflexivity.
Defined.

Lemma advertisement_is_withdrawn_witness :
  closed (snd (main only_42 specs_args (Raise (Exception "unreachable"))
                 [NonUniqueName; OtherError (Exception "network down")] init)) = true /\
  registered (snd (main only_42 specs_args (Raise (Exception "unreachable"))
                     [NonUniqueName; OtherError (Exception "network down")] init)) = [].
Proof.
  destruct (advertisement_is_withdrawn only_42 specs_args
              (Raise (Exception "unreachable"))
              [Byte.xc0; Byte.xa8; Byte.x01; Byte.x2a]
              [NonUniqueName; OtherError (Exception "network down")])
    as (Hc & Hr & _); [reflexivity|].
  by split.
Defined.

End MdnsFacts.
